(** * React-D3-Tree: the [Tree] component (src/Tree/index.js)

    A shallow embedding of the layout-and-state engine of the component:
    identity assignment, lookup by identifier, collapse / expand, the click
    dispatcher, the layout pass and the initial zoom clamp.

    Conventions of the embedding
    - JavaScript objects live in a store ([heap]); a reference to a node
      object is a location ([loc]).  Arrays are never updated in place by
      the component, so an array of nodes is a list of locations.
    - JavaScript numbers are exact rationals ([Qc]).
    - A computation that may raise returns a [res]; [TypeError] is the
      JavaScript exception, [Stuck] is an artefact of the embedding (a
      recursion through the store that ran out of fuel, or a reference with
      no object behind it).
    - [clone] is a deep copy: the copy is the store taken by value. *)

From Stdlib Require Import QArith Qcanon.
From stdpp Require Import base option list gmap strings numbers pretty relations.

Set Default Proof Using "Type".

(** ** Results and errors *)

Inductive error := TypeError | Stuck.

Inductive res (A : Type) : Type :=
  | Ok (a : A)
  | Throw (e : error).
Arguments Ok {A} a.
Arguments Throw {A} e.

#[global] Instance res_ret : MRet res := fun _ a => Ok a.
#[global] Instance res_bind : MBind res := fun _ _ f m =>
  match m with Ok a => f a | Throw e => Throw e end.

(** [array.forEach] with a callback that updates a state and may raise. *)
Fixpoint forEach {A S : Type} (f : A -> S -> res S) (l : list A) (s : S) : res S :=
  match l with
  | [] => Ok s
  | a :: l' => s' ← f a s; forEach f l' s'
  end.

(** [array.map] with a callback that threads a state. *)
Fixpoint mapS {A B S : Type} (f : A -> S -> B * S) (l : list A) (s : S) : list B * S :=
  match l with
  | [] => ([], s)
  | a :: l' => let '(b, s1) := f a s in let '(bs, s2) := mapS f l' s1 in (b :: bs, s2)
  end.

(** ** Nodes *)

Abbreviation loc := nat (only parsing).

(** The raw hierarchical input (the [data] prop): a name, optional
    attributes and an optional array of children. *)
#[warning="-register-all"]
Inductive RawNode : Type :=
  | Raw (raw_name : string) (raw_attributes : list (string * string))
        (raw_children : option (list RawNode)).

(** A node object once the component owns it.  [children] is the field the
    layout writes (the visible children), [_children] the component's own
    list; [parent], [depth], [x] and [y] are written by the layout and are
    absent before the first pass. *)
Record node : Type := Node {
  id : string;
  name : string;
  attributes : list (string * string);
  _collapsed : bool;
  children : option (list loc);
  _children : option (list loc);
  parent : option loc;
  depth : option nat;
  x : option Qc;
  y : option Qc
}.

Abbreviation heap := (gmap nat node) (only parsing).

Definition set_collapsed (b : bool) (n : node) : node :=
  Node (id n) (name n) (attributes n) b (children n) (_children n)
       (parent n) (depth n) (x n) (y n).

Definition set_children (c : option (list loc)) (n : node) : node :=
  Node (id n) (name n) (attributes n) (_collapsed n) c (_children n)
       (parent n) (depth n) (x n) (y n).

Definition set__children (c : option (list loc)) (n : node) : node :=
  Node (id n) (name n) (attributes n) (_collapsed n) (children n) c
       (parent n) (depth n) (x n) (y n).

Definition set_parent (p : option loc) (n : node) : node :=
  Node (id n) (name n) (attributes n) (_collapsed n) (children n) (_children n)
       p (depth n) (x n) (y n).

Definition set_depth (d : option nat) (n : node) : node :=
  Node (id n) (name n) (attributes n) (_collapsed n) (children n) (_children n)
       (parent n) d (x n) (y n).

Definition set_x (v : option Qc) (n : node) : node :=
  Node (id n) (name n) (attributes n) (_collapsed n) (children n) (_children n)
       (parent n) (depth n) v (y n).

Definition set_y (v : option Qc) (n : node) : node :=
  Node (id n) (name n) (attributes n) (_collapsed n) (children n) (_children n)
       (parent n) (depth n) (x n) v.

(** Reading a property of the object behind a reference. *)
Definition get (h : heap) (l : loc) : res node :=
  match h !! l with
  | Some n => Ok n
  | None => Throw Stuck
  end.

(** The guard [a && a.length > 0] the component puts on a child list. *)
Definition nonempty (a : option (list loc)) : bool :=
  match a with
  | Some (_ :: _) => true
  | _ => false
  end.

(** The entries of a child list as that guard reads it: an absent list
    and an empty one are both "no children". *)
Definition entries (a : option (list loc)) : list loc :=
  match a with
  | Some l => l
  | None => []
  end.

(** A finite tree of references: the shape of the objects reached from a
    node through a child list. *)
#[warning="-register-all"]
Inductive shape : Type :=
  | Sh (l : loc) (ks : list shape).

Definition sroot (s : shape) : loc := match s with Sh l _ => l end.

(** The references of a shape, parent before children, children left to
    right. *)
Fixpoint slocs (s : shape) : list loc :=
  match s with Sh l ks => l :: flat_map slocs ks end.

Fixpoint height (s : shape) : nat :=
  match s with Sh _ ks => S (foldr Nat.max 0 (map height ks)) end.

Definition Qc_of_nat (n : nat) : Qc := Q2Qc (inject_Z (Z.of_nat n)).

(** [array.map] with a callback that threads a state and may raise. *)
Fixpoint mapM_S {A B S : Type} (f : A -> S -> res (B * S)) (l : list A) (s : S)
  : res (list B * S) :=
  match l with
  | [] => Ok ([], s)
  | a :: l' =>
    '(b, s1) ← f a s;
    '(bs, s2) ← mapM_S f l' s1;
    Ok (b :: bs, s2)
  end.

(** ** The tree layout of d3 (version 3)

    [generateTree] calls [d3.layout.tree()]; d3 is a dependency of the
    component, not part of it.  The module follows d3's [layout/hierarchy.js]
    and [layout/tree.js]: the traversal that collects the visible nodes
    through the children accessor, the walk of Buchheim, Juenger and Leipert
    that computes unit positions, and the scaling by the node size. *)
Module D3.

(** *** [d3.layout.hierarchy]: the traversal

    A visited node is pushed on [nodes]; when the accessor yields children
    each of them receives [parent] and [depth] and the node's [children]
    field is set, otherwise the field is deleted.  d3 drives the traversal
    with an explicit stack; the recursion below visits in the same order. *)
Fixpoint visit (fuel : nat) (accessor : node -> option (list loc)) (l : loc) (h : heap)
  : res (shape * heap) :=
  match fuel with
  | O => Throw Stuck
  | S fuel' =>
    n ← get h l;
    let childs := accessor n in
    if nonempty childs then
      h1 ← forEach (fun c h =>
                      nc ← get h c;
                      Ok (<[c := set_depth (S <$> depth n) (set_parent (Some l) nc)]> h))
                   (entries childs) h;
      n1 ← get h1 l;
      let h2 := <[l := set_children childs n1]> h1 in
      '(ks, h3) ← mapM_S (visit fuel' accessor) (entries childs) h2;
      Ok (Sh l ks, h3)
    else
      Ok (Sh l [], <[l := set_children None n]> h)
  end.

Definition hierarchy (accessor : node -> option (list loc)) (root : loc) (h : heap)
  : res (shape * heap) :=
  n ← get h root;
  visit (S (size h)) accessor root (<[root := set_depth (Some 0) n]> h).

(** *** [wrapTree]: the working copy of the walk

    Every visible node is wrapped in a record of the walk's own fields.
    The records live in an array; a reference to a record is its index.
    Index 0 is the extra root d3 puts above the tree (only its [A],
    [children] and [m] are used). *)
Record wnode : Type := W {
  w_ : loc;                (* _ : the source node *)
  w_parent : nat;
  w_children : list nat;
  w_A : option nat;        (* default ancestor *)
  w_a : nat;               (* ancestor *)
  w_z : Qc;                (* prelim *)
  w_m : Qc;                (* mod *)
  w_c : Qc;                (* change *)
  w_s : Qc;                (* shift *)
  w_t : option nat;        (* thread *)
  w_i : nat                (* number *)
}.

Definition upd_children (v : list nat) (w : wnode) : wnode :=
  W (w_ w) (w_parent w) v (w_A w) (w_a w) (w_z w) (w_m w) (w_c w) (w_s w) (w_t w) (w_i w).
Definition upd_A (v : option nat) (w : wnode) : wnode :=
  W (w_ w) (w_parent w) (w_children w) v (w_a w) (w_z w) (w_m w) (w_c w) (w_s w) (w_t w) (w_i w).
Definition upd_a (v : nat) (w : wnode) : wnode :=
  W (w_ w) (w_parent w) (w_children w) (w_A w) v (w_z w) (w_m w) (w_c w) (w_s w) (w_t w) (w_i w).
Definition upd_z (v : Qc) (w : wnode) : wnode :=
  W (w_ w) (w_parent w) (w_children w) (w_A w) (w_a w) v (w_m w) (w_c w) (w_s w) (w_t w) (w_i w).
Definition upd_m (v : Qc) (w : wnode) : wnode :=
  W (w_ w) (w_parent w) (w_children w) (w_A w) (w_a w) (w_z w) v (w_c w) (w_s w) (w_t w) (w_i w).
Definition upd_c (v : Qc) (w : wnode) : wnode :=
  W (w_ w) (w_parent w) (w_children w) (w_A w) (w_a w) (w_z w) (w_m w) v (w_s w) (w_t w) (w_i w).
Definition upd_s (v : Qc) (w : wnode) : wnode :=
  W (w_ w) (w_parent w) (w_children w) (w_A w) (w_a w) (w_z w) (w_m w) (w_c w) v (w_t w) (w_i w).
Definition upd_t (v : option nat) (w : wnode) : wnode :=
  W (w_ w) (w_parent w) (w_children w) (w_A w) (w_a w) (w_z w) (w_m w) (w_c w) (w_s w) v (w_i w).

Abbreviation warray := (list wnode) (only parsing).

Definition rd (a : warray) (v : nat) : res wnode :=
  match a !! v with
  | Some w => Ok w
  | None => Throw Stuck
  end.

(** [wrap s p i a] appends the record of the root of [s] (child number [i]
    of the record [p]) and of its descendants; it returns the index of the
    root's record, the indices in the order of [visitAfter] (children
    before their parent) and the array. *)
Fixpoint wrap (s : shape) (p i : nat) (a : warray) : nat * list nat * warray :=
  match s with
  | Sh l ks =>
    let v := length a in
    let a0 := a ++ [W l p [] None v 0 0 0 0 None i] in
    let '(cs, post, a1) :=
      (fix wrap_all (ks : list shape) (i : nat) (a : warray) : list nat * list nat * warray :=
         match ks with
         | [] => ([], [], a)
         | k :: ks' =>
           let '(c, post1, a1) := wrap k v i a in
           let '(cs, post2, a2) := wrap_all ks' (S i) a1 in
           (c :: cs, post1 ++ post2, a2)
         end) ks 0 a0 in
    (v, post ++ [v], alter (upd_children cs) v a1)
  end.

Definition wrapTree (s : shape) : nat * list nat * warray :=
  wrap s 0 0 [W 0 0 [1] None 0 0 0 0 0 None 0].

(** *** The walk *)

(** NEXT LEFT and NEXT RIGHT *)
Definition treeLeft (w : wnode) : option nat :=
  match w_children w with
  | c :: _ => Some c
  | [] => w_t w
  end.

Definition treeRight (w : wnode) : option nat :=
  match w_children w with
  | _ :: _ => last (w_children w)
  | [] => w_t w
  end.

(** MOVE SUBTREE *)
Definition treeMove (wm wp : nat) (shift : Qc) (a : warray) : res warray :=
  np ← rd a wp;
  nm ← rd a wm;
  let change := (shift / Qc_of_nat (w_i np - w_i nm))%Qc in
  let a := alter (fun w => upd_s (w_s w + shift) (upd_c (w_c w - change) w))%Qc wp a in
  let a := alter (fun w => upd_c (w_c w + change) w)%Qc wm a in
  Ok (alter (fun w => upd_m (w_m w + shift) (upd_z (w_z w + shift) w))%Qc wp a).

(** EXECUTE SHIFTS: the children are visited from the last to the first. *)
Definition treeShift (v : nat) (a : warray) : res warray :=
  nv ← rd a v;
  '(_, _, a) ← forEach (fun w '(shift, change, a) =>
                 nw ← rd a w;
                 let a := alter (fun w => upd_m (w_m w + shift) (upd_z (w_z w + shift) w))%Qc w a in
                 let change := (change + w_c nw)%Qc in
                 Ok ((shift + (w_s nw + change))%Qc, change, a))
              (reverse (w_children nv)) (0%Qc, 0%Qc, a);
  Ok a.

(** ANCESTOR *)
Definition treeAncestor (vim v ancestor : nat) (a : warray) : res nat :=
  nvim ← rd a vim;
  na ← rd a (w_a nvim);
  nv ← rd a v;
  Ok (if decide (w_parent na = w_parent nv) then w_a nvim else ancestor).

Section Walk.

(** The separation accessor: it reads the source nodes and may raise. *)
Variable separation : loc -> loc -> res Qc.

(** The state of the loop of [apportion]. *)
Record contour : Type := Contour {
  vip : nat; vop : nat; vim : nat; vom : nat;
  sip : Qc; sop : Qc; sim : Qc; som : Qc
}.

(** The [while] loop of [apportion]; it returns the contour at exit with
    the values the loop test left in [vim] and [vip]. *)
Fixpoint apportion_loop (fuel : nat) (v ancestor : nat) (k : contour) (a : warray)
  : res (option nat * option nat * contour * warray) :=
  match fuel with
  | O => Throw Stuck
  | S fuel' =>
    nvim ← rd a (vim k);
    nvip ← rd a (vip k);
    match treeRight nvim, treeLeft nvip with
    | Some vim1, Some vip1 =>
      nvom ← rd a (vom k);
      nvop ← rd a (vop k);
      match treeLeft nvom, treeRight nvop with
      | Some vom1, Some vop1 =>
        let a := alter (upd_a v) vop1 a in
        nvim1 ← rd a vim1;
        nvip1 ← rd a vip1;
        sp ← separation (w_ nvim1) (w_ nvip1);
        let shift := (w_z nvim1 + sim k - w_z nvip1 - sip k + sp)%Qc in
        '(a, sip1, sop1) ←
          (if decide (0 < shift)%Qc then
             wm ← treeAncestor vim1 v ancestor a;
             a ← treeMove wm v shift a;
             Ok (a, (sip k + shift)%Qc, (sop k + shift)%Qc)
           else Ok (a, sip k, sop k));
        nvim1 ← rd a vim1;
        nvip1 ← rd a vip1;
        nvom1 ← rd a vom1;
        nvop1 ← rd a vop1;
        apportion_loop fuel' v ancestor
          (Contour vip1 vop1 vim1 vom1
                   (sip1 + w_m nvip1) (sop1 + w_m nvop1)
                   (sim k + w_m nvim1) (som k + w_m nvom1))%Qc a
      | _, _ => Throw TypeError
      end
    | r, l => Ok (r, l, k, a)
    end
  end.

(** APPORTION *)
Definition apportion (v : nat) (w : option nat) (ancestor : nat) (a : warray)
  : res (nat * warray) :=
  match w with
  | None => Ok (ancestor, a)
  | Some w =>
    nv ← rd a v;
    nw ← rd a w;
    np ← rd a (w_parent nv);
    match w_children np with
    | [] => Throw TypeError
    | vom0 :: _ =>
      nvom ← rd a vom0;
      '(r, l, k, a) ← apportion_loop (length a) v ancestor
                        (Contour v v w vom0 (w_m nv) (w_m nv) (w_m nw) (w_m nvom)) a;
      nvop ← rd a (vop k);
      a ← match r, treeRight nvop with
          | Some vim1, None =>
            Ok (alter (fun x => upd_m (w_m x + sim k - sop k) (upd_t (Some vim1) x))%Qc
                      (vop k) a)
          | _, _ => Ok a
          end;
      nvom ← rd a (vom k);
      match l, treeLeft nvom with
      | Some vip1, None =>
        Ok (v, alter (fun x => upd_m (w_m x + sip k - som k) (upd_t (Some vip1) x))%Qc
                     (vom k) a)
      | _, _ => Ok (ancestor, a)
      end
    end
  end.

(** FIRST WALK *)
Definition firstWalk (v : nat) (a : warray) : res warray :=
  nv ← rd a v;
  np ← rd a (w_parent nv);
  let siblings := w_children np in
  let w := match w_i nv with O => None | S j => siblings !! j end in
  a ← match w_children nv with
      | c0 :: _ =>
        a ← treeShift v a;
        n0 ← rd a c0;
        cl ← from_option (rd a) (Throw Stuck) (last (w_children nv));
        let midpoint := ((w_z n0 + w_z cl) / Qc_of_nat 2)%Qc in
        match w with
        | Some w =>
          nw ← rd a w;
          sp ← separation (w_ nv) (w_ nw);
          let z := (w_z nw + sp)%Qc in
          Ok (alter (fun x => upd_m (z - midpoint)%Qc (upd_z z x)) v a)
        | None => Ok (alter (upd_z midpoint) v a)
        end
      | [] =>
        match w with
        | Some w =>
          nw ← rd a w;
          sp ← separation (w_ nv) (w_ nw);
          Ok (alter (upd_z (w_z nw + sp)%Qc) v a)
        | None => Ok a
        end
      end;
  np ← rd a (w_parent nv);
  s0 ← from_option Ok (Throw Stuck) (head siblings);
  '(anc, a) ← apportion v w (default s0 (w_A np)) a;
  Ok (alter (upd_A (Some anc)) (w_parent nv) a).

(** SECOND WALK: [v._.x = v.z + v.parent.m; v.m += v.parent.m]. *)
Definition secondWalk (v : nat) (st : warray * heap) : res (warray * heap) :=
  let '(a, h) := st in
  nv ← rd a v;
  np ← rd a (w_parent nv);
  n ← get h (w_ nv);
  Ok (alter (upd_m (w_m nv + w_m np)%Qc) v a,
      <[w_ nv := set_x (Some (w_z nv + w_m np)%Qc) n]> h).

(** The walk over the visible tree [s]: unit positions are written to the
    [x] field of the source nodes. *)
Definition walk (s : shape) (h : heap) : res heap :=
  let '(root1, post, a) := wrapTree s in
  a ← forEach firstWalk post a;
  nr ← rd a root1;
  let a := alter (upd_m (- w_z nr)%Qc) 0 a in
  '(_, h) ← forEach secondWalk (seq 1 (length a - 1)) (a, h);
  Ok h.

End Walk.

(** [sizeNode]: [node.x *= size[0]; node.y = node.depth * size[1]]. *)
Definition sizeNode (size : Qc * Qc) (l : loc) (h : heap) : res heap :=
  n ← get h l;
  Ok (<[l := set_y ((fun d => Qc_of_nat d * size.2)%Qc <$> depth n)
                   (set_x ((fun v => v * size.1)%Qc <$> x n) n)]> h).

(** [tree.nodes(root)] for a layout configured with [nodeSize],
    [separation] and [children]. *)
Definition nodes (nodeSize : Qc * Qc) (separation : heap -> loc -> loc -> res Qc)
    (accessor : node -> option (list loc)) (root : loc) (h : heap)
  : res (list loc * heap) :=
  '(s, h) ← hierarchy accessor root h;
  h ← walk (separation h) s h;
  h ← forEach (sizeNode nodeSize) (slocs s) h;
  Ok (slocs s, h).

(** [tree.links(nodes)]: one link per entry of the [children] field of
    every node. *)
Definition links (nodes : list loc) (h : heap) : res (list (loc * loc)) :=
  forEach (fun p ls =>
             n ← get h p;
             Ok (ls ++ map (fun c => (p, c)) (entries (children n))))
          nodes [].

End D3.

(** ** Props, state and the callbacks' trace *)

Inductive Orientation := horizontal | vertical.

(** [{x, y}]: [translate] and [nodeSize]. *)
Record xy : Type := XY { xy_x : Qc; xy_y : Qc }.

(** [scaleExtent]. *)
Record extent : Type := Extent { min : Qc; max : Qc }.

(** [separation]. *)
Record factors : Type := Factors { siblings : Qc; nonSiblings : Qc }.

(** The DOM event handed through to the callbacks. *)
Abbreviation event := string (only parsing).

(** The props the engine reads.  A callback prop is [true] when the user
    supplied a function; what the function is called with is recorded in
    the trace. *)
Record Props : Type := {
  data : list RawNode;
  onClick : bool;
  onMouseOver : bool;
  onMouseOut : bool;
  onUpdate : bool;
  orientation : Orientation;
  translate : xy;
  depthFactor : option Qc;
  collapsible : bool;
  initialDepth : option Qc;
  zoomable : bool;
  zoom : Qc;
  scaleExtent : extent;
  nodeSize : xy;
  separation : factors
}.

(** [Tree.defaultProps] around the required [data]. *)
Definition defaultProps (data : list RawNode) : Props := {|
  data := data;
  onClick := false;
  onMouseOver := false;
  onMouseOut := false;
  onUpdate := false;
  orientation := horizontal;
  translate := XY 0 0;
  depthFactor := None;
  collapsible := true;
  initialDepth := None;
  zoomable := true;
  zoom := 1;
  scaleExtent := Extent (Q2Qc (1 # 10)) 1;
  nodeSize := XY (Qc_of_nat 140) (Qc_of_nat 140);
  separation := Factors 1 (Qc_of_nat 2)
|}.

(** [this.state]: the array [data] and the objects it reaches. *)
Record State : Type := {
  state_data : list loc;
  objects : heap
}.

(** [{translate, scale}] *)
Record geometry : Type := { d3_translate : xy; d3_scale : Qc }.

(** [this.internalState] *)
Record InternalState : Type := {
  initialRender : bool;
  targetNode : option loc;
  d3 : geometry
}.

(** A call of a user callback: the node handed over (a deep copy, so the
    reference comes with the store as it was at the call) and the event. *)
Inductive call : Type :=
  | call_onClick (target : option loc) (copy : heap) (evt : event)
  | call_onMouseOver (target : option loc) (copy : heap) (evt : event)
  | call_onMouseOut (target : option loc) (copy : heap) (evt : event)
  | call_onUpdate (target : option loc) (copy : heap) (zoom : Qc) (translate : xy).

(** A mounted component. *)
Record Tree : Type := {
  props : Props;
  state : State;
  internalState : InternalState;
  uuids : nat;               (* identifiers drawn from [uuid.v4] so far *)
  calls : list call          (* the callbacks' trace, oldest first *)
}.

Definition setState (s : State) (t : Tree) : Tree :=
  {| props := props t; state := s; internalState := internalState t;
     uuids := uuids t; calls := calls t |}.

Definition set_internalState (i : InternalState) (t : Tree) : Tree :=
  {| props := props t; state := state t; internalState := i;
     uuids := uuids t; calls := calls t |}.

Definition set_props (p : Props) (t : Tree) : Tree :=
  {| props := p; state := state t; internalState := internalState t;
     uuids := uuids t; calls := calls t |}.

Definition log (c : call) (t : Tree) : Tree :=
  {| props := props t; state := state t; internalState := internalState t;
     uuids := uuids t; calls := calls t ++ [c] |}.

Definition set_orientation (o : Orientation) (p : Props) : Props := {|
  data := data p; onClick := onClick p; onMouseOver := onMouseOver p;
  onMouseOut := onMouseOut p; onUpdate := onUpdate p; orientation := o;
  translate := translate p; depthFactor := depthFactor p;
  collapsible := collapsible p; initialDepth := initialDepth p;
  zoomable := zoomable p; zoom := zoom p; scaleExtent := scaleExtent p;
  nodeSize := nodeSize p; separation := separation p
|}.

Definition set_zoom (z : Qc) (p : Props) : Props := {|
  data := data p; onClick := onClick p; onMouseOver := onMouseOver p;
  onMouseOut := onMouseOut p; onUpdate := onUpdate p; orientation := orientation p;
  translate := translate p; depthFactor := depthFactor p;
  collapsible := collapsible p; initialDepth := initialDepth p;
  zoomable := zoomable p; zoom := z; scaleExtent := scaleExtent p;
  nodeSize := nodeSize p; separation := separation p
|}.

Definition set_initialDepth (d : option Qc) (p : Props) : Props := {|
  data := data p; onClick := onClick p; onMouseOver := onMouseOver p;
  onMouseOut := onMouseOut p; onUpdate := onUpdate p; orientation := orientation p;
  translate := translate p; depthFactor := depthFactor p;
  collapsible := collapsible p; initialDepth := d;
  zoomable := zoomable p; zoom := zoom p; scaleExtent := scaleExtent p;
  nodeSize := nodeSize p; separation := separation p
|}.

Definition set_nodeSize (v : xy) (p : Props) : Props := {|
  data := data p; onClick := onClick p; onMouseOver := onMouseOver p;
  onMouseOut := onMouseOut p; onUpdate := onUpdate p; orientation := orientation p;
  translate := translate p; depthFactor := depthFactor p;
  collapsible := collapsible p; initialDepth := initialDepth p;
  zoomable := zoomable p; zoom := zoom p; scaleExtent := scaleExtent p;
  nodeSize := v; separation := separation p
|}.


(** [clone]: a deep copy.  The copy has its own objects, so it is the
    state by value. *)
Definition clone (s : State) : State := s.

(** ** Identity assignment *)

Section Component.

(** [uuid.v4()]: the n-th identifier drawn from the generator. *)
Variable uuid_v4 : nat -> string.

(** The store together with the number of identifiers drawn so far. *)
Record world : Type := World {
  objs : heap;
  drawn : nat
}.

(** The callback of [data.map] in [assignInternalProperties].  The node
    object is entered in the store when it is visited; while its children
    are being assigned its [children] field (still the raw array) is not
    read, and it is written with the assigned list afterwards. *)
Fixpoint assignNode (r : RawNode) (w : world) : loc * world :=
  match r with
  | Raw nm attrs ch =>
    let l := fresh (dom (objs w)) in
    (* node.id = uuid.v4(); node._collapsed = false; *)
    let n0 := Node (uuid_v4 (drawn w)) nm attrs false
                   (match ch with Some [] => Some [] | _ => None end)
                   None None None None None in
    let w0 := World (<[l := n0]> (objs w)) (S (drawn w)) in
    match ch with
    | Some (c :: cs) =>
      (* node.children = this.assignInternalProperties(node.children);
         node._children = node.children; *)
      let '(ls, w1) := mapS assignNode (c :: cs) w0 in
      (l, World (<[l := set__children (Some ls) (set_children (Some ls) n0)]> (objs w1))
                (drawn w1))
    | _ => (l, w0)
    end
  end.

(** [assignInternalProperties(data)] *)
Definition assignInternalProperties (data : list RawNode) (w : world)
  : list loc * world :=
  mapS assignNode data w.

(** ** Lookup by identifier *)

(** [findNodesById(nodeId, nodeSet, hits)].  The recursion follows
    [_children] through the store, so it is bounded by [fuel]. *)
Fixpoint findNodesById_fuel (fuel : nat) (h : heap) (nodeId : string)
    (nodeSet hits : list loc) : res (list loc) :=
  match fuel with
  | O => Throw Stuck
  | S fuel' =>
    if bool_decide (0 < length hits) then Ok hits
    else
      let hits := hits ++ filter (fun l => id <$> h !! l = Some nodeId) nodeSet in
      forEach (fun l hits =>
                 n ← get h l;
                 if nonempty (_children n)
                 then findNodesById_fuel fuel' h nodeId (entries (_children n)) hits
                 else Ok hits)
              nodeSet hits
  end.

(** No branch of a store is longer than the store has objects. *)
Definition findNodesById (h : heap) (nodeId : string) (nodeSet hits : list loc)
  : res (list loc) :=
  findNodesById_fuel (S (size h)) h nodeId nodeSet hits.

(** ** Collapse and expand *)

(** [collapseNode(node)], bounded by [fuel] like the lookup. *)
Fixpoint collapseNode_fuel (fuel : nat) (l : loc) (h : heap) : res heap :=
  match fuel with
  | O => Throw Stuck
  | S fuel' =>
    n ← get h l;
    let h1 := <[l := set_collapsed true n]> h in
    if nonempty (_children n)
    then forEach (collapseNode_fuel fuel') (entries (_children n)) h1
    else Ok h1
  end.

Definition collapseNode (l : loc) (h : heap) : res heap :=
  collapseNode_fuel (S (size h)) l h.

(** [expandNode(node)] *)
Definition expandNode (l : loc) (h : heap) : res heap :=
  n ← get h l;
  Ok (<[l := set_collapsed false n]> h).

(** ** The component's methods *)

(** [constructor(props)] *)
Definition constructor (p : Props) : Tree :=
  let '(ls, w) := assignInternalProperties (data p) (World ∅ 0) in
  {| props := p;
     state := {| state_data := ls; objects := objs w |};
     internalState := {| initialRender := true; targetNode := None;
                         d3 := {| d3_translate := translate p; d3_scale := zoom p |} |};
     uuids := drawn w;
     calls := [] |}.

(** [calculateD3Geometry(nextProps)]: the initial zoom, limited to
    [scaleExtent]. *)
Definition calculateD3Geometry (nextProps : Props) : geometry :=
  let scale :=
    if decide (max (scaleExtent nextProps) < zoom nextProps)%Qc
    then max (scaleExtent nextProps)
    else if decide (zoom nextProps < min (scaleExtent nextProps))%Qc
         then min (scaleExtent nextProps)
         else zoom nextProps in
  {| d3_translate := translate nextProps; d3_scale := scale |}.

(** [componentWillMount()] *)
Definition componentWillMount (t : Tree) : Tree :=
  set_internalState
    {| initialRender := initialRender (internalState t);
       targetNode := targetNode (internalState t);
       d3 := calculateD3Geometry (props t) |} t.

(** [componentDidMount()]; binding the zoom listener touches the DOM only. *)
Definition componentDidMount (t : Tree) : Tree :=
  set_internalState
    {| initialRender := false;
       targetNode := targetNode (internalState t);
       d3 := d3 (internalState t) |} t.

(** [componentDidUpdate()] *)
Definition componentDidUpdate (t : Tree) : Tree :=
  if onUpdate (props t) then
    let i := internalState t in
    set_internalState
      {| initialRender := initialRender i; targetNode := None; d3 := d3 i |}
      (log (call_onUpdate (targetNode i) (objects (state t))
                          (d3_scale (d3 i)) (d3_translate (d3 i))) t)
  else t.

(** [componentWillReceiveProps(nextProps)]; [fresh_data] tells whether
    [nextProps.data] is another array than [this.props.data]. *)
Definition componentWillReceiveProps (nextProps : Props) (fresh_data : bool) (t : Tree)
  : Tree :=
  let t :=
    if fresh_data then
      let '(ls, w) := assignInternalProperties (data nextProps) (World ∅ (uuids t)) in
      {| props := props t;
         state := {| state_data := ls; objects := objs w |};
         internalState := internalState t;
         uuids := drawn w;
         calls := calls t |}
    else t in
  set_props nextProps
    (set_internalState
       {| initialRender := initialRender (internalState t);
          targetNode := targetNode (internalState t);
          d3 := calculateD3Geometry nextProps |} t).

(** [setInitialTreeDepth(nodeSet, initialDepth)] *)
Definition setInitialTreeDepth (nodeSet : list loc) (initialDepth : Qc) (h : heap)
  : res heap :=
  forEach (fun l h =>
             n ← get h l;
             Ok (<[l := set_collapsed
                          (match depth n with
                           | Some d => bool_decide (initialDepth <= Qc_of_nat d)%Qc
                           | None => false
                           end) n]> h))
          nodeSet h.

(** [handleOnClickCb(targetNode, evt)] *)
Definition handleOnClickCb (target : option loc) (evt : event) (t : Tree) : Tree :=
  if onClick (props t)
  then log (call_onClick target (objects (state t)) evt) t
  else t.

(** [handleNodeToggle(nodeId, evt)].  [matches[0]] is [undefined] when the
    lookup found nothing, and reading [_collapsed] of it raises.  The state
    handed to [setState] is committed before the callback runs. *)
Definition handleNodeToggle (nodeId : string) (evt : event) (t : Tree) : res Tree :=
  let data := clone (state t) in
  matches ← findNodesById (objects data) nodeId (state_data data) [];
  let target := head matches in
  if collapsible (props t) then
    match target with
    | None => Throw TypeError
    | Some l =>
      n ← get (objects data) l;
      h ← (if _collapsed n then expandNode l (objects data)
           else collapseNode l (objects data));
      let t := setState {| state_data := state_data data; objects := h |} t in
      let t := handleOnClickCb target evt t in
      Ok (set_internalState
            {| initialRender := initialRender (internalState t);
               targetNode := target;
               d3 := d3 (internalState t) |} t)
    end
  else Ok (handleOnClickCb target evt t).

(** [handleOnMouseOverCb(nodeId, evt)] *)
Definition handleOnMouseOverCb (nodeId : string) (evt : event) (t : Tree) : res Tree :=
  if onMouseOver (props t) then
    let data := clone (state t) in
    matches ← findNodesById (objects data) nodeId (state_data data) [];
    Ok (log (call_onMouseOver (head matches) (objects data) evt) t)
  else Ok t.

(** [handleOnMouseOutCb(nodeId, evt)] *)
Definition handleOnMouseOutCb (nodeId : string) (evt : event) (t : Tree) : res Tree :=
  if onMouseOut (props t) then
    let data := clone (state t) in
    matches ← findNodesById (objects data) nodeId (state_data data) [];
    Ok (log (call_onMouseOut (head matches) (objects data) evt) t)
  else Ok t.

(** ** The layout pass *)

(** [{nodes, links}]: references into the committed state. *)
Record LayoutResult : Type := {
  nodes : list loc;
  links : list (loc * loc)
}.

(** The argument of [.nodeSize(...)]. *)
Definition layoutSize (p : Props) : Qc * Qc :=
  match orientation p with
  | horizontal => (xy_y (nodeSize p), xy_x (nodeSize p))
  | vertical => (xy_x (nodeSize p), xy_y (nodeSize p))
  end.

(** The argument of [.separation(...)]:
    [(a, b) => a.parent.id === b.parent.id ? siblings : nonSiblings]. *)
Definition separationFn (p : Props) (h : heap) (a b : loc) : res Qc :=
  na ← get h a;
  nb ← get h b;
  pa ← from_option (get h) (Throw TypeError) (parent na);
  pb ← from_option (get h) (Throw TypeError) (parent nb);
  Ok (if decide (id pa = id pb)
      then siblings (separation p)
      else nonSiblings (separation p)).

(** The argument of [.children(...)]: [d => d._collapsed ? null : d._children]. *)
Definition childrenFn (d : node) : option (list loc) :=
  if _collapsed d then None else _children d.

(** [generateTree()] *)
Definition generateTree (t : Tree) : res (LayoutResult * Tree) :=
  let p := props t in
  rootNode ← from_option Ok (Throw TypeError) (head (state_data (state t)));
  '(ns, h) ← D3.nodes (layoutSize p) (separationFn p) childrenFn rootNode
                      (objects (state t));
  ls ← D3.links ns h;
  h ← match initialDepth p with
      | Some d =>
        if initialRender (internalState t) then setInitialTreeDepth ns d h else Ok h
      | None => Ok h
      end;
  h ← match depthFactor p with
      | Some f =>
        if decide (f = 0%Qc) then Ok h
        else forEach (fun l h =>
                        n ← get h l;
                        Ok (<[l := set_y ((fun d => Qc_of_nat d * f)%Qc <$> depth n) n]> h))
                     ns h
      | None => Ok h
      end;
  Ok ({| nodes := ns; links := ls |},
      setState {| state_data := state_data (state t); objects := h |} t).

(** [render()]: the lists handed to the node and link renderers and the
    transform of the group. *)
Definition render (t : Tree) : res (LayoutResult * geometry * Tree) :=
  '(r, t) ← generateTree t;
  Ok (r, d3 (internalState t), t).

(** Mounting: constructor, [componentWillMount], the first render,
    [componentDidMount]. *)
Definition mount (p : Props) : res (LayoutResult * geometry * Tree) :=
  '(r, g, t) ← render (componentWillMount (constructor p));
  Ok (r, g, componentDidMount t).

(** A later pass: render, then [componentDidUpdate]. *)
Definition update (t : Tree) : res (LayoutResult * geometry * Tree) :=
  '(r, g, t) ← render t;
  Ok (r, g, componentDidUpdate t).

End Component.

(** * Specification

    The predicates and functions the statements below are written with. *)

(** ** Trees in the store *)

(** [shaped h s]: following [_children] from the root of [s] in the store
    [h] one finds the tree [s]; an absent child list and an empty one both
    end a branch, as the guards of the component read them. *)
#[warning="-register-all"]
Inductive shaped (h : gmap nat node) : shape -> Prop :=
  | shaped_Sh l n ks :
      h !! l = Some n ->
      entries (_children n) = map sroot ks ->
      Forall (shaped h) ks ->
      shaped h (Sh l ks).

(** The subtrees below the root of a shape. *)
Definition kids (s : shape) : list shape := match s with Sh _ ks => ks end.

(** All subtrees of a shape, the shape itself first. *)
Fixpoint subshapes (s : shape) : list shape :=
  match s with Sh _ ks => s :: flat_map subshapes ks end.

(** The height and the references of a list of trees. *)
Definition fheight (ts : list shape) : nat := foldr Nat.max 0 (map height ts).
Definition flocs (ts : list shape) : list nat := flat_map slocs ts.

(** [child h p c]: [c] is an entry of [p._children]. *)
Definition child (h : gmap nat node) (p c : nat) : Prop :=
  exists n, h !! p = Some n /\ c ∈ entries (_children n).

(** [descendant h n d]: [d] is [n] or is reached from [n] through
    [_children]. *)
Definition descendant (h : gmap nat node) : nat -> nat -> Prop := rtc (child h).

(** The nodes of the tree: what is reached from the entries of
    [this.state.data]. *)
Definition reachable (h : gmap nat node) (roots : list nat) (l : nat) : Prop :=
  exists r, r ∈ roots /\ descendant h r l.

(** The invariant of the committed state: the objects reached from the
    roots through [_children] form finite trees that share no node. *)
Definition tree_inv (h : gmap nat node) (roots : list nat) : Prop :=
  exists ts, roots = map sroot ts /\ Forall (shaped h) ts /\ NoDup (flocs ts).

(** Identifiers are unique among the nodes [ls]. *)
Definition unique_ids (h : gmap nat node) (ls : list nat) : Prop :=
  forall l1 l2 n1 n2, l1 ∈ ls -> l2 ∈ ls ->
    h !! l1 = Some n1 -> h !! l2 = Some n2 -> id n1 = id n2 -> l1 = l2.

(** ** What the lookup and the collapse compute *)

(** The nodes of [ls] that carry the identifier: the [filter] of
    [findNodesById]. *)
Definition matching (h : gmap nat node) (nodeId : string) (ls : list nat) : list nat :=
  filter (fun l => id <$> h !! l = Some nodeId) ls.

(** What an accumulator of hits becomes when a search adds [r]: hits stay
    once there are some. *)
Definition keep (acc r : list nat) : list nat :=
  match acc with [] => r | _ => acc end.

(** The first result that is not empty. *)
Definition first_hits (rs : list (list nat)) : list nat :=
  foldl (fun acc r => match acc with [] => r | _ => acc end) [] rs.

(** What [findNodesById] finds below the root of [s] when it starts
    without hits: the matches among the children, or else the hits of the
    first child that has any below it. *)
Fixpoint ssearch (h : gmap nat node) (nodeId : string) (s : shape) : list nat :=
  match s with
  | Sh _ ks =>
    match matching h nodeId (map sroot ks) with
    | [] => first_hits (map (ssearch h nodeId) ks)
    | m => m
    end
  end.

(** The store after [_collapsed = true] was written to the nodes [ls]. *)
Definition collapse_all (ls : list nat) (h : gmap nat node) : gmap nat node :=
  foldl (fun h l => alter (set_collapsed true) l h) h ls.

(** ** What identity assignment leaves behind *)

(** The number of nodes of a raw tree. *)
Fixpoint rsize (r : RawNode) : nat :=
  match r with
  | Raw _ _ ch =>
    S (match ch with
       | Some cs => foldr (fun c acc => rsize c + acc) 0 cs
       | None => 0
       end)
  end.

(** The number of nodes of a raw input. *)
Definition fsize (rs : list RawNode) : nat := foldr (fun c acc => rsize c + acc) 0 rs.

(** [assigned h s r]: in the store [h] the tree [s] of node objects is the
    raw tree [r] with internal properties: every object has the name and
    attributes of its raw node, [_collapsed = false] and no layout fields;
    a node with children has the list of its children's objects in both
    [children] and [_children]; a node without has no [_children] and the
    [children] it came with. *)
#[warning="-register-all"]
Inductive assigned (h : gmap nat node) : shape -> RawNode -> Prop :=
  | assigned_node l n ks nm at' ch :
      h !! l = Some n ->
      name n = nm -> attributes n = at' -> _collapsed n = false ->
      parent n = None -> depth n = None -> x n = None -> y n = None ->
      children n = match ch with
                   | Some [] => Some []
                   | Some (_ :: _) => Some (map sroot ks)
                   | None => None
                   end ->
      _children n = match ch with
                    | Some (_ :: _) => Some (map sroot ks)
                    | _ => None
                    end ->
      Forall2 (assigned h) ks (default [] ch) ->
      assigned h (Sh l ks) (Raw nm at' ch).

(** The identifier of the object behind a reference. *)
Definition id_of (h : gmap nat node) (l : nat) : option string := id <$> h !! l.

(** What an assignment that starts in the world [w] and ends in [w'] does
    to the store: the objects [ls] are new and distinct, every other object
    is untouched, and the new objects carry the next [k] identifiers of the
    generator in the order of [ls]. *)
Definition assign_frame (uuid_v4 : nat -> string) (w w' : world)
    (ls : list nat) (k : nat) : Prop :=
  NoDup ls /\
  (forall l, l ∈ ls -> objs w !! l = None) /\
  (forall l, l ∉ ls -> objs w' !! l = objs w !! l) /\
  drawn w' = drawn w + k /\
  map (id_of (objs w')) ls = map (fun i => Some (uuid_v4 i)) (seq (drawn w) k).

(** Two stores with the same skeleton: the same objects with the same
    identifiers and the same [_children]; flags and layout fields are free. *)
Definition same_skeleton (h0 h : gmap nat node) : Prop :=
  forall l, (fun n => (id n, _children n)) <$> h !! l
            = (fun n => (id n, _children n)) <$> h0 !! l.

(** ** Reading a layout result *)

(** The depth and the off-axis position ([x], the axis the layout spreads
    siblings along) of a laid-out node. *)
Definition depth_offaxis (h : gmap nat node) (l : nat) : option nat * option Qc :=
  match h !! l with
  | Some n => (depth n, x n)
  | None => (None, None)
  end.

(** The [{depth, off-axis position}] pairs of the nodes of a pass. *)
Definition layout_pairs (o : res (LayoutResult * Tree))
  : res (list (option nat * option Qc)) :=
  '(r, t) ← o; Ok (map (depth_offaxis (objects (state t))) (nodes r)).

(** All a pass leaves behind but the props: the lists and the state. *)
Definition layout_view (o : res (LayoutResult * Tree)) : res (LayoutResult * State) :=
  '(r, t) ← o; Ok (r, state t).

(** The identifier of the parent the layout recorded for a node. *)
Definition parent_id (h : gmap nat node) (l : nat) : option string :=
  n ← h !! l; p ← parent n; id <$> h !! p.

(** The off-axis position of a node. *)
Definition xpos (h : gmap nat node) (l : nat) : option Qc :=
  n ← h !! l; x n.

(** ** Sample inputs *)

Definition leaf (nm : string) : RawNode := Raw nm [] None.

(** [[{name: "root", children: [{name: "a"}, {name: "b"}]}]] *)
Definition sample_data : list RawNode :=
  [Raw "root" [] (Some [leaf "a"; leaf "b"])].

(** [[{name: "root", children: [{name: "a", children: [{name: "b"}]}]}]] *)
Definition chain_data : list RawNode :=
  [Raw "root" [] (Some [Raw "a" [] (Some [leaf "b"])])].


(** Two leaves between two families of four:
    [root -> (A -> a1..a4, w, v, B -> b1..b4)]. *)
Definition spread_data : list RawNode :=
  [Raw "root" []
     (Some [Raw "A" [] (Some [leaf "a1"; leaf "a2"; leaf "a3"; leaf "a4"]);
            leaf "w"; leaf "v";
            Raw "B" [] (Some [leaf "b1"; leaf "b2"; leaf "b3"; leaf "b4"])])].

(** A generator that never repeats: the n-th identifier is the decimal
    numeral of n. *)
Definition sample_uuid (n : nat) : string := pretty n.

(** The component built from [sample_data] with the default props. *)
Definition sample_tree : Tree := constructor sample_uuid (defaultProps sample_data).


(** ** Fields a method leaves alone *)

(** [same_on f h h']: the stores [h] and [h'] hold the same objects and
    [f] reads the same from each of them. *)
Definition same_on {A : Type} (f : node -> A) (h h' : gmap nat node) : Prop :=
  forall l, f <$> h' !! l = f <$> h !! l.

(** [f] does not read the fields the layout writes. *)
Definition layout_blind {A : Type} (f : node -> A) : Prop :=
  (forall v n, f (set_children v n) = f n) /\
  (forall v n, f (set_parent v n) = f n) /\
  (forall v n, f (set_depth v n) = f n) /\
  (forall v n, f (set_x v n) = f n) /\
  (forall v n, f (set_y v n) = f n).

(** [f] does not read the positions [x] and [y]. *)
Definition position_blind {A : Type} (f : node -> A) : Prop :=
  (forall v n, f (set_x v n) = f n) /\ (forall v n, f (set_y v n) = f n).

(** [f] does not read [_collapsed]. *)
Definition flag_blind {A : Type} (f : node -> A) : Prop :=
  forall b n, f (set_collapsed b n) = f n.

(** What a node is apart from its collapse state and its layout. *)
Definition node_data (n : node)
  : string * string * list (string * string) * option (list nat) :=
  (id n, name n, attributes n, _children n).

(** A node without its layout fields. *)
Definition unlaid (n : node) : node :=
  Node (id n) (name n) (attributes n) (_collapsed n) None (_children n)
       None None None None.

(** What [setInitialTreeDepth] writes back for a node:
    [n._collapsed = n.depth >= initialDepth]. *)
Definition truncate (initialDepth : Qc) (n : node) : node :=
  set_collapsed (match depth n with
                 | Some d => bool_decide (initialDepth <= Qc_of_nat d)%Qc
                 | None => false
                 end) n.

(** The distance between two levels of the tree along the depth axis:
    [depthFactor] when it is set and not zero, otherwise the second
    component of the node size handed to the layout. *)
Definition depthStep (p : Props) : Qc :=
  match depthFactor p with
  | Some f => if decide (f = 0%Qc) then (layoutSize p).2 else f
  | None => (layoutSize p).2
  end.

(** ** The life of a component *)

(** One step in the life of a constructed component: a lifecycle method
    or a handler that returns. *)
Inductive step (uuid_v4 : nat -> string) : Tree -> Tree -> Prop :=
  | step_componentWillMount t :
      step uuid_v4 t (componentWillMount t)
  | step_render t r g t' :
      render t = Ok (r, g, t') -> step uuid_v4 t t'
  | step_componentDidMount t :
      step uuid_v4 t (componentDidMount t)
  | step_componentDidUpdate t :
      step uuid_v4 t (componentDidUpdate t)
  | step_componentWillReceiveProps nextProps fresh_data t :
      step uuid_v4 t (componentWillReceiveProps uuid_v4 nextProps fresh_data t)
  | step_handleNodeToggle nodeId evt t t' :
      handleNodeToggle nodeId evt t = Ok t' -> step uuid_v4 t t'
  | step_handleOnMouseOverCb nodeId evt t t' :
      handleOnMouseOverCb nodeId evt t = Ok t' -> step uuid_v4 t t'
  | step_handleOnMouseOutCb nodeId evt t t' :
      handleOnMouseOutCb nodeId evt t = Ok t' -> step uuid_v4 t t'.

(** What every state in the life of a component satisfies: the tree
    invariant, identifiers that are unique in the tree, and identifiers that
    were all drawn from the generator before. *)
Definition component_inv (uuid_v4 : nat -> string) (t : Tree) : Prop :=
  exists ts,
    state_data (state t) = map sroot ts /\
    Forall (shaped (objects (state t))) ts /\
    NoDup (flocs ts) /\
    unique_ids (objects (state t)) (flocs ts) /\
    (forall l, l ∈ flocs ts ->
       exists k, k < uuids t /\ id_of (objects (state t)) l = Some (uuid_v4 k)).

(** ** What the layout shows *)

(** [shown h p c]: the layout's children accessor yields [c] for the node
    [p]: [p] is not collapsed and [c] is one of its [_children]. *)
Definition shown (h : gmap nat node) (p c : nat) : Prop :=
  exists n, h !! p = Some n /\ c ∈ entries (childrenFn n).

(** [visible h r d]: [d] is [r] or is reached from [r] through nodes that
    are not collapsed. *)
Definition visible (h : gmap nat node) : nat -> nat -> Prop := rtc (shown h).

(** What the layout leaves in the [children] field of a node. *)
Definition shown_children (n : node) : option (list nat) :=
  if nonempty (childrenFn n) then childrenFn n else None.

(** [children_set h h' d]: in [h'] the [children] field of [d] is what the
    layout leaves there for the node [d] of [h]. *)
Definition children_set (h h' : gmap nat node) (d : nat) : Prop :=
  children <$> h' !! d = shown_children <$> h !! d.

(** From [h] to [h'] the children accessor yields the same everywhere, and
    every [children] field is as it was or was set by the layout. *)
Definition children_kept_or_set (h h' : gmap nat node) : Prop :=
  same_on childrenFn h h' /\
  forall d, children <$> h' !! d = children <$> h !! d \/ children_set h h' d.

(** ** Parents in a tree *)

(** The parent-child pairs of a tree and of a list of trees. *)
Fixpoint edges (s : shape) : list (nat * nat) :=
  match s with
  | Sh l ks => map (fun k => (l, sroot k)) ks ++ flat_map edges ks
  end.

Definition fedges (ts : list shape) : list (nat * nat) := flat_map edges ts.

(** * Verification *)

(** ** Induction on trees *)

Lemma shape_ind' (P : shape -> Prop) :
  (forall l ks, Forall P ks -> P (Sh l ks)) -> forall s, P s.
Proof.
  intros IH. fix rec 1. intros [l ks]. apply IH.
  induction ks as [|k ks IHks]; constructor; [apply rec | exact IHks].
Qed.

Lemma RawNode_ind' (P : RawNode -> Prop) :
  (forall nm at' ch, Forall P (default [] ch) -> P (Raw nm at' ch)) -> forall r, P r.
Proof.
  intros IH. fix rec 1. intros [nm at' ch]. apply IH.
  destruct ch as [cs|]; simpl; [|constructor].
  induction cs as [|c cs IHcs]; constructor; [apply rec | exact IHcs].
Qed.

Lemma elem_of_flat_map {A B} (f : A -> list B) (xs : list A) (b : B) :
  b ∈ flat_map f xs <-> exists a, a ∈ xs /\ b ∈ f a.
Proof.
  rewrite list_elem_of_In, in_flat_map.
  split; intros (a & H1 & H2); exists a; by rewrite ?list_elem_of_In in *.
Qed.

Lemma get_Some (h : gmap nat node) l n : h !! l = Some n -> get h l = Ok n.
Proof. unfold get. by intros ->. Qed.

Lemma nonempty_entries a : nonempty a = true <-> entries a <> [].
Proof. destruct a as [[|]|]; simpl; split; congruence. Qed.

Lemma nonempty_false_entries a : nonempty a = false -> entries a = [].
Proof. destruct a as [[|]|]; simpl; congruence. Qed.

Lemma shaped_inv h l ks :
  shaped h (Sh l ks) ->
  exists n, h !! l = Some n /\ entries (_children n) = map sroot ks /\ Forall (shaped h) ks.
Proof. inversion 1; subst; eauto. Qed.

Lemma shaped_ext h h' s :
  (forall l, l ∈ slocs s -> _children <$> h' !! l = _children <$> h !! l) ->
  shaped h s -> shaped h' s.
Proof.
  induction s as [l ks IH] using shape_ind'. intros Hag Hs.
  apply shaped_inv in Hs as (n & Hl & Hk & Hks).
  pose proof (Hag l ltac:(simpl; left)) as Hl'. rewrite Hl in Hl'. simpl in Hl'.
  destruct (h' !! l) as [n'|] eqn:E; [|discriminate]. simpl in Hl'.
  econstructor; [exact E| congruence |].
  rewrite Forall_forall in IH, Hks. apply Forall_forall. intros k Hin.
  apply IH; [done| |by apply Hks].
  intros l0 Hl0. apply Hag. simpl. right. apply elem_of_flat_map. eauto.
Qed.

Lemma shaped_lookup h s l : shaped h s -> l ∈ slocs s -> is_Some (h !! l).
Proof.
  induction s as [l0 ks IH] using shape_ind'. intros Hs Hin.
  apply shaped_inv in Hs as (n & Hl & Hk & Hks).
  simpl in Hin. apply elem_of_cons in Hin as [->|Hin]; [eauto|].
  apply elem_of_flat_map in Hin as (k & Hk1 & Hk2).
  rewrite Forall_forall in IH, Hks. eauto.
Qed.

Lemma height_le_length s : height s <= length (slocs s).
Proof.
  induction s as [l ks IH] using shape_ind'. simpl. apply le_n_S.
  induction IH as [|k ks Hk _ IHks]; simpl; [lia|].
  rewrite length_app. lia.
Qed.

Lemma fheight_le_length ts : fheight ts <= length (flocs ts).
Proof.
  unfold fheight, flocs. induction ts as [|t ts IH]; simpl; [lia|].
  rewrite length_app. pose proof (height_le_length t). lia.
Qed.

Lemma NoDup_length_le_size (h : gmap nat node) (ls : list nat) :
  NoDup ls -> (forall l, l ∈ ls -> is_Some (h !! l)) -> length ls <= size h.
Proof.
  intros Hnd Hin. rewrite <- size_dom, <- (size_list_to_set (C:=gset nat) ls) by done.
  apply subseteq_size. intros l Hl. apply elem_of_dom, Hin.
  by apply elem_of_list_to_set in Hl.
Qed.

Lemma fuel_enough h ts :
  Forall (shaped h) ts -> NoDup (flocs ts) -> fheight ts < S (size h).
Proof.
  intros Hs Hnd. pose proof (fheight_le_length ts).
  enough (length (flocs ts) <= size h) by lia.
  apply NoDup_length_le_size; [done|]. intros l Hl.
  apply elem_of_flat_map in Hl as (t & Ht1 & Ht2).
  rewrite Forall_forall in Hs. eapply shaped_lookup; eauto.
Qed.

(** ** Lookup by identifier *)

Lemma findNodesById_fuel_hits fuel h nodeId nodeSet hits :
  hits <> [] -> findNodesById_fuel (S fuel) h nodeId nodeSet hits = Ok hits.
Proof.
  intros Hh. simpl. rewrite bool_decide_eq_true_2; [done|].
  destruct hits; [done|simpl; lia].
Qed.


Lemma findNodesById_fuel_spec fuel h nodeId ts hits :
  Forall (shaped h) ts -> fheight ts < fuel ->
  findNodesById_fuel fuel h nodeId (map sroot ts) hits
  = Ok (keep hits (ssearch h nodeId (Sh 0 ts))).
Proof.
  revert ts hits. induction fuel as [|fuel IH]; intros ts hits Hs Hf; [lia|].
  destruct hits as [|x hits].
  2:{ by rewrite findNodesById_fuel_hits. }
  cbn [findNodesById_fuel length]. rewrite bool_decide_eq_false_2 by lia.
  rewrite app_nil_l. cbn [keep ssearch]. fold (matching h nodeId (map sroot ts)).
  assert (forall acc,
    forEach (fun l hits => n ← get h l;
               if nonempty (_children n)
               then findNodesById_fuel fuel h nodeId (entries (_children n)) hits
               else Ok hits) (map sroot ts) acc
    = Ok (foldl keep acc (map (ssearch h nodeId) ts))) as Hloop.
  { clear -IH Hs Hf. induction ts as [|t ts IHts]; intros acc; [done|].
    apply Forall_cons in Hs as [Ht Hs].
    assert (height t < S fuel /\ fheight ts < S fuel) as [Hf1 Hf2].
    { unfold fheight in *. simpl in Hf. lia. }
    destruct t as [l ks]. apply shaped_inv in Ht as (n & Hl & Hk & Hks).
    cbn [map forEach sroot]. rewrite (get_Some _ _ _ Hl). cbn [mbind res_bind].
    assert ((if nonempty (_children n)
             then findNodesById_fuel fuel h nodeId (entries (_children n)) acc
             else Ok acc) = Ok (keep acc (ssearch h nodeId (Sh l ks)))) as ->.
    { destruct (nonempty (_children n)) eqn:E.
      - rewrite Hk. rewrite IH; [done|done|]. simpl in Hf1. unfold fheight. lia.
      - apply nonempty_false_entries in E. rewrite E in Hk.
        destruct ks; [|done]. simpl. by destruct acc. }
    cbn [mbind res_bind]. rewrite IHts by done. done. }
  rewrite Hloop. f_equal.
  destruct (matching h nodeId (map sroot ts)) as [|m ms] eqn:E.
  - done.
  - generalize (map (ssearch h nodeId) ts). intros rs. by induction rs.
Qed.


Lemma sroot_in_slocs s : sroot s ∈ slocs s.
Proof. destruct s; simpl; left. Qed.

Lemma roots_in_flocs ts l : l ∈ map sroot ts -> l ∈ flocs ts.
Proof.
  intros Hl. apply list_elem_of_fmap in Hl as (t & -> & Ht).
  apply elem_of_flat_map. exists t. split; [done|apply sroot_in_slocs].
Qed.

Lemma NoDup_roots ts : NoDup (flocs ts) -> NoDup (map sroot ts).
Proof.
  unfold flocs. induction ts as [|t ts IH]; simpl; [constructor|].
  intros (H1 & H2 & H3)%NoDup_app. constructor; [|by apply IH].
  intros Hin. apply (H2 (sroot t)); [apply sroot_in_slocs|by apply roots_in_flocs].
Qed.

Lemma NoDup_kids l ks : NoDup (slocs (Sh l ks)) -> NoDup (flocs ks).
Proof. simpl. by intros [_ ?]%NoDup_cons. Qed.

Lemma NoDup_flocs_elem ts t : NoDup (flocs ts) -> t ∈ ts -> NoDup (slocs t).
Proof.
  unfold flocs. induction ts as [|t0 ts IH]; simpl; [by intros _ ?%elem_of_nil|].
  intros (H1 & H2 & H3)%NoDup_app [->|Hin]%elem_of_cons; auto.
Qed.

Lemma foldl_keep_cons x acc (rs : list (list nat)) :
  foldl (fun acc r => match acc with [] => r | _ => acc end) (x :: acc) rs = x :: acc.
Proof. induction rs; simpl; auto. Qed.

Lemma first_hits_cases (rs : list (list nat)) :
  first_hits rs = [] \/ first_hits rs ∈ rs.
Proof.
  unfold first_hits. induction rs as [|r rs IH]; [by left|].
  simpl. destruct r as [|x r].
  - destruct IH as [IH|IH]; [by left|right; by right].
  - right. rewrite foldl_keep_cons. left.
Qed.

Lemma first_hits_nonempty (rs : list (list nat)) r :
  r ∈ rs -> r <> [] -> first_hits rs <> [].
Proof.
  unfold first_hits. induction rs as [|r0 rs IH]; [by intros ?%elem_of_nil|].
  intros [->|Hin]%elem_of_cons Hne; simpl.
  - destruct r0; [done|]. by rewrite foldl_keep_cons.
  - destruct r0; [by apply IH|]. by rewrite foldl_keep_cons.
Qed.

Lemma ssearch_elem h nodeId s x :
  x ∈ ssearch h nodeId s ->
  x ∈ flocs (kids s) /\ id <$> h !! x = Some nodeId.
Proof.
  revert x. induction s as [l ks IH] using shape_ind'. intros x. simpl.
  destruct (matching h nodeId (map sroot ks)) as [|m ms] eqn:E.
  - intros Hx. destruct (first_hits_cases (map (ssearch h nodeId) ks)) as [H0|Hin].
    { rewrite H0 in Hx. by apply elem_of_nil in Hx. }
    apply list_elem_of_fmap in Hin as (k & Hk & Hkin).
    rewrite Forall_forall in IH. rewrite Hk in Hx.
    apply IH in Hx as [Hx1 Hx2]; [|done]. split; [|done].
    apply elem_of_flat_map. exists k. split; [done|].
    destruct k as [lk kk]. simpl. by right.
  - rewrite <- E. unfold matching. intros [Hid Hx]%list_elem_of_filter.
    split; [by apply roots_in_flocs|done].
Qed.

Lemma ssearch_found h nodeId s x :
  x ∈ flocs (kids s) -> id <$> h !! x = Some nodeId -> ssearch h nodeId s <> [].
Proof.
  revert x. induction s as [l0 ks0 IH] using shape_ind'. intros x Hx Hid. simpl in *.
  destruct (matching h nodeId (map sroot ks0)) as [|m ms] eqn:E; [|done].
  apply elem_of_flat_map in Hx as (k & Hk & Hxk).
  rewrite Forall_forall in IH.
  apply (first_hits_nonempty _ (ssearch h nodeId k)).
  { apply list_elem_of_fmap. eauto. }
  destruct k as [lk kk]. simpl in Hxk. apply elem_of_cons in Hxk as [->|Hxk].
  - exfalso. assert (lk ∈ matching h nodeId (map sroot ks0)) as Hm.
    { apply list_elem_of_filter. split; [done|].
      apply list_elem_of_fmap. by exists (Sh lk kk). }
    rewrite E in Hm. by apply elem_of_nil in Hm.
  - eapply (IH _ Hk); eauto.
Qed.

Lemma ssearch_NoDup h nodeId s :
  NoDup (flocs (kids s)) -> NoDup (ssearch h nodeId s).
Proof.
  induction s as [l0 ks0 IH] using shape_ind'. intros Hnd. simpl in *.
  destruct (matching h nodeId (map sroot ks0)) as [|m ms] eqn:E.
  - destruct (first_hits_cases (map (ssearch h nodeId) ks0)) as [->|Hin]; [constructor|].
    apply list_elem_of_fmap in Hin as (k & -> & Hk).
    rewrite Forall_forall in IH. destruct k as [lk kk].
    apply (IH _ Hk). eapply NoDup_kids, NoDup_flocs_elem; eauto.
  - rewrite <- E. apply NoDup_filter, NoDup_roots, Hnd.
Qed.


Lemma NoDup_all_eq (ls : list nat) x :
  NoDup ls -> ls <> [] -> (forall y, y ∈ ls -> y = x) -> ls = [x].
Proof.
  intros Hnd Hne Hall. destruct ls as [|a ls]; [done|].
  assert (a = x) as -> by (apply Hall; left).
  destruct ls as [|b ls]; [done|].
  assert (b = x) as -> by (apply Hall; right; left).
  apply NoDup_cons in Hnd as [Hn _]. exfalso. apply Hn. left.
Qed.

Lemma ssearch_unique h nodeId ts l n :
  NoDup (flocs ts) -> unique_ids h (flocs ts) ->
  l ∈ flocs ts -> h !! l = Some n -> id n = nodeId ->
  ssearch h nodeId (Sh 0 ts) = [l].
Proof.
  intros Hnd Hu Hl Hn Hid. apply NoDup_all_eq.
  - by apply ssearch_NoDup.
  - eapply ssearch_found; [exact Hl|]. rewrite Hn; simpl; by f_equal.
  - intros y [Hy1 Hy2]%ssearch_elem.
    destruct (h !! y) as [ny|] eqn:E; [|done]. simpl in Hy2.
    eapply Hu; eauto. congruence.
Qed.

Lemma ssearch_absent h nodeId ts :
  (forall l n, l ∈ flocs ts -> h !! l = Some n -> id n <> nodeId) ->
  ssearch h nodeId (Sh 0 ts) = [].
Proof.
  intros Habs. destruct (ssearch h nodeId (Sh 0 ts)) as [|x xs] eqn:E; [done|].
  assert (x ∈ ssearch h nodeId (Sh 0 ts)) as [Hx1 Hx2]%ssearch_elem by (rewrite E; left).
  destruct (h !! x) as [nx|] eqn:Ex; [|done]. simpl in *.
  exfalso. eapply Habs; eauto. congruence.
Qed.

(** ** Subtrees and descendants *)

Lemma subshapes_self s : s ∈ subshapes s.
Proof. destruct s; simpl; left. Qed.

Lemma slocs_subshapes s : slocs s = map sroot (subshapes s).
Proof.
  induction s as [l ks IH] using shape_ind'. simpl. f_equal.
  induction IH as [|k ks Hk _ IHks]; simpl; [done|].
  by rewrite map_app, Hk, IHks.
Qed.

Lemma subshapes_spec h s s' :
  s' ∈ subshapes s -> shaped h s ->
  shaped h s' /\ (forall l, l ∈ slocs s' -> l ∈ slocs s)
  /\ (NoDup (slocs s) -> NoDup (slocs s')) /\ descendant h (sroot s) (sroot s').
Proof.
  induction s as [l ks IH] using shape_ind'. simpl.
  intros [->|Hin]%elem_of_cons Hs.
  { split_and!; [done|done|done|apply rtc_refl]. }
  apply elem_of_flat_map in Hin as (k & Hk & Hin).
  pose proof Hs as (n & Hl & Hkids & Hks)%shaped_inv.
  rewrite Forall_forall in IH, Hks.
  destruct (IH _ Hk Hin (Hks _ Hk)) as (H1 & H2 & H3 & H4).
  split_and!; [done| | |].
  - intros l0 Hl0. right. apply elem_of_flat_map. eauto.
  - intros Hnd. apply H3. eapply NoDup_flocs_elem; [|exact Hk]. by eapply NoDup_kids.
  - eapply rtc_l; [|exact H4]. exists n. split; [done|].
    rewrite Hkids. apply list_elem_of_fmap. eauto.
Qed.

Lemma shaped_descendant h s d :
  shaped h s -> descendant h (sroot s) d -> exists s', s' ∈ subshapes s /\ sroot s' = d.
Proof.
  intros Hs Hd. remember (sroot s) as r eqn:Hr. revert s Hs Hr.
  induction Hd as [x|x y z Hxy Hyz IH]; intros s Hs ->.
  { exists s. split; [apply subshapes_self|done]. }
  destruct s as [l ks]. destruct Hxy as (n & Hl & Hy). simpl in Hl.
  apply shaped_inv in Hs as (n' & Hl' & Hkids & Hks).
  assert (n' = n) as -> by congruence.
  rewrite Hkids in Hy. apply list_elem_of_fmap in Hy as (k & -> & Hk).
  rewrite Forall_forall in Hks.
  destruct (IH k (Hks _ Hk) eq_refl) as (s' & Hs' & Hroot).
  exists s'. split; [|done]. simpl. right. apply elem_of_flat_map. eauto.
Qed.

Lemma reachable_subshape h ts l :
  Forall (shaped h) ts -> reachable h (map sroot ts) l ->
  exists t s, t ∈ ts /\ s ∈ subshapes t /\ sroot s = l.
Proof.
  intros Hs (r & Hr & Hd). apply list_elem_of_fmap in Hr as (t & -> & Ht).
  rewrite Forall_forall in Hs.
  destruct (shaped_descendant h t l (Hs _ Ht) Hd) as (s & ? & ?). eauto.
Qed.

Lemma reachable_flocs h ts l :
  Forall (shaped h) ts -> reachable h (map sroot ts) l <-> l ∈ flocs ts.
Proof.
  intros Hs. split.
  - intros (t & s & Ht & Hsub & <-)%reachable_subshape; [|done].
    apply elem_of_flat_map. exists t. split; [done|].
    rewrite slocs_subshapes. apply list_elem_of_fmap. eauto.
  - intros (t & Ht & Hl)%elem_of_flat_map.
    rewrite slocs_subshapes in Hl. apply list_elem_of_fmap in Hl as (s & -> & Hsub).
    rewrite Forall_forall in Hs.
    exists (sroot t). split; [apply list_elem_of_fmap; eauto|].
    eapply subshapes_spec; eauto.
Qed.

(** A reachable node is the root of a tree of its own. *)
Lemma tree_inv_subtree h roots l :
  tree_inv h roots -> reachable h roots l ->
  exists s, sroot s = l /\ shaped h s /\ NoDup (slocs s).
Proof.
  intros (ts & -> & Hs & Hnd) Hr.
  destruct (reachable_subshape _ _ _ Hs Hr) as (t & s & Ht & Hsub & Hroot).
  rewrite Forall_forall in Hs.
  destruct (subshapes_spec h t s Hsub (Hs _ Ht)) as (H1 & H2 & H3 & H4).
  exists s. split_and!; [done|done|]. apply H3. eapply NoDup_flocs_elem; eauto.
Qed.

Lemma shaped_slocs_descendant h s l :
  shaped h s -> l ∈ slocs s <-> descendant h (sroot s) l.
Proof.
  intros Hs. split.
  - rewrite slocs_subshapes. intros (s' & -> & Hsub)%list_elem_of_fmap.
    eapply subshapes_spec; eauto.
  - intros (s' & Hsub & <-)%shaped_descendant; [|done].
    rewrite slocs_subshapes. apply list_elem_of_fmap. eauto.
Qed.

Lemma height_fuel h s : shaped h s -> NoDup (slocs s) -> height s <= size h.
Proof.
  intros Hs Hnd. pose proof (height_le_length s).
  enough (length (slocs s) <= size h) by lia.
  apply NoDup_length_le_size; [done|]. intros l Hl. eapply shaped_lookup; eauto.
Qed.

(** ** Collapse *)

Lemma collapse_all_lookup ls h l :
  collapse_all ls h !! l
  = if decide (l ∈ ls) then set_collapsed true <$> h !! l else h !! l.
Proof.
  unfold collapse_all. revert h. induction ls as [|a ls IH]; intros h; cbn [foldl].
  { rewrite decide_False; [done|apply not_elem_of_nil]. }
  rewrite IH, lookup_alter.
  destruct (decide (a = l)) as [->|Hne].
  - rewrite (decide_True (P := l ∈ l :: ls)) by left.
    destruct (decide (l ∈ ls)); [|done]. by destruct (h !! l).
  - destruct (decide (l ∈ ls)).
    + rewrite (decide_True (P := l ∈ a :: ls)); [done|by right].
    + rewrite (decide_False (P := l ∈ a :: ls)); [done|].
      intros [?|?]%elem_of_cons; congruence.
Qed.

Lemma collapse_all_app ls1 ls2 h :
  collapse_all (ls1 ++ ls2) h = collapse_all ls2 (collapse_all ls1 h).
Proof. unfold collapse_all. apply foldl_app. Qed.

Lemma collapse_all_kids ls h l :
  _children <$> collapse_all ls h !! l = _children <$> h !! l.
Proof.
  rewrite collapse_all_lookup. destruct (decide (l ∈ ls)); [|done].
  by destruct (h !! l).
Qed.

Lemma collapseNode_fuel_spec fuel h s :
  shaped h s -> height s <= fuel ->
  collapseNode_fuel fuel (sroot s) h = Ok (collapse_all (slocs s) h).
Proof.
  revert h s. induction fuel as [|fuel IH]; intros h s Hs Hf.
  { destruct s; simpl in Hf; lia. }
  destruct s as [l ks]. pose proof Hs as (n & Hl & Hkids & Hks)%shaped_inv.
  cbn [collapseNode_fuel sroot slocs]. rewrite (get_Some _ _ _ Hl). cbn [mbind res_bind].
  change (collapse_all (l :: flat_map slocs ks) h)
    with (collapse_all (flocs ks) (alter (set_collapsed true) l h)).
  rewrite <- (alter_alt_Some _ _ _ _ Hl).
  assert (forall h', Forall (shaped h') ks ->
            forEach (collapseNode_fuel fuel) (map sroot ks) h'
            = Ok (collapse_all (flocs ks) h')) as Hloop.
  { assert (fheight ks <= fuel) as Hfk by (simpl in Hf; unfold fheight; lia).
    clear -IH Hfk. induction ks as [|k ks IHks]; intros h' Hks'; [done|].
    apply Forall_cons in Hks' as [Hk Hks'].
    unfold fheight in Hfk. simpl in Hfk.
    cbn [map forEach]. rewrite IH by (done || lia). cbn [mbind res_bind].
    unfold flocs. simpl. rewrite collapse_all_app. apply IHks.
    - unfold fheight. lia.
    - eapply Forall_impl; [exact Hks'|]. intros s. apply shaped_ext.
      intros l _. apply collapse_all_kids. }
  assert (Forall (shaped (alter (set_collapsed true) l h)) ks) as Hks1.
  { eapply Forall_impl; [exact Hks|]. intros s. apply shaped_ext.
    intros l0 _. rewrite lookup_alter. destruct (decide (l = l0)) as [->|]; [|done].
    by destruct (h !! l0). }
  destruct (nonempty (_children n)) eqn:E.
  - rewrite Hkids. by apply Hloop.
  - apply nonempty_false_entries in E. rewrite E in Hkids.
    destruct ks; [|done]. done.
Qed.

Lemma tree_inv_ext h h' roots :
  (forall l, _children <$> h' !! l = _children <$> h !! l) ->
  tree_inv h roots -> tree_inv h' roots.
Proof.
  intros Hag (ts & -> & Hs & Hnd). exists ts. split_and!; [done| |done].
  eapply Forall_impl; [exact Hs|]. intros s. apply shaped_ext. auto.
Qed.

Lemma descendant_ext h h' l d :
  (forall l, _children <$> h' !! l = _children <$> h !! l) ->
  descendant h l d -> descendant h' l d.
Proof.
  intros Hag. induction 1 as [|x y z (n & Hn & Hy) _ IH]; [apply rtc_refl|].
  eapply rtc_l; [|exact IH]. specialize (Hag x). rewrite Hn in Hag.
  destruct (h' !! x) as [n'|] eqn:E; [|done]. simpl in Hag.
  exists n'. split; [done|]. congruence.
Qed.

Lemma collapseNode_spec h roots n :
  tree_inv h roots -> reachable h roots n ->
  exists s, sroot s = n /\ shaped h s /\
            collapseNode n h = Ok (collapse_all (slocs s) h).
Proof.
  intros Hinv Hr. destruct (tree_inv_subtree _ _ _ Hinv Hr) as (s & <- & Hs & Hnd).
  exists s. split_and!; [done|done|].
  unfold collapseNode. apply collapseNode_fuel_spec; [done|].
  pose proof (height_fuel _ _ Hs Hnd). lia.
Qed.

Lemma expandNode_spec h l n :
  h !! l = Some n -> expandNode l h = Ok (<[l := set_collapsed false n]> h).
Proof. intros Hl. unfold expandNode. by rewrite (get_Some _ _ _ Hl). Qed.

Lemma reachable_lookup h roots l :
  tree_inv h roots -> reachable h roots l -> is_Some (h !! l).
Proof.
  intros Hinv Hr. destruct (tree_inv_subtree _ _ _ Hinv Hr) as (s & <- & Hs & _).
  eapply shaped_lookup; [done|apply sroot_in_slocs].
Qed.

(** ** The click dispatcher *)

Lemma findNodesById_spec h roots nodeId :
  tree_inv h roots ->
  exists ts, roots = map sroot ts /\ Forall (shaped h) ts /\ NoDup (flocs ts) /\
             findNodesById h nodeId roots [] = Ok (ssearch h nodeId (Sh 0 ts)).
Proof.
  intros (ts & -> & Hs & Hnd). exists ts. split_and!; [done..|].
  unfold findNodesById. rewrite findNodesById_fuel_spec; [done|done|].
  by apply fuel_enough.
Qed.

Lemma findNodesById_present h roots nodeId :
  tree_inv h roots ->
  (exists l n, reachable h roots l /\ h !! l = Some n /\ id n = nodeId) ->
  exists l n rest, findNodesById h nodeId roots [] = Ok (l :: rest) /\
                   reachable h roots l /\ h !! l = Some n /\ id n = nodeId.
Proof.
  intros Hinv (l & n & Hr & Hl & Hid).
  destruct (findNodesById_spec h roots nodeId Hinv) as (ts & -> & Hs & Hnd & ->).
  apply reachable_flocs in Hr; [|done].
  destruct (ssearch h nodeId (Sh 0 ts)) as [|x rest] eqn:E.
  { exfalso. eapply (ssearch_found h nodeId (Sh 0 ts) l); [exact Hr| |exact E].
    rewrite Hl. simpl. by f_equal. }
  assert (x ∈ ssearch h nodeId (Sh 0 ts)) as [Hx1 Hx2]%ssearch_elem by (rewrite E; left).
  destruct (h !! x) as [nx|] eqn:Ex; [|done]. simpl in Hx2.
  exists x, nx, rest. split_and!; [done| |done|congruence].
  by apply reachable_flocs.
Qed.

Lemma findNodesById_absent h roots nodeId :
  tree_inv h roots ->
  (forall l n, reachable h roots l -> h !! l = Some n -> id n <> nodeId) ->
  findNodesById h nodeId roots [] = Ok [].
Proof.
  intros Hinv Habs.
  destruct (findNodesById_spec h roots nodeId Hinv) as (ts & -> & Hs & Hnd & ->).
  f_equal. apply ssearch_absent. intros l n Hl. apply Habs. by apply reachable_flocs.
Qed.

(** ** Identity assignment *)

Lemma assigned_inv h l ks nm at' ch :
  assigned h (Sh l ks) (Raw nm at' ch) ->
  exists n, h !! l = Some n /\ name n = nm /\ attributes n = at' /\ _collapsed n = false
    /\ parent n = None /\ depth n = None /\ x n = None /\ y n = None
    /\ children n = match ch with
                   | Some [] => Some []
                   | Some (_ :: _) => Some (map sroot ks)
                   | None => None
                   end
    /\ _children n = match ch with
                    | Some (_ :: _) => Some (map sroot ks)
                    | _ => None
                    end
    /\ Forall2 (assigned h) ks (default [] ch).
Proof. inversion 1; subst. eexists. split_and!; eauto. Qed.

Lemma assigned_ext h h' s r :
  (forall l, l ∈ slocs s -> h' !! l = h !! l) -> assigned h s r -> assigned h' s r.
Proof.
  revert r. induction s as [l ks IH] using shape_ind'. intros [nm at' ch] Hag Ha.
  apply assigned_inv in Ha as (n & Hl & ? & ? & ? & ? & ? & ? & ? & ? & ? & Hks).
  econstructor; eauto.
  { rewrite Hag; [done|simpl; left]. }
  clear -IH Hag Hks. revert IH Hag. generalize dependent (default [] ch). intros rs0 Hks.
  induction Hks as [|k r ks rs Hk Hks IHks]; intros IH Hag; constructor.
  - apply Forall_cons in IH as [IH _]. apply IH; [|done].
    intros l0 Hl0. apply Hag. simpl. right. apply elem_of_app. by left.
  - apply Forall_cons in IH as [_ IH]. apply IHks; [done|].
    intros l0 Hl0. apply Hag. simpl in *. apply elem_of_cons in Hl0 as [->|Hl0]; [by left|].
    right. apply elem_of_app. by right.
Qed.

Lemma assigned_shaped h s r : assigned h s r -> shaped h s.
Proof.
  revert r. induction s as [l ks IH] using shape_ind'. intros [nm at' ch] Ha.
  apply assigned_inv in Ha as (n & Hl & ? & ? & ? & ? & ? & ? & ? & ? & Hc & Hks).
  econstructor; [exact Hl| |].
  - rewrite Hc. destruct ch as [[|c cs]|]; simpl in *; try done;
      by apply Forall2_nil_inv_r in Hks as ->.
  - rewrite Forall_forall in IH. apply Forall_forall. intros k Hk.
    destruct (proj1 (list_elem_of_lookup _ _) Hk) as [i Hi].
    destruct (Forall2_lookup_l _ _ _ _ _ Hks Hi) as (r & _ & Hr). eauto.
Qed.


Lemma Forall2_assigned_ext h h' ts rs :
  (forall l, l ∈ flocs ts -> h' !! l = h !! l) ->
  Forall2 (assigned h) ts rs -> Forall2 (assigned h') ts rs.
Proof.
  intros Hag Hf. induction Hf as [|t r ts rs Ht Hts IH]; constructor.
  - eapply assigned_ext; [|exact Ht]. intros l Hl. apply Hag.
    unfold flocs. simpl. apply elem_of_app. by left.
  - apply IH. intros l Hl. apply Hag. unfold flocs. simpl. apply elem_of_app. by right.
Qed.

Lemma assigned_lookup h s r l : assigned h s r -> l ∈ slocs s -> is_Some (h !! l).
Proof. intros Ha. eapply shaped_lookup, assigned_shaped, Ha. Qed.

Lemma assignNode_eq uuid_v4 nm at' ch w :
  assignNode uuid_v4 (Raw nm at' ch) w =
    let l := fresh (dom (objs w)) in
    let n0 := Node (uuid_v4 (drawn w)) nm at' false
                   (match ch with Some [] => Some [] | _ => None end)
                   None None None None None in
    let w0 := World (<[l := n0]> (objs w)) (S (drawn w)) in
    match ch with
    | Some (c :: cs) =>
      let '(ls, w1) := assignInternalProperties uuid_v4 (c :: cs) w0 in
      (l, World (<[l := set__children (Some ls) (set_children (Some ls) n0)]> (objs w1))
                (drawn w1))
    | _ => (l, w0)
    end.
Proof. reflexivity. Qed.

Lemma assignInternalProperties_post uuid_v4 rs :
  Forall (fun r => forall w l w', assignNode uuid_v4 r w = (l, w') ->
            exists s, sroot s = l /\ assigned (objs w') s r /\
                      assign_frame uuid_v4 w w' (slocs s) (rsize r)) rs ->
  forall w ls w', assignInternalProperties uuid_v4 rs w = (ls, w') ->
    exists ts, map sroot ts = ls /\ Forall2 (assigned (objs w')) ts rs /\
               assign_frame uuid_v4 w w' (flocs ts) (fsize rs).
Proof.
  unfold assignInternalProperties.
  induction 1 as [|r rs Hr _ IH]; intros w ls w' Heq; simpl in Heq.
  { injection Heq as <- <-. exists []. split_and!; [done|constructor|].
    unfold assign_frame. simpl. split_and!; auto using NoDup_nil_2.
    intros l Hl. by apply elem_of_nil in Hl. }
  destruct (assignNode uuid_v4 r w) as [l1 w1] eqn:E1.
  destruct (mapS (assignNode uuid_v4) rs w1) as [ls2 w2] eqn:E2.
  injection Heq as <- <-.
  destruct (Hr _ _ _ E1) as (s & Hroot & Ha & Hnd1 & Hfr1 & Hframe1 & Hd1 & Hid1).
  destruct (IH _ _ _ E2) as (ts & Hroots & Has & Hnd2 & Hfr2 & Hframe2 & Hd2 & Hid2).
  assert (forall l, l ∈ slocs s -> l ∉ flocs ts) as Hdisj.
  { intros l Hl Hl2. apply Hfr2 in Hl2.
    destruct (assigned_lookup _ _ _ _ Ha Hl) as [? ?]. congruence. }
  exists (s :: ts). split_and!.
  - simpl. congruence.
  - constructor; [|done]. eapply assigned_ext; [|exact Ha]. intros l Hl.
    apply Hframe2. by apply Hdisj.
  - unfold assign_frame, flocs. simpl. fold (flocs ts). split_and!.
    + apply NoDup_app. split_and!; auto.
    + intros l [Hl|Hl]%elem_of_app; [by apply Hfr1|].
      rewrite <- Hframe1; [by apply Hfr2|]. intros Hl'. by apply (Hdisj l).
    + intros l Hl. rewrite Hframe2, Hframe1; [done|..];
        intros Hl'; apply Hl, elem_of_app; auto.
    + lia.
    + rewrite map_app, seq_app, map_app. f_equal.
      * rewrite <- Hid1. apply map_ext_in. intros l Hl%list_elem_of_In.
        unfold id_of. rewrite Hframe2; [done|by apply Hdisj].
      * rewrite Hid2, Hd1. done.
Qed.

Lemma assignNode_post uuid_v4 r :
  forall w l w', assignNode uuid_v4 r w = (l, w') ->
    exists s, sroot s = l /\ assigned (objs w') s r /\
              assign_frame uuid_v4 w w' (slocs s) (rsize r).
Proof.
  induction r as [nm at' ch IH] using RawNode_ind'. intros w l w'.
  rewrite assignNode_eq. cbv zeta.
  set (l0 := fresh (dom (objs w))).
  assert (objs w !! l0 = None) as Hfresh.
  { apply not_elem_of_dom. apply is_fresh. }
  destruct ch as [[|c cs]|].
  - (* children: [] *)
    intros [= <- <-]. exists (Sh l0 []). split_and!; [done| |].
    + econstructor; [cbn [objs]; by rewrite lookup_insert_eq|..]; simpl; try reflexivity; constructor.
    + unfold assign_frame. simpl. split_and!.
      * apply NoDup_singleton.
      * by intros l ->%list_elem_of_singleton.
      * intros l Hl. apply lookup_insert_ne. intros ->. apply Hl. left.
      * lia.
      * unfold id_of. by rewrite lookup_insert_eq.
  - (* children present *)
    simpl in IH.
    destruct (assignInternalProperties uuid_v4 (c :: cs) _) as [ls w1] eqn:E.
    intros [= <- <-].
    destruct (assignInternalProperties_post _ _ IH _ _ _ E)
      as (ts & Hroots & Has & Hnd & Hfr & Hframe & Hd & Hid).
    simpl in Hfr, Hframe, Hd, Hid.
    assert (l0 ∉ flocs ts) as Hl0.
    { intros Hin. apply Hfr in Hin. by rewrite lookup_insert_eq in Hin. }
    exists (Sh l0 ts). split_and!; [done| |].
    + econstructor; [cbn [objs]; by rewrite lookup_insert_eq|..]; simpl; try reflexivity.
      * by rewrite Hroots.
      * by rewrite Hroots.
      * eapply Forall2_assigned_ext; [|exact Has]. intros l Hl.
        apply lookup_insert_ne. by intros ->.
    + unfold assign_frame. simpl. fold (flocs ts). split_and!.
      * by constructor.
      * intros l [->|Hl]%elem_of_cons; [done|].
        pose proof (Hfr _ Hl) as Hn. rewrite lookup_insert_ne in Hn; [done|].
        by intros ->.
      * intros l Hl. rewrite lookup_insert_ne by (intros ->; apply Hl; left).
        rewrite Hframe by (intros ?; apply Hl; by right).
        apply lookup_insert_ne. intros ->. apply Hl. left.
      * unfold fsize in *. simpl in *. lia.
      * f_equal; [unfold id_of; by rewrite lookup_insert_eq|].
        unfold fsize in *. simpl in *. rewrite <- Hid. apply map_ext_in.
        intros l Hl%list_elem_of_In. unfold id_of.
        rewrite lookup_insert_ne; [done|by intros ->].
  - (* no children *)
    intros [= <- <-]. exists (Sh l0 []). split_and!; [done| |].
    + econstructor; [cbn [objs]; by rewrite lookup_insert_eq|..]; simpl; try reflexivity; constructor.
    + unfold assign_frame. simpl. split_and!.
      * apply NoDup_singleton.
      * by intros l ->%list_elem_of_singleton.
      * intros l Hl. apply lookup_insert_ne. intros ->. apply Hl. left.
      * lia.
      * unfold id_of. by rewrite lookup_insert_eq.
Qed.

Lemma NoDup_map_inj {A B} (f : A -> B) (ls : list A) a b :
  NoDup (map f ls) -> a ∈ ls -> b ∈ ls -> f a = f b -> a = b.
Proof.
  induction ls as [|c ls IH]; simpl; [by intros _ ?%elem_of_nil|].
  intros [Hn Hnd]%NoDup_cons [->|Ha]%elem_of_cons [->|Hb]%elem_of_cons Heq; auto.
  - exfalso. apply Hn. rewrite Heq. apply list_elem_of_fmap. eauto.
  - exfalso. apply Hn. rewrite <- Heq. apply list_elem_of_fmap. eauto.
Qed.

Lemma assign_frame_unique_ids uuid_v4 w w' ls k :
  Inj (=) (=) uuid_v4 -> assign_frame uuid_v4 w w' ls k -> unique_ids (objs w') ls.
Proof.
  intros Hinj (_ & _ & _ & _ & Hid) l1 l2 n1 n2 H1 H2 Hn1 Hn2 Heq.
  apply (NoDup_map_inj (id_of (objs w')) ls); [|done|done|].
  - rewrite Hid. apply NoDup_fmap_2; [|apply NoDup_seq].
    intros i j [= Hij]. by apply Hinj.
  - unfold id_of. rewrite Hn1, Hn2. simpl. by f_equal.
Qed.

Lemma assignInternalProperties_correct uuid_v4 data w roots w' :
  assignInternalProperties uuid_v4 data w = (roots, w') ->
  exists ts, map sroot ts = roots /\ Forall2 (assigned (objs w')) ts data /\
             assign_frame uuid_v4 w w' (flocs ts) (fsize data).
Proof.
  apply assignInternalProperties_post. apply Forall_forall.
  intros r _. apply assignNode_post.
Qed.

Lemma Forall2_assigned_shaped h ts rs :
  Forall2 (assigned h) ts rs -> Forall (shaped h) ts.
Proof.
  induction 1; constructor; [by eapply assigned_shaped|done].
Qed.

Lemma assign_tree_inv uuid_v4 data w roots w' :
  assignInternalProperties uuid_v4 data w = (roots, w') -> tree_inv (objs w') roots.
Proof.
  intros (ts & <- & Ha & Hnd & _)%assignInternalProperties_correct.
  exists ts. split_and!; [done| |done]. by eapply Forall2_assigned_shaped.
Qed.

Lemma same_skeleton_kids h0 h l :
  same_skeleton h0 h -> _children <$> h !! l = _children <$> h0 !! l.
Proof.
  intros Hs. specialize (Hs l). destruct (h !! l), (h0 !! l); simpl in *; congruence.
Qed.

Lemma same_skeleton_id h0 h l :
  same_skeleton h0 h -> id <$> h !! l = id <$> h0 !! l.
Proof.
  intros Hs. specialize (Hs l). destruct (h !! l), (h0 !! l); simpl in *; congruence.
Qed.

Lemma unique_ids_skeleton h0 h ls :
  same_skeleton h0 h -> unique_ids h0 ls -> unique_ids h ls.
Proof.
  intros Hs Hu l1 l2 n1 n2 H1 H2 Hn1 Hn2 Heq.
  pose proof (same_skeleton_id _ _ l1 Hs) as E1.
  pose proof (same_skeleton_id _ _ l2 Hs) as E2.
  rewrite Hn1 in E1. rewrite Hn2 in E2.
  destruct (h0 !! l1) as [m1|] eqn:F1; [|done].
  destruct (h0 !! l2) as [m2|] eqn:F2; [|done].
  simpl in *. eapply Hu; eauto. congruence.
Qed.

Lemma findNodesById_unique h ts nodeId l n :
  Forall (shaped h) ts -> NoDup (flocs ts) -> unique_ids h (flocs ts) ->
  l ∈ flocs ts -> h !! l = Some n -> id n = nodeId ->
  findNodesById h nodeId (map sroot ts) [] = Ok [l].
Proof.
  intros Hs Hnd Hu Hl Hn Hid. unfold findNodesById.
  rewrite findNodesById_fuel_spec; [|done|by apply fuel_enough].
  simpl keep. f_equal. eapply ssearch_unique; eauto.
Qed.

Lemma findNodesById_roots_first h roots nodeId :
  tree_inv h roots -> matching h nodeId roots <> [] ->
  findNodesById h nodeId roots [] = Ok (matching h nodeId roots).
Proof.
  intros Hinv Hm.
  destruct (findNodesById_spec h roots nodeId Hinv) as (ts & -> & Hs & Hnd & ->).
  simpl. by destruct (matching h nodeId (map sroot ts)).
Qed.

Lemma findNodesById_hits h nodeId nodeSet hits :
  hits <> [] -> findNodesById h nodeId nodeSet hits = Ok hits.
Proof. apply findNodesById_fuel_hits. Qed.

(** ** The methods keep the skeleton of the store *)

Lemma bind_Ok {A B} (m : res A) (f : A -> res B) b :
  m ≫= f = Ok b -> exists a, m = Ok a /\ f a = Ok b.
Proof. destruct m as [a|e]; [eauto|discriminate]. Qed.

Lemma get_Ok (h : gmap nat node) l n : get h l = Ok n -> h !! l = Some n.
Proof. unfold get. destruct (h !! l); by intros [= <-]. Qed.

(** Splits a successful sequence of binds into its steps. *)
Ltac inv_bind H :=
  let a := fresh "a" in
  let E := fresh "E" in
  apply bind_Ok in H as (a & E & H).

Lemma forEach_preserves {A S} (R : S -> S -> Prop)
    (f : A -> S -> res S) (l : list A) (s s' : S) :
  Reflexive R -> Transitive R ->
  (forall a s s', f a s = Ok s' -> R s s') -> forEach f l s = Ok s' -> R s s'.
Proof.
  intros Hr Ht Hf. revert s. induction l as [|a l IH]; intros s; simpl.
  { by intros [= <-]. }
  intros H. inv_bind H. etrans; [by eapply Hf|by apply IH].
Qed.

Lemma mapM_S_preserves {A B S} (R : S -> S -> Prop)
    (f : A -> S -> res (B * S)) (l : list A) (s s' : S) bs :
  Reflexive R -> Transitive R ->
  (forall a s b s', f a s = Ok (b, s') -> R s s') -> mapM_S f l s = Ok (bs, s') -> R s s'.
Proof.
  intros Hr Ht Hf. revert s bs. induction l as [|a l IH]; intros s bs; simpl.
  { by intros [= <- <-]. }
  intros H. inv_bind H. destruct a0 as [b s1]. inv_bind H. destruct a0 as [bs' s2].
  injection H as <- <-. etrans; [by eapply Hf|by eapply IH].
Qed.

#[local] Instance same_skeleton_reflexive : Reflexive same_skeleton.
Proof. by intros h l. Qed.

#[local] Instance same_skeleton_transitive : Transitive same_skeleton.
Proof. intros h1 h2 h3 H12 H23 l. by rewrite H23, H12. Qed.

Lemma same_skeleton_insert (h : gmap nat node) l n n' :
  h !! l = Some n -> id n' = id n -> _children n' = _children n ->
  same_skeleton h (<[l := n']> h).
Proof.
  intros Hl Hid Hk l0. destruct (decide (l = l0)) as [<-|Hne].
  - rewrite lookup_insert_eq, Hl. simpl. by rewrite Hid, Hk.
  - by rewrite lookup_insert_ne.
Qed.

(** Closes a goal [same_skeleton h (<[l := f n]> h)] where [n] was read
    at [l] and [f] is a setter of a flag or of a layout field. *)
Ltac skeleton_step :=
  match goal with
  | E : get ?h ?l = Ok ?n |- same_skeleton ?h (<[?l := _]> ?h) =>
    eapply same_skeleton_insert; [exact (get_Ok _ _ _ E)|reflexivity|reflexivity]
  end.

Lemma tree_inv_skeleton h0 h roots :
  same_skeleton h0 h -> tree_inv h0 roots -> tree_inv h roots.
Proof. intros Hs. apply tree_inv_ext. intros l. by apply same_skeleton_kids. Qed.

Lemma forEach_skeleton {A} (f : A -> gmap nat node -> res (gmap nat node)) l h h' :
  (forall a h h', f a h = Ok h' -> same_skeleton h h') ->
  forEach f l h = Ok h' -> same_skeleton h h'.
Proof. apply forEach_preserves; apply _. Qed.

Lemma visit_skeleton fuel accessor l h s h' :
  D3.visit fuel accessor l h = Ok (s, h') -> same_skeleton h h'.
Proof.
  revert l h s h'. induction fuel as [|fuel IH]; intros l h s h'; simpl; [done|].
  intros H. inv_bind H.
  destruct (nonempty (accessor a)).
  - inv_bind H. inv_bind H. inv_bind H. destruct a2 as [ks h3].
    injection H as <- <-.
    trans a0; [|trans (<[l:=set_children (accessor a) a1]> a0)].
    + eapply forEach_skeleton; [|exact E0].
      intros c h1 h2 Hc. inv_bind Hc. injection Hc as <-. skeleton_step.
    + skeleton_step.
    + eapply (mapM_S_preserves same_skeleton); [apply _|apply _| |exact E2].
      intros c h1 k h2. apply IH.
  - injection H as <- <-. skeleton_step.
Qed.

Lemma hierarchy_skeleton accessor root h s h' :
  D3.hierarchy accessor root h = Ok (s, h') -> same_skeleton h h'.
Proof.
  unfold D3.hierarchy. intros H. inv_bind H.
  trans (<[root:=set_depth (Some 0) a]> h); [skeleton_step|by eapply visit_skeleton].
Qed.

Lemma walk_skeleton separation s h h' :
  D3.walk separation s h = Ok h' -> same_skeleton h h'.
Proof.
  unfold D3.walk. destruct (D3.wrapTree s) as [[root1 post] a].
  intros H. inv_bind H. inv_bind H. inv_bind H. destruct a2 as [a2 h2].
  injection H as <-.
  apply (forEach_preserves (fun st st' : list D3.wnode * gmap nat node =>
                              same_skeleton st.2 st'.2)) in E1; [done|..].
  - by intros [??].
  - intros [??] [??] [??] ??. simpl in *. by etrans.
  - intros v [a3 h3] [a4 h4] Hs. unfold D3.secondWalk in Hs.
    inv_bind Hs. inv_bind Hs. inv_bind Hs. injection Hs as <- <-. simpl.
    skeleton_step.
Qed.

Lemma nodes_skeleton size separation accessor root h ns h' :
  D3.nodes size separation accessor root h = Ok (ns, h') -> same_skeleton h h'.
Proof.
  unfold D3.nodes. intros H. inv_bind H. destruct a as [s h1]. inv_bind H. inv_bind H.
  injection H as <- <-.
  etrans; [by eapply hierarchy_skeleton|]. etrans; [by eapply walk_skeleton|].
  eapply forEach_skeleton; [|exact E1].
  intros l h2 h3 Hs. unfold D3.sizeNode in Hs. inv_bind Hs.
  injection Hs as <-. skeleton_step.
Qed.

(** A layout pass changes flags and layout fields only. *)
Lemma generateTree_skeleton t r t' :
  generateTree t = Ok (r, t') ->
  state_data (state t') = state_data (state t) /\
  same_skeleton (objects (state t)) (objects (state t')) /\
  props t' = props t /\ internalState t' = internalState t.
Proof.
  unfold generateTree. intros H. inv_bind H. inv_bind H. destruct a0 as [ns h].
  inv_bind H. inv_bind H. inv_bind H. injection H as <- <-. cbn.
  split_and!; [done| |done|done].
  etrans; [by eapply nodes_skeleton|]. trans a1.
  - destruct (initialDepth (props t)) as [d|]; [|by injection E2 as <-].
    destruct (initialRender (internalState t)); [|by injection E2 as <-].
    eapply forEach_skeleton; [|exact E2].
    intros l h2 h3 Hs. inv_bind Hs. injection Hs as <-. skeleton_step.
  - destruct (depthFactor (props t)) as [f|]; [|by injection E3 as <-].
    destruct (decide (f = 0%Qc)); [by injection E3 as <-|].
    eapply forEach_skeleton; [|exact E3].
    intros l h2 h3 Hs. inv_bind Hs. injection Hs as <-. skeleton_step.
Qed.

Lemma collapseNode_fuel_skeleton fuel l h h' :
  collapseNode_fuel fuel l h = Ok h' -> same_skeleton h h'.
Proof.
  revert l h h'. induction fuel as [|fuel IH]; intros l h h'; simpl; [done|].
  intros H. inv_bind H.
  trans (<[l:=set_collapsed true a]> h); [skeleton_step|].
  destruct (nonempty (_children a)); [|by injection H as <-].
  eapply forEach_skeleton; [|exact H]. intros c h1 h2. apply IH.
Qed.

(** A click changes flags only. *)
Lemma handleNodeToggle_skeleton t nodeId evt t' :
  handleNodeToggle nodeId evt t = Ok t' ->
  state_data (state t') = state_data (state t) /\
  same_skeleton (objects (state t)) (objects (state t')) /\
  props t' = props t.
Proof.
  unfold handleNodeToggle, clone. intros H. inv_bind H.
  destruct (collapsible (props t)).
  - destruct (head a) as [l|] eqn:Hhd; [|done]. inv_bind H. inv_bind H.
    injection H as <-. unfold handleOnClickCb, setState, log.
    assert (same_skeleton (objects (state t)) a1) as Hsk.
    { destruct (_collapsed a0).
      - unfold expandNode in E1. inv_bind E1. injection E1 as <-. skeleton_step.
      - by eapply collapseNode_fuel_skeleton. }
    cbn. destruct (onClick (props t)); cbn; by split_and!.
  - injection H as <-. unfold handleOnClickCb, log.
    destruct (onClick (props t)); cbn; by split_and!.
Qed.

(** The invariant holds when the component is constructed and every
    method that succeeds keeps it. *)
Lemma tree_inv_generateTree t r t' :
  tree_inv (objects (state t)) (state_data (state t)) ->
  generateTree t = Ok (r, t') ->
  tree_inv (objects (state t')) (state_data (state t')).
Proof.
  intros Hinv (Hd & Hsk & _)%generateTree_skeleton. rewrite Hd.
  by eapply tree_inv_skeleton.
Qed.

Lemma tree_inv_handleNodeToggle t nodeId evt t' :
  tree_inv (objects (state t)) (state_data (state t)) ->
  handleNodeToggle nodeId evt t = Ok t' ->
  tree_inv (objects (state t')) (state_data (state t')).
Proof.
  intros Hinv (Hd & Hsk & _)%handleNodeToggle_skeleton. rewrite Hd.
  by eapply tree_inv_skeleton.
Qed.

Lemma tree_inv_componentWillReceiveProps uuid_v4 nextProps fresh_data t :
  tree_inv (objects (state t)) (state_data (state t)) ->
  tree_inv (objects (state (componentWillReceiveProps uuid_v4 nextProps fresh_data t)))
           (state_data (state (componentWillReceiveProps uuid_v4 nextProps fresh_data t))).
Proof.
  intros Hinv. unfold componentWillReceiveProps. destruct fresh_data; [|done].
  destruct (assignInternalProperties uuid_v4 (data nextProps) _) as [ls w] eqn:E.
  cbn. by eapply assign_tree_inv.
Qed.

(** * The claims *)

(** ** The initial zoom *)

(** C9.  For a scale extent with [min <= max], [calculateD3Geometry]
    returns [scaleExtent.max] when [zoom] exceeds it, [scaleExtent.min] when
    [zoom] is below it, and [zoom] itself otherwise; with the extent
    [{min: 0.1, max: 1}] it maps 5 to 1, 0.01 to 0.1 and 0.5 to 0.5. *)
Theorem calculateD3Geometry_clamps (p : Props) :
  (min (scaleExtent p) <= max (scaleExtent p))%Qc ->
  ((max (scaleExtent p) < zoom p)%Qc ->
     d3_scale (calculateD3Geometry p) = max (scaleExtent p)) /\
  ((zoom p < min (scaleExtent p))%Qc ->
     d3_scale (calculateD3Geometry p) = min (scaleExtent p)) /\
  ((min (scaleExtent p) <= zoom p)%Qc -> (zoom p <= max (scaleExtent p))%Qc ->
     d3_scale (calculateD3Geometry p) = zoom p) /\
  d3_scale (calculateD3Geometry (set_zoom (Qc_of_nat 5) (defaultProps (data p)))) = 1%Qc /\
  d3_scale (calculateD3Geometry (set_zoom (Q2Qc (1 # 100)) (defaultProps (data p))))
    = Q2Qc (1 # 10) /\
  d3_scale (calculateD3Geometry (set_zoom (Q2Qc (1 # 2)) (defaultProps (data p))))
    = Q2Qc (1 # 2).
Proof.
  intros Hext. unfold calculateD3Geometry. cbn [d3_scale]. split_and!.
  - intros Hgt. by rewrite decide_True.
  - intros Hlt. rewrite decide_False, decide_True; [done|done|].
    apply Qcle_not_lt. eapply Qcle_trans; [apply Qclt_le_weak, Hlt|exact Hext].
  - intros Hlo Hhi. rewrite !decide_False; [done|..]; by apply Qcle_not_lt.
  - reflexivity.
  - reflexivity.
  - reflexivity.
Qed.

Lemma calculateD3Geometry_clamps_witness :
  (min (scaleExtent (defaultProps sample_data))
   <= max (scaleExtent (defaultProps sample_data)))%Qc /\
  d3_scale (calculateD3Geometry (defaultProps sample_data)) = 1%Qc.
Proof.
  split; [by vm_compute|].
  apply (calculateD3Geometry_clamps (defaultProps sample_data)); by vm_compute.
Defined.

(** ** Collapse and expand *)

Lemma constructor_tree_inv uuid_v4 p :
  tree_inv (objects (state (constructor uuid_v4 p)))
           (state_data (state (constructor uuid_v4 p))).
Proof.
  unfold constructor.
  destruct (assignInternalProperties uuid_v4 (data p) (World ∅ 0)) as [ls w] eqn:E.
  simpl. by eapply assign_tree_inv.
Qed.

Lemma sample_root_reachable :
  reachable (objects (state sample_tree)) (state_data (state sample_tree)) 0.
Proof. exists 0. split; [vm_compute; left|apply rtc_refl]. Qed.

(** C2.  In a state of the component (the invariant [tree_inv], which
    identity assignment establishes), [collapseNode(n)] on a node [n] of the
    tree returns, and afterwards [n] and every node reached from [n] through
    [_children] has [_collapsed = true], whatever its flag was; nothing else
    of these nodes changes and no other node is touched. *)
Theorem collapseNode_cascade (h : gmap nat node) (roots : list nat) (n : nat) :
  tree_inv h roots -> reachable h roots n ->
  exists h', collapseNode n h = Ok h' /\
    (forall d, descendant h n d -> _collapsed <$> h' !! d = Some true) /\
    (forall d, descendant h n d -> h' !! d = set_collapsed true <$> h !! d) /\
    (forall l, ~ descendant h n l -> h' !! l = h !! l).
Proof.
  intros Hinv Hr. destruct (collapseNode_spec h roots n Hinv Hr) as (s & <- & Hs & ->).
  eexists. split; [done|]. split_and!.
  - intros d Hd. apply shaped_slocs_descendant in Hd; [|done].
    rewrite collapse_all_lookup, decide_True by done.
    by destruct (shaped_lookup h s d Hs Hd) as [nd ->].
  - intros d Hd. apply shaped_slocs_descendant in Hd; [|done].
    by rewrite collapse_all_lookup, decide_True.
  - intros l Hl. rewrite collapse_all_lookup, decide_False; [done|].
    intros Hin. by apply Hl, shaped_slocs_descendant.
Qed.

Lemma collapseNode_cascade_witness :
  tree_inv (objects (state sample_tree)) (state_data (state sample_tree)) /\
  reachable (objects (state sample_tree)) (state_data (state sample_tree)) 0 /\
  exists h', collapseNode 0 (objects (state sample_tree)) = Ok h' /\
    (forall d, descendant (objects (state sample_tree)) 0 d ->
               _collapsed <$> h' !! d = Some true).
Proof.
  split; [apply constructor_tree_inv|]. split; [apply sample_root_reachable|].
  destruct (collapseNode_cascade (objects (state sample_tree))
              (state_data (state sample_tree)) 0
              (constructor_tree_inv sample_uuid (defaultProps sample_data))
              sample_root_reachable) as (h' & H1 & H2 & _).
  exists h'. split; [exact H1|exact H2].
Defined.

(** C3.  In a state of the component, [expandNode(n)] sets [_collapsed] of
    [n] to [false] and leaves every other node as it was; after
    [collapseNode(n)] followed by [expandNode(n)] the node [n] is expanded
    and every other node reached from [n] still has [_collapsed = true]. *)
Theorem expandNode_only_target (h : gmap nat node) (roots : list nat) (n : nat) :
  tree_inv h roots -> reachable h roots n ->
  (exists h', expandNode n h = Ok h' /\
     h' !! n = set_collapsed false <$> h !! n /\
     _collapsed <$> h' !! n = Some false /\
     (forall m, m <> n -> h' !! m = h !! m)) /\
  (exists h1 h2, collapseNode n h = Ok h1 /\ expandNode n h1 = Ok h2 /\
     _collapsed <$> h2 !! n = Some false /\
     (forall d, descendant h n d -> d <> n -> _collapsed <$> h2 !! d = Some true) /\
     (forall l, ~ descendant h n l -> h2 !! l = h !! l)).
Proof.
  intros Hinv Hr. destruct (reachable_lookup h roots n Hinv Hr) as [nn Hn]. split.
  - exists (<[n := set_collapsed false nn]> h). split_and!.
    + by apply expandNode_spec.
    + by rewrite lookup_insert_eq, Hn.
    + by rewrite lookup_insert_eq.
    + intros m Hm. by apply lookup_insert_ne.
  - destruct (collapseNode_spec h roots n Hinv Hr) as (s & <- & Hs & Hc).
    set (h1 := collapse_all (slocs s) h) in *.
    assert (h1 !! sroot s = Some (set_collapsed true nn)) as Hn1.
    { unfold h1. rewrite collapse_all_lookup, decide_True by apply sroot_in_slocs.
      by rewrite Hn. }
    exists h1, (<[sroot s := set_collapsed false (set_collapsed true nn)]> h1). split_and!.
    + done.
    + by apply expandNode_spec.
    + by rewrite lookup_insert_eq.
    + intros d Hdesc Hne. rewrite lookup_insert_ne by done.
      pose proof (proj2 (shaped_slocs_descendant h s d Hs) Hdesc) as Hin.
      unfold h1. rewrite collapse_all_lookup, decide_True by done.
      by destruct (shaped_lookup h s d Hs Hin) as [nd ->].
    + intros l Hl. rewrite lookup_insert_ne by (intros <-; apply Hl, rtc_refl).
      unfold h1. rewrite collapse_all_lookup, decide_False; [done|].
      intros Hin. by apply Hl, shaped_slocs_descendant.
Qed.

Lemma expandNode_only_target_witness :
  tree_inv (objects (state sample_tree)) (state_data (state sample_tree)) /\
  reachable (objects (state sample_tree)) (state_data (state sample_tree)) 0 /\
  exists h1 h2, collapseNode 0 (objects (state sample_tree)) = Ok h1 /\
    expandNode 0 h1 = Ok h2 /\
    _collapsed <$> h2 !! 0 = Some false /\
    (forall d, descendant (objects (state sample_tree)) 0 d -> d <> 0 ->
               _collapsed <$> h2 !! d = Some true).
Proof.
  split; [apply constructor_tree_inv|]. split; [apply sample_root_reachable|].
  destruct (expandNode_only_target (objects (state sample_tree))
              (state_data (state sample_tree)) 0
              (constructor_tree_inv sample_uuid (defaultProps sample_data))
              sample_root_reachable) as (_ & h1 & h2 & H1 & H2 & H3 & H4 & _).
  exists h1, h2. split_and!; assumption.
Defined.

(** ** The click dispatcher *)




(** C5 (as the component has it).  In a state of the component, for an
    identifier that no node of the tree carries, the lookup returns the
    empty list.  With [collapsible] off, [handleNodeToggle] returns without
    an error, leaves the state as it was and calls [onClick], when
    supplied, with [undefined].  With [collapsible] on it raises a
    [TypeError] (it reads [_collapsed] of [undefined]) and no state is
    committed. *)
Theorem handleNodeToggle_not_found (t : Tree) (nodeId : string) (evt : string) :
  tree_inv (objects (state t)) (state_data (state t)) ->
  (forall l n, reachable (objects (state t)) (state_data (state t)) l ->
               objects (state t) !! l = Some n -> id n <> nodeId) ->
  findNodesById (objects (state t)) nodeId (state_data (state t)) [] = Ok [] /\
  (collapsible (props t) = false ->
     exists t', handleNodeToggle nodeId evt t = Ok t' /\
       state t' = state t /\
       internalState t' = internalState t /\
       calls t' = calls t ++
         (if onClick (props t)
          then [call_onClick None (objects (state t)) evt] else [])) /\
  (collapsible (props t) = true ->
     handleNodeToggle nodeId evt t = Throw TypeError).
Proof.
  intros Hinv Habs. pose proof (findNodesById_absent _ _ _ Hinv Habs) as Hfind.
  split; [done|]. unfold handleNodeToggle, clone. rewrite Hfind.
  cbn [mbind res_bind head]. split; intros ->; [|done].
  eexists. split; [reflexivity|]. unfold handleOnClickCb, log.
  destruct (onClick (props t)); cbn; split_and!; try done.
  by rewrite app_nil_r.
Qed.

Lemma sample_missing_id :
  forall l n, reachable (objects (state sample_tree)) (state_data (state sample_tree)) l ->
              objects (state sample_tree) !! l = Some n -> id n <> "missing"%string.
Proof.
  intros l n Hr Hn Hid.
  destruct (findNodesById_present _ _ "missing"
              (constructor_tree_inv sample_uuid (defaultProps sample_data))
              (ex_intro _ l (ex_intro _ n (conj Hr (conj Hn Hid)))))
    as (l' & n' & rest & Hf & _).
  vm_compute in Hf. discriminate.
Qed.

Lemma handleNodeToggle_not_found_witness :
  tree_inv (objects (state sample_tree)) (state_data (state sample_tree)) /\
  (forall l n, reachable (objects (state sample_tree)) (state_data (state sample_tree)) l ->
               objects (state sample_tree) !! l = Some n -> id n <> "missing"%string) /\
  findNodesById (objects (state sample_tree)) "missing"
                (state_data (state sample_tree)) [] = Ok [] /\
  handleNodeToggle "missing" "click" sample_tree = Throw TypeError.
Proof.
  split; [apply constructor_tree_inv|]. split; [exact sample_missing_id|].
  destruct (handleNodeToggle_not_found sample_tree "missing" "click"
              (constructor_tree_inv sample_uuid (defaultProps sample_data))
              sample_missing_id) as (Hf & _ & Hon).
  split; [exact Hf|exact (Hon eq_refl)].
Defined.

(** C5 as the specification words it fails: with the default props
    ([collapsible] on) a click on an identifier that matches no node of the
    sample tree raises a [TypeError]. *)
Lemma handleNodeToggle_not_found_raises :
  (forall l n, reachable (objects (state sample_tree)) (state_data (state sample_tree)) l ->
               objects (state sample_tree) !! l = Some n -> id n <> "missing"%string) /\
  collapsible (props sample_tree) = true /\
  handleNodeToggle "missing" "click" sample_tree = Throw TypeError /\
  ~ (exists t', handleNodeToggle "missing" "click" sample_tree = Ok t').
Proof.
  split; [exact sample_missing_id|]. split; [reflexivity|].
  split; [by vm_compute|]. intros [t' Ht']. vm_compute in Ht'. discriminate.
Qed.

(** ** Identity assignment and lookup *)

Lemma assigned_node_facts h s r l :
  assigned h s r -> l ∈ slocs s ->
  exists n, h !! l = Some n /\ _collapsed n = false /\
    (nonempty (_children n) = true -> children n = _children n) /\
    (nonempty (_children n) = false ->
       entries (children n) = [] /\ entries (_children n) = []).
Proof.
  revert r l. induction s as [l0 ks IH] using shape_ind'. intros [nm at' ch] l Ha Hl.
  apply assigned_inv in Ha as (n & Hn & _ & _ & Hflag & _ & _ & _ & _ & Hc & Hc' & Hks).
  simpl in Hl. apply elem_of_cons in Hl as [->|Hl].
  - exists n. split_and!; [done|done| |].
    + rewrite Hc, Hc'. by destruct ch as [[|? ?]|].
    + intros Hne%nonempty_false_entries. split; [|done].
      rewrite Hc' in Hne. rewrite Hc. by destruct ch as [[|? ?]|].
  - apply elem_of_flat_map in Hl as (k & Hk & Hl).
    rewrite Forall_forall in IH.
    destruct (proj1 (list_elem_of_lookup _ _) Hk) as [i Hi].
    destruct (Forall2_lookup_l _ _ _ _ _ Hks Hi) as (r & _ & Hr). eauto.
Qed.

(** C10.  For every raw input and a generator that never repeats,
    [assignInternalProperties] returns (it is a total function, nothing is
    raised) a tree of node objects that mirrors the raw tree ([assigned]):
    every object has [_collapsed = false]; the identifiers of the objects
    are the next draws of the generator, parent before children, and are
    pairwise distinct; a node with children holds the list of its
    children's objects, all of them assigned, in [children] and in
    [_children] alike; a node without children has no [_children] and an
    empty or absent [children]. *)
Theorem assignInternalProperties_spec (uuid_v4 : nat -> string)
    (data : list RawNode) (c : nat) :
  Inj (=) (=) uuid_v4 ->
  exists ts,
    (assignInternalProperties uuid_v4 data (World ∅ c)).1 = map sroot ts /\
    Forall2 (assigned (objs (assignInternalProperties uuid_v4 data (World ∅ c)).2)) ts data /\
    NoDup (flocs ts) /\
    map (id_of (objs (assignInternalProperties uuid_v4 data (World ∅ c)).2)) (flocs ts)
      = map (fun i => Some (uuid_v4 i)) (seq c (fsize data)) /\
    unique_ids (objs (assignInternalProperties uuid_v4 data (World ∅ c)).2) (flocs ts) /\
    (forall l, l ∈ flocs ts ->
       exists n, objs (assignInternalProperties uuid_v4 data (World ∅ c)).2 !! l = Some n /\
         _collapsed n = false /\
         (nonempty (_children n) = true -> children n = _children n) /\
         (nonempty (_children n) = false ->
            entries (children n) = [] /\ entries (_children n) = [])).
Proof.
  intros Hinj.
  destruct (assignInternalProperties uuid_v4 data (World ∅ c)) as [roots w] eqn:E.
  destruct (assignInternalProperties_correct _ _ _ _ _ E) as (ts & <- & Ha & Hfr).
  exists ts. cbn [fst snd]. split_and!; [done|done|apply Hfr|apply Hfr| |].
  - by eapply assign_frame_unique_ids.
  - intros l (t & Ht & Hl)%elem_of_flat_map.
    destruct (proj1 (list_elem_of_lookup _ _) Ht) as [i Hi].
    destruct (Forall2_lookup_l _ _ _ _ _ Ha Hi) as (r & _ & Hr).
    by eapply assigned_node_facts.
Qed.

Lemma sample_uuid_inj : Inj (=) (=) sample_uuid.
Proof. unfold sample_uuid. apply _. Qed.

Lemma assignInternalProperties_spec_witness :
  Inj (=) (=) sample_uuid /\
  exists ts,
    (assignInternalProperties sample_uuid sample_data (World ∅ 0)).1 = map sroot ts /\
    Forall2 (assigned (objs (assignInternalProperties sample_uuid sample_data (World ∅ 0)).2))
            ts sample_data /\
    NoDup (flocs ts).
Proof.
  split; [exact sample_uuid_inj|].
  destruct (assignInternalProperties_spec sample_uuid sample_data 0 sample_uuid_inj)
    as (ts & H1 & H2 & H3 & _).
  exists ts. split_and!; assumption.
Defined.

(** C1.  Take any raw input, a generator that never repeats, the store
    [assignInternalProperties] produces and any store [h] with the same
    objects, identifiers and [_children] (whatever the [_collapsed] flags
    and layout fields are by now).  Then [findNodesById(id, data, [])]
    returns exactly the one node carrying [id] when a node of the tree
    carries it, and the empty list when none does.  The nodes of the node
    set are compared before any child list is entered: when one of them
    matches, the matches of the node set are the result; and a call that
    starts with hits returns them at once. *)
Theorem findNodesById_assigned (uuid_v4 : nat -> string) (data : list RawNode)
    (c : nat) (h : gmap nat node) (nodeId : string) :
  Inj (=) (=) uuid_v4 ->
  same_skeleton (objs (assignInternalProperties uuid_v4 data (World ∅ c)).2) h ->
  (forall l n,
     reachable h (assignInternalProperties uuid_v4 data (World ∅ c)).1 l ->
     h !! l = Some n -> id n = nodeId ->
     findNodesById h nodeId (assignInternalProperties uuid_v4 data (World ∅ c)).1 []
     = Ok [l]) /\
  ((forall l n,
      reachable h (assignInternalProperties uuid_v4 data (World ∅ c)).1 l ->
      h !! l = Some n -> id n <> nodeId) ->
   findNodesById h nodeId (assignInternalProperties uuid_v4 data (World ∅ c)).1 []
   = Ok []) /\
  (matching h nodeId (assignInternalProperties uuid_v4 data (World ∅ c)).1 <> [] ->
   findNodesById h nodeId (assignInternalProperties uuid_v4 data (World ∅ c)).1 []
   = Ok (matching h nodeId (assignInternalProperties uuid_v4 data (World ∅ c)).1)) /\
  (forall nodeSet hits, hits <> [] ->
     findNodesById h nodeId nodeSet hits = Ok hits).
Proof.
  intros Hinj Hsk.
  destruct (assignInternalProperties uuid_v4 data (World ∅ c)) as [roots w] eqn:E.
  cbn [fst snd] in *.
  destruct (assignInternalProperties_correct _ _ _ _ _ E) as (ts & <- & Ha & Hfr).
  assert (Forall (shaped h) ts) as Hs.
  { eapply Forall_impl; [by eapply Forall2_assigned_shaped|].
    intros s. apply shaped_ext. intros l _. by apply same_skeleton_kids. }
  assert (NoDup (flocs ts)) as Hnd by apply Hfr.
  assert (tree_inv h (map sroot ts)) as Hinv by (by exists ts).
  split_and!.
  - intros l n Hr Hn Hid. eapply findNodesById_unique; eauto.
    + eapply unique_ids_skeleton; [done|]. by eapply assign_frame_unique_ids.
    + by apply (reachable_flocs h ts l Hs).
  - by apply findNodesById_absent.
  - by apply findNodesById_roots_first.
  - intros nodeSet hits. apply findNodesById_hits.
Qed.

Lemma same_skeleton_refl h : same_skeleton h h.
Proof. by intros l. Qed.

Lemma findNodesById_assigned_witness :
  Inj (=) (=) sample_uuid /\
  same_skeleton (objs (assignInternalProperties sample_uuid sample_data (World ∅ 0)).2)
                (objs (assignInternalProperties sample_uuid sample_data (World ∅ 0)).2) /\
  findNodesById (objs (assignInternalProperties sample_uuid sample_data (World ∅ 0)).2) "2"
                (assignInternalProperties sample_uuid sample_data (World ∅ 0)).1 []
  = Ok [2].
Proof.
  split; [exact sample_uuid_inj|]. split; [apply same_skeleton_refl|].
  destruct (findNodesById_assigned sample_uuid sample_data 0
              (objs (assignInternalProperties sample_uuid sample_data (World ∅ 0)).2) "2"
              sample_uuid_inj (same_skeleton_refl _)) as (Hfound & _).
  apply (Hfound 2 (Node "2" "b" [] false None None None None None None)).
  - exists 0. split; [vm_compute; left|].
    eapply rtc_l; [|apply rtc_refl]. eexists. split; [by vm_compute|].
    vm_compute. right. left.
  - by vm_compute.
  - reflexivity.
Defined.

(** ** The layout pass *)

(** The end-to-end example of the specification: the sample tree with the
    default props is laid out as 3 nodes and 2 links, the root at depth 0,
    "a" and "b" at depth 1 and [nodeSize.y * separation.siblings = 140]
    apart. *)
Example generateTree_sample :
  exists r t xa xb,
    generateTree sample_tree = Ok (r, t) /\
    nodes r = [0; 1; 2] /\ links r = [(0, 1); (0, 2)] /\
    map (fun l => fst (depth_offaxis (objects (state t)) l)) [0; 1; 2]
    = [Some 0; Some 1; Some 1] /\
    xpos (objects (state t)) 1 = Some xa /\ xpos (objects (state t)) 2 = Some xb /\
    (xb - xa)%Qc = (xy_y (nodeSize (props sample_tree))
                    * siblings (separation (props sample_tree)))%Qc.
Proof.
  do 4 eexists. split; [vm_compute; reflexivity|].
  split; [reflexivity|]. split; [reflexivity|]. split; [by vm_compute|].
  split; [vm_compute; reflexivity|]. split; [vm_compute; reflexivity|].
  apply Qc_is_canon. by vm_compute.
Qed.

(** The truncation is tied to the first pass: [componentDidMount] clears
    [initialRender], no method sets it again, and a pass with
    [initialRender] cleared does what a pass without [initialDepth] does. *)
Lemma mount_initialRender uuid_v4 p r g t :
  mount uuid_v4 p = Ok (r, g, t) -> initialRender (internalState t) = false.
Proof.
  unfold mount. intros H. inv_bind H. destruct a as [[r' g'] t'].
  by injection H as <- <- <-.
Qed.

Lemma update_initialRender t r g t' :
  update t = Ok (r, g, t') ->
  initialRender (internalState t') = initialRender (internalState t).
Proof.
  unfold update, render. intros H. inv_bind H. destruct a as [[r' g'] t1].
  inv_bind E. destruct a as [r2 t2]. injection E as <- <- <-. injection H as <- <- <-.
  apply generateTree_skeleton in E0 as (_ & _ & Hp & Hi).
  unfold componentDidUpdate. rewrite <- Hi. by destruct (onUpdate (props t2)).
Qed.

Lemma handleNodeToggle_initialRender t nodeId evt t' :
  handleNodeToggle nodeId evt t = Ok t' ->
  initialRender (internalState t') = initialRender (internalState t).
Proof.
  unfold handleNodeToggle, clone. intros H. inv_bind H.
  destruct (collapsible (props t)).
  - destruct (head a) as [l|]; [|done]. inv_bind H. inv_bind H. injection H as <-.
    unfold handleOnClickCb, setState, log. cbn. by destruct (onClick (props t)).
  - injection H as <-. unfold handleOnClickCb, log. by destruct (onClick (props t)).
Qed.

Lemma generateTree_after_mount (t : Tree) :
  initialRender (internalState t) = false ->
  layout_view (generateTree t)
  = layout_view (generateTree (set_props (set_initialDepth None (props t)) t)).
Proof.
  intros Hir. unfold layout_view, generateTree.
  cbn [props state internalState set_props].
  change (layoutSize (set_initialDepth None (props t))) with (layoutSize (props t)).
  change (separationFn (set_initialDepth None (props t))) with (separationFn (props t)).
  cbn [initialDepth depthFactor set_initialDepth]. rewrite Hir.
  destruct (head (state_data (state t))) as [rootNode|]; [|done].
  cbn [from_option mbind res_bind].
  destruct (D3.nodes _ _ _ _ _) as [[ns h]|e]; [|done]. cbn [mbind res_bind].
  destruct (D3.links ns h) as [ls|e]; [|done]. cbn [mbind res_bind].
  assert (match initialDepth (props t) with
          | Some _ => Ok h | None => Ok h end = Ok h) as -> by by destruct (initialDepth _).
  cbn [mbind res_bind].
  destruct (match depthFactor (props t) with
            | Some f => _ | None => _ end) as [h2|e]; [|done].
  reflexivity.
Qed.

(** C6 where the component departs from it: [initialDepth = 1] on the
    chain [root -> a -> b].  The first pass marks "a" and "b" collapsed,
    but only after the lists were derived: it returns all three nodes and
    both links.  The passes after it are not truncated again: the second
    returns [root, a]; after a click on "a" the next returns all three and
    "a" stays expanded. *)
Theorem generateTree_initialDepth_first_pass :
  exists r g t,
    mount sample_uuid (set_initialDepth (Some 1%Qc) (defaultProps chain_data))
    = Ok (r, g, t) /\
    nodes r = [0; 1; 2] /\ links r = [(0, 1); (1, 2)] /\
    map (fun l => _collapsed <$> objects (state t) !! l) [0; 1; 2]
    = [Some false; Some true; Some true] /\
    initialRender (internalState t) = false /\
    (exists r2 g2 t2, update t = Ok (r2, g2, t2) /\
       nodes r2 = [0; 1] /\ links r2 = [(0, 1)]) /\
    (exists t1 r3 g3 t3,
       handleNodeToggle "1" "click" t = Ok t1 /\ update t1 = Ok (r3, g3, t3) /\
       nodes r3 = [0; 1; 2] /\
       _collapsed <$> objects (state t3) !! 1 = Some false).
Proof.
  do 3 eexists. split; [vm_compute; reflexivity|].
  split; [reflexivity|]. split; [reflexivity|]. split; [by vm_compute|].
  split; [reflexivity|]. split.
  - do 3 eexists. split; [vm_compute; reflexivity|]. split; reflexivity.
  - do 4 eexists. split; [vm_compute; reflexivity|].
    split; [vm_compute; reflexivity|]. split; [reflexivity|]. by vm_compute.
Qed.

(** C7 as the specification words it fails: with [nodeSize = {x: 140, y: 70}]
    the sample tree is laid out with "a" at depth 1 and off-axis position
    [-35] in horizontal orientation, and with no node at that pair in
    vertical orientation (there "a" is at [-70]). *)
Lemma generateTree_orientation_pairs_differ :
  exists ph pv,
    layout_pairs (generateTree (constructor sample_uuid
      (set_orientation horizontal
         (set_nodeSize (XY (Qc_of_nat 140) (Qc_of_nat 70)) (defaultProps sample_data)))))
    = Ok ph /\
    layout_pairs (generateTree (constructor sample_uuid
      (set_orientation vertical
         (set_nodeSize (XY (Qc_of_nat 140) (Qc_of_nat 70)) (defaultProps sample_data)))))
    = Ok pv /\
    (Some 1, Some (- Qc_of_nat 35)%Qc) ∈ ph /\
    (Some 1, Some (- Qc_of_nat 35)%Qc) ∉ pv.
Proof.
  do 2 eexists. split; [vm_compute; reflexivity|]. split; [vm_compute; reflexivity|].
  split.
  - apply elem_of_cons. right. apply elem_of_cons. left.
    do 2 f_equal. apply Qc_is_canon. by vm_compute.
  - intros Hin. repeat (apply elem_of_cons in Hin as [Hin|Hin]; [by vm_compute in Hin|]).
    by apply elem_of_nil in Hin.
Qed.

Lemma layoutSize_square (p : Props) (o : Orientation) :
  xy_x (nodeSize p) = xy_y (nodeSize p) ->
  layoutSize (set_orientation o p) = (xy_x (nodeSize p), xy_x (nodeSize p)).
Proof. intros Heq. unfold layoutSize. destruct o; simpl; by rewrite <- ?Heq. Qed.

(** C7 (as the component has it).  The orientation reaches the layout only
    as the order of the two components of [nodeSize]: when [nodeSize.x] and
    [nodeSize.y] are equal, a pass in horizontal orientation and a pass in
    vertical orientation from the same state raise alike or return the same
    node and link lists and leave the same state behind, so the
    [{depth, off-axis position}] pairs of the nodes are the same. *)
Theorem generateTree_orientation (t : Tree) :
  xy_x (nodeSize (props t)) = xy_y (nodeSize (props t)) ->
  layout_view (generateTree (set_props (set_orientation horizontal (props t)) t))
  = layout_view (generateTree (set_props (set_orientation vertical (props t)) t)) /\
  layout_pairs (generateTree (set_props (set_orientation horizontal (props t)) t))
  = layout_pairs (generateTree (set_props (set_orientation vertical (props t)) t)).
Proof.
  intros Heq.
  assert (forall o,
            generateTree (set_props (set_orientation o (props t)) t)
            = '(r, t') ← generateTree (set_props (set_orientation horizontal (props t)) t);
              Ok (r, set_props (set_orientation o (props t)) t')) as Hgen.
  { intros o. unfold generateTree.
    cbn [props state internalState set_props].
    rewrite !layoutSize_square by done.
    change (separationFn (set_orientation o (props t)))
      with (separationFn (set_orientation horizontal (props t))).
    cbn [initialDepth depthFactor set_orientation].
    destruct (head (state_data (state t))) as [rootNode|]; [|done].
    cbn [from_option mbind res_bind].
    destruct (D3.nodes _ _ _ _ _) as [[ns h]|e]; [|done]. cbn [mbind res_bind].
    destruct (D3.links ns h) as [ls|e]; [|done]. cbn [mbind res_bind].
    destruct (match initialDepth (props t) with
              | Some d => _ | None => _ end) as [h1|e]; [|done].
    cbn [mbind res_bind].
    destruct (match depthFactor (props t) with
              | Some f => _ | None => _ end) as [h2|e]; [|done].
    reflexivity. }
  rewrite (Hgen vertical).
  destruct (generateTree (set_props (set_orientation horizontal (props t)) t))
    as [[r t']|e]; [|done].
  split; reflexivity.
Qed.

Lemma generateTree_orientation_witness :
  xy_x (nodeSize (props sample_tree)) = xy_y (nodeSize (props sample_tree)) /\
  layout_pairs (generateTree
                  (set_props (set_orientation horizontal (props sample_tree)) sample_tree))
  = layout_pairs (generateTree
                    (set_props (set_orientation vertical (props sample_tree)) sample_tree)).
Proof.
  split; [reflexivity|].
  apply (generateTree_orientation sample_tree). reflexivity.
Defined.




(** With the default props the walk spreads the two leaves "w" and "v"
    evenly between the families "A" and "B": the two sibling leaves end
    [700/3] apart, not [nodeSize.y * separation.siblings = 140]. *)
Example generateTree_spread_siblings :
  exists r t xw xv,
    generateTree (constructor sample_uuid (defaultProps spread_data)) = Ok (r, t) /\
    parent_id (objects (state t)) 6 = parent_id (objects (state t)) 7 /\
    children <$> objects (state t) !! 6 = Some None /\
    children <$> objects (state t) !! 7 = Some None /\
    xpos (objects (state t)) 6 = Some xw /\
    xpos (objects (state t)) 7 = Some xv /\
    (xv - xw)%Qc = Q2Qc (700 # 3).
Proof.
  do 4 eexists. split; [vm_compute; reflexivity|].
  split; [by vm_compute|]. split; [by vm_compute|]. split; [by vm_compute|].
  split; [vm_compute; reflexivity|]. split; [vm_compute; reflexivity|].
  apply Qc_is_canon. by vm_compute.
Qed.

(** * Further properties of the component *)

(** ** Lookup in any state *)

(** X1.  In a state of the component [findNodesById(id, data, [])]
    returns; every node it returns is a node of the tree and carries the
    identifier, no node is returned twice, and the result is empty exactly
    when no node of the tree carries the identifier.  (Identifiers need
    not be unique for this.) *)
Theorem findNodesById_sound_complete (h : gmap nat node) (roots : list nat)
    (nodeId : string) :
  tree_inv h roots ->
  exists hits, findNodesById h nodeId roots [] = Ok hits /\
    (forall l, l ∈ hits -> reachable h roots l /\ id <$> h !! l = Some nodeId) /\
    NoDup hits /\
    (hits = [] <->
     forall l n, reachable h roots l -> h !! l = Some n -> id n <> nodeId).
Proof.
  intros Hinv.
  destruct (findNodesById_spec h roots nodeId Hinv) as (ts & -> & Hs & Hnd & Hfind).
  exists (ssearch h nodeId (Sh 0 ts)). split; [done|]. split_and!.
  - intros l [Hl Hid]%ssearch_elem. split; [|done]. by apply reachable_flocs.
  - by apply ssearch_NoDup.
  - split.
    + intros Hnil l n Hr Hn Hid. apply (reachable_flocs h ts l Hs) in Hr.
      eapply (ssearch_found h nodeId (Sh 0 ts) l); [exact Hr| |exact Hnil].
      rewrite Hn. simpl. by f_equal.
    + intros Habs. apply ssearch_absent. intros l n Hl. apply Habs.
      by apply reachable_flocs.
Qed.

Lemma findNodesById_sound_complete_witness :
  tree_inv (objects (state sample_tree)) (state_data (state sample_tree)) /\
  exists hits,
    findNodesById (objects (state sample_tree)) "1" (state_data (state sample_tree)) []
    = Ok hits /\ NoDup hits.
Proof.
  split; [apply constructor_tree_inv|].
  destruct (findNodesById_sound_complete (objects (state sample_tree))
              (state_data (state sample_tree)) "1"
              (constructor_tree_inv sample_uuid (defaultProps sample_data)))
    as (hits & H1 & _ & H2 & _).
  exists hits. by split.
Defined.

(** ** The hover handlers *)

(** X2.  In a state of the component the two hover handlers never raise,
    whatever the identifier: when the callback prop is supplied it is
    called once, with the first node the lookup returns or with [undefined]
    when no node carries the identifier; when it is not supplied nothing
    happens.  Neither handler changes the state, the internal state or the
    props. *)
Theorem hover_handlers_spec (t : Tree) (nodeId : string) (evt : string) :
  tree_inv (objects (state t)) (state_data (state t)) ->
  exists hits,
    findNodesById (objects (state t)) nodeId (state_data (state t)) [] = Ok hits /\
    ((forall l n, reachable (objects (state t)) (state_data (state t)) l ->
                  objects (state t) !! l = Some n -> id n <> nodeId) ->
     head hits = None) /\
    (exists t', handleOnMouseOverCb nodeId evt t = Ok t' /\
       state t' = state t /\ internalState t' = internalState t /\
       props t' = props t /\
       calls t' = calls t ++
         (if onMouseOver (props t)
          then [call_onMouseOver (head hits) (objects (state t)) evt] else [])) /\
    (exists t', handleOnMouseOutCb nodeId evt t = Ok t' /\
       state t' = state t /\ internalState t' = internalState t /\
       props t' = props t /\
       calls t' = calls t ++
         (if onMouseOut (props t)
          then [call_onMouseOut (head hits) (objects (state t)) evt] else [])).
Proof.
  intros Hinv.
  destruct (findNodesById_spec _ _ nodeId Hinv) as (ts & Hroots & Hs & Hnd & Hfind).
  eexists. split; [exact Hfind|]. split_and!.
  - intros Habs. rewrite ssearch_absent; [done|].
    intros l n Hl. apply Habs. rewrite Hroots. by apply reachable_flocs.
  - unfold handleOnMouseOverCb, clone. destruct (onMouseOver (props t)).
    + rewrite Hfind. cbn [mbind res_bind]. eexists. split; [reflexivity|].
      unfold log. by cbn.
    + eexists. split; [reflexivity|]. by rewrite app_nil_r.
  - unfold handleOnMouseOutCb, clone. destruct (onMouseOut (props t)).
    + rewrite Hfind. cbn [mbind res_bind]. eexists. split; [reflexivity|].
      unfold log. by cbn.
    + eexists. split; [reflexivity|]. by rewrite app_nil_r.
Qed.

Lemma hover_handlers_spec_witness :
  tree_inv (objects (state sample_tree)) (state_data (state sample_tree)) /\
  exists t', handleOnMouseOverCb "missing" "mouseover" sample_tree = Ok t' /\
             state t' = state sample_tree.
Proof.
  split; [apply constructor_tree_inv|].
  destruct (hover_handlers_spec sample_tree "missing" "mouseover"
              (constructor_tree_inv sample_uuid (defaultProps sample_data)))
    as (hits & _ & _ & (t' & H1 & H2 & _) & _).
  exists t'. by split.
Defined.

(** ** Collapse, expand and two clicks *)



Lemma collapse_all_absorb ls ls' h :
  (forall l, l ∈ ls -> l ∈ ls') ->
  collapse_all ls (collapse_all ls' h) = collapse_all ls' h.
Proof.
  intros Hsub. apply map_eq. intros l. rewrite !collapse_all_lookup.
  destruct (decide (l ∈ ls)) as [Hl|]; [|done].
  rewrite decide_True by auto. by destruct (h !! l).
Qed.

Lemma collapse_all_shaped ls h s : shaped h s -> shaped (collapse_all ls h) s.
Proof. apply shaped_ext. intros l _. apply collapse_all_kids. Qed.

Lemma size_collapse_all ls h : size (collapse_all ls h) = size h.
Proof.
  rewrite <- !size_dom. f_equal. apply set_eq. intros l.
  rewrite !elem_of_dom, collapse_all_lookup.
  destruct (decide (l ∈ ls)); [|done]. by rewrite fmap_is_Some.
Qed.

(** X3.  In a state of the component, once [collapseNode(n)] has run, a
    further [collapseNode] on [n] or on any node below [n] returns the
    store unchanged. *)
Theorem collapseNode_absorbs (h : gmap nat node) (roots : list nat) (n : nat) :
  tree_inv h roots -> reachable h roots n ->
  exists h1, collapseNode n h = Ok h1 /\
    forall d, descendant h n d -> collapseNode d h1 = Ok h1.
Proof.
  intros Hinv Hr. destruct (tree_inv_subtree _ _ _ Hinv Hr) as (s & <- & Hs & Hnd).
  exists (collapse_all (slocs s) h). split.
  { unfold collapseNode. apply collapseNode_fuel_spec; [done|].
    pose proof (height_fuel _ _ Hs Hnd). lia. }
  intros d Hd. destruct (shaped_descendant h s d Hs Hd) as (s' & Hsub & <-).
  destruct (subshapes_spec h s s' Hsub Hs) as (Hs' & Hin & Hnd' & _).
  unfold collapseNode. rewrite collapseNode_fuel_spec.
  - f_equal. by apply collapse_all_absorb.
  - by apply collapse_all_shaped.
  - rewrite size_collapse_all. pose proof (height_fuel _ _ Hs' (Hnd' Hnd)). lia.
Qed.

Lemma collapseNode_absorbs_witness :
  tree_inv (objects (state sample_tree)) (state_data (state sample_tree)) /\
  reachable (objects (state sample_tree)) (state_data (state sample_tree)) 0 /\
  exists h1, collapseNode 0 (objects (state sample_tree)) = Ok h1 /\
             collapseNode 0 h1 = Ok h1.
Proof.
  split; [apply constructor_tree_inv|]. split; [apply sample_root_reachable|].
  destruct (collapseNode_absorbs (objects (state sample_tree))
              (state_data (state sample_tree)) 0
              (constructor_tree_inv sample_uuid (defaultProps sample_data))
              sample_root_reachable) as (h1 & H1 & H2).
  exists h1. split; [exact H1|]. apply H2, rtc_refl.
Defined.



Lemma click_result_state i target evt t :
  state (set_internalState i (handleOnClickCb target evt t)) = state t.
Proof. unfold handleOnClickCb, log. by destruct (onClick (props t)). Qed.

Lemma click_result_props i target evt t :
  props (set_internalState i (handleOnClickCb target evt t)) = props t.
Proof. unfold handleOnClickCb, log. by destruct (onClick (props t)). Qed.

Lemma handleNodeToggle_step t nodeId evt l rest n h1 :
  collapsible (props t) = true ->
  findNodesById (objects (state t)) nodeId (state_data (state t)) [] = Ok (l :: rest) ->
  objects (state t) !! l = Some n ->
  (if _collapsed n then expandNode l (objects (state t))
   else collapseNode l (objects (state t))) = Ok h1 ->
  exists t', handleNodeToggle nodeId evt t = Ok t' /\
    state t' = {| state_data := state_data (state t); objects := h1 |} /\
    props t' = props t.
Proof.
  intros Hc Hfind Hn Hstep. unfold handleNodeToggle, clone.
  rewrite Hfind. cbn [mbind res_bind head].
  rewrite Hc, (get_Some _ _ _ Hn). cbn [mbind res_bind]. rewrite Hstep.
  cbn [mbind res_bind]. eexists. split; [reflexivity|].
  by rewrite click_result_state, click_result_props.
Qed.




(** ** What the methods leave alone *)

Lemma same_on_refl {A} (f : node -> A) h : same_on f h h.
Proof. by intros l. Qed.

Lemma same_on_trans {A} (f : node -> A) h1 h2 h3 :
  same_on f h1 h2 -> same_on f h2 h3 -> same_on f h1 h3.
Proof. intros H12 H23 l. by rewrite H23, H12. Qed.

Lemma same_on_insert {A} (f : node -> A) (h : gmap nat node) l n n' :
  h !! l = Some n -> f n' = f n -> same_on f h (<[l := n']> h).
Proof.
  intros Hl Hf l0. destruct (decide (l = l0)) as [<-|Hne].
  - rewrite lookup_insert_eq, Hl. simpl. by rewrite Hf.
  - by rewrite lookup_insert_ne.
Qed.

Lemma forEach_same_on {A B} (f : node -> A)
    (g : B -> gmap nat node -> res (gmap nat node)) l h h' :
  (forall a h h', g a h = Ok h' -> same_on f h h') ->
  forEach g l h = Ok h' -> same_on f h h'.
Proof.
  apply forEach_preserves.
  - intros ?. apply same_on_refl.
  - intros ???. apply same_on_trans.
Qed.

(** Closes [same_on f h (<[l := g n]> h)] where [n] was read at [l] and
    [g] is made of setters [f] is blind to. *)
Ltac same_on_step Hblind :=
  match goal with
  | E : get ?h ?l = Ok ?n |- same_on _ ?h (<[?l := _]> ?h) =>
    eapply same_on_insert; [exact (get_Ok _ _ _ E)|];
    destruct Hblind as (Hb1 & Hb2 & Hb3 & Hb4 & Hb5);
    by rewrite ?Hb1, ?Hb2, ?Hb3, ?Hb4, ?Hb5
  end.

Lemma visit_same_on {A} (f : node -> A) fuel accessor l h s h' :
  layout_blind f ->
  D3.visit fuel accessor l h = Ok (s, h') -> same_on f h h'.
Proof.
  intros Hblind. revert l h s h'.
  induction fuel as [|fuel IH]; intros l h s h'; simpl; [done|].
  intros H. inv_bind H.
  destruct (nonempty (accessor a)).
  - inv_bind H. inv_bind H. inv_bind H. destruct a2 as [ks h3].
    injection H as <- <-.
    apply (same_on_trans f h a0);
      [|apply (same_on_trans f a0 (<[l:=set_children (accessor a) a1]> a0))].
    + eapply forEach_same_on; [|exact E0].
      intros c h1 h2 Hc. inv_bind Hc. injection Hc as <-. same_on_step Hblind.
    + same_on_step Hblind.
    + eapply (mapM_S_preserves (same_on f)); [| | |exact E2].
      * intros ?. apply same_on_refl.
      * intros ???. apply same_on_trans.
      * intros c h1 k h2. apply IH.
  - injection H as <- <-. same_on_step Hblind.
Qed.

Lemma hierarchy_same_on {A} (f : node -> A) accessor root h s h' :
  layout_blind f ->
  D3.hierarchy accessor root h = Ok (s, h') -> same_on f h h'.
Proof.
  intros Hblind. unfold D3.hierarchy. intros H. inv_bind H.
  apply (same_on_trans f h (<[root:=set_depth (Some 0) a]> h));
    [same_on_step Hblind|by eapply visit_same_on].
Qed.

Lemma layout_blind_position {A} (f : node -> A) : layout_blind f -> position_blind f.
Proof. intros (_ & _ & _ & Hx & Hy). by split. Qed.

Lemma walk_same_on {A} (f : node -> A) separation s h h' :
  position_blind f ->
  D3.walk separation s h = Ok h' -> same_on f h h'.
Proof.
  intros [Hx Hy]. unfold D3.walk. destruct (D3.wrapTree s) as [[root1 post] a].
  intros H. inv_bind H. inv_bind H. inv_bind H. destruct a2 as [a2 h2].
  injection H as <-.
  apply (forEach_preserves (fun st st' : list D3.wnode * gmap nat node =>
                              same_on f st.2 st'.2)) in E1; [done|..].
  - intros [??]. apply same_on_refl.
  - intros [??] [??] [??]. apply same_on_trans.
  - intros v [a3 h3] [a4 h4] Hs. unfold D3.secondWalk in Hs.
    inv_bind Hs. inv_bind Hs. inv_bind Hs. injection Hs as <- <-. simpl.
    match goal with
    | Hg : get _ _ = Ok _ |- _ => eapply same_on_insert; [exact (get_Ok _ _ _ Hg)|apply Hx]
    end.
Qed.

Lemma sizeNode_same_on {A} (f : node -> A) size ns h h' :
  position_blind f ->
  forEach (D3.sizeNode size) ns h = Ok h' -> same_on f h h'.
Proof.
  intros [Hx Hy]. apply forEach_same_on.
  intros l h2 h3 Hs. unfold D3.sizeNode in Hs. inv_bind Hs. injection Hs as <-.
  eapply same_on_insert; [exact (get_Ok _ _ _ E)|]. by rewrite Hy, Hx.
Qed.

Lemma nodes_same_on {A} (f : node -> A) size separation accessor root h ns h' :
  layout_blind f ->
  D3.nodes size separation accessor root h = Ok (ns, h') -> same_on f h h'.
Proof.
  intros Hblind. unfold D3.nodes. intros H. inv_bind H. destruct a as [s h1].
  inv_bind H. inv_bind H. injection H as <- <-.
  apply (same_on_trans f h h1); [by eapply hierarchy_same_on|].
  apply (same_on_trans f h1 a); [by eapply walk_same_on, E0; apply layout_blind_position|].
  by eapply sizeNode_same_on, E1; apply layout_blind_position.
Qed.


Lemma setInitialTreeDepth_same_on {A} (f : node -> A) nodeSet d h h' :
  flag_blind f -> setInitialTreeDepth nodeSet d h = Ok h' -> same_on f h h'.
Proof.
  intros Hblind. apply forEach_same_on. intros l h1 h2 Hs. inv_bind Hs.
  injection Hs as <-. eapply same_on_insert; [exact (get_Ok _ _ _ E)|apply Hblind].
Qed.

Lemma layout_blind_node_data : layout_blind node_data.
Proof. by split_and!. Qed.

Lemma layout_blind_unlaid : layout_blind unlaid.
Proof. by split_and!. Qed.

Lemma generateTree_inv t r t' :
  generateTree t = Ok (r, t') ->
  exists rootNode h1 h2,
    head (state_data (state t)) = Some rootNode /\
    D3.nodes (layoutSize (props t)) (separationFn (props t)) childrenFn rootNode
             (objects (state t)) = Ok (nodes r, h1) /\
    D3.links (nodes r) h1 = Ok (links r) /\
    match initialDepth (props t) with
    | Some d =>
      if initialRender (internalState t) then setInitialTreeDepth (nodes r) d h1
      else Ok h1
    | None => Ok h1
    end = Ok h2 /\
    match depthFactor (props t) with
    | Some f =>
      if decide (f = 0%Qc) then Ok h2
      else forEach (fun l h =>
                      n ← get h l;
                      Ok (<[l := set_y ((fun d => Qc_of_nat d * f)%Qc <$> depth n) n]> h))
                   (nodes r) h2
    | None => Ok h2
    end = Ok (objects (state t')) /\
    t' = setState {| state_data := state_data (state t);
                     objects := objects (state t') |} t.
Proof.
  unfold generateTree. intros H. inv_bind H. inv_bind H. destruct a0 as [ns h].
  inv_bind H. inv_bind H. inv_bind H. injection H as <- <-.
  destruct (head (state_data (state t))) as [rootNode|]; [|done].
  injection E as <-. exists rootNode, h, a1. by split_and!.
Qed.

(** X5.  A layout pass that returns changes nothing of the component
    but the objects of the state, and of every object it leaves the
    identifier, the name, the attributes and [_children] as they were; when
    the pass is not the first render or [initialDepth] is not set it leaves
    [_collapsed] as it was too, so only the layout fields ([children],
    [parent], [depth], [x], [y]) are written. *)
Theorem generateTree_writes_layout_only (t : Tree) (r : LayoutResult) (t' : Tree) :
  generateTree t = Ok (r, t') ->
  state_data (state t') = state_data (state t) /\
  props t' = props t /\ internalState t' = internalState t /\
  uuids t' = uuids t /\ calls t' = calls t /\
  same_on node_data (objects (state t)) (objects (state t')) /\
  (initialRender (internalState t) = false \/ initialDepth (props t) = None ->
   same_on unlaid (objects (state t)) (objects (state t'))).
Proof.
  intros (rootNode & h1 & h2 & _ & Hn & _ & Hd & Hf & Ht')%generateTree_inv.
  split_and!; try (rewrite Ht'; reflexivity).
  - apply (same_on_trans _ _ h1); [eapply nodes_same_on, Hn; apply layout_blind_node_data|].
    apply (same_on_trans _ _ h2).
    + destruct (initialDepth (props t)) as [d|]; [|injection Hd as <-; apply same_on_refl].
      destruct (initialRender (internalState t)); [|injection Hd as <-; apply same_on_refl].
      by eapply setInitialTreeDepth_same_on.
    + destruct (depthFactor (props t)) as [f|]; [|injection Hf as <-; apply same_on_refl].
      destruct (decide (f = 0%Qc)); [injection Hf as <-; apply same_on_refl|].
      eapply forEach_same_on; [|exact Hf]. intros l h3 h4 Hs. inv_bind Hs.
      injection Hs as <-. by eapply same_on_insert; [exact (get_Ok _ _ _ E)|].
  - intros Hnot.
    apply (same_on_trans _ _ h1); [eapply nodes_same_on, Hn; apply layout_blind_unlaid|].
    apply (same_on_trans _ _ h2).
    + destruct Hnot as [Hnot|Hnot]; rewrite Hnot in Hd.
      * destruct (initialDepth (props t)); injection Hd as <-; apply same_on_refl.
      * injection Hd as <-. apply same_on_refl.
    + destruct (depthFactor (props t)) as [f|]; [|injection Hf as <-; apply same_on_refl].
      destruct (decide (f = 0%Qc)); [injection Hf as <-; apply same_on_refl|].
      eapply forEach_same_on; [|exact Hf]. intros l h3 h4 Hs. inv_bind Hs.
      injection Hs as <-. by eapply same_on_insert; [exact (get_Ok _ _ _ E)|].
Qed.

Lemma generateTree_writes_layout_only_witness :
  exists r t',
    generateTree sample_tree = Ok (r, t') /\
    state_data (state t') = state_data (state sample_tree) /\
    same_on node_data (objects (state sample_tree)) (objects (state t')).
Proof.
  destruct (generateTree sample_tree) as [[r t']|e] eqn:E; [|by vm_compute in E].
  exists r, t'. split; [reflexivity|].
  destruct (generateTree_writes_layout_only sample_tree r t' E) as (H1 & _ & _ & _ & _ & H2 & _).
  by split.
Defined.



(** ** Loops that rewrite the nodes of a list *)

(** A loop [nodes.forEach(n => ...)] that writes back [g n] for every node
    [n] of the list: what holds of every [g n], and is kept by [g], holds
    afterwards of every node of the list; nodes outside the list are not
    touched. *)
Lemma forEach_rewrite (g : node -> node) (P : node -> Prop) ns h h' :
  (forall n, P (g n)) ->
  forEach (fun l h => n ← get h l; Ok (<[l := g n]> h)) ns h = Ok h' ->
  (forall l, l ∈ ns -> exists n, h' !! l = Some n /\ P n) /\
  (forall l n, h !! l = Some n -> P n -> exists n', h' !! l = Some n' /\ P n') /\
  (forall l, l ∉ ns -> h' !! l = h !! l).
Proof.
  intros HP. revert h. induction ns as [|a ns IH]; intros h; simpl.
  { intros [= <-]. split_and!; [by intros l ?%elem_of_nil|eauto|done]. }
  intros H. inv_bind H. inv_bind E. injection E as <-. apply get_Ok in E0.
  destruct (IH _ H) as (IH1 & IH2 & IH3). split_and!.
  - intros l [->|Hl]%elem_of_cons; [|by apply IH1].
    apply (IH2 a (g a1)); [by rewrite lookup_insert_eq|done].
  - intros l n Hl Hn. destruct (decide (a = l)) as [<-|Hne].
    + apply (IH2 a (g a1)); [by rewrite lookup_insert_eq|done].
    + apply (IH2 l n); [by rewrite lookup_insert_ne|done].
  - intros l Hl. rewrite IH3 by (intros ?; apply Hl; by right).
    apply lookup_insert_ne. intros ->. apply Hl. left.
Qed.

Lemma forEach_rewrite_keeps (g : node -> node) (P : node -> Prop) ns h h' :
  (forall n, P n -> P (g n)) ->
  forEach (fun l h => n ← get h l; Ok (<[l := g n]> h)) ns h = Ok h' ->
  forall l n, h !! l = Some n -> P n -> exists n', h' !! l = Some n' /\ P n'.
Proof.
  intros HP. revert h. induction ns as [|a ns IH]; intros h; simpl.
  { intros [= <-]. eauto. }
  intros H. inv_bind H. inv_bind E. injection E as <-. apply get_Ok in E0.
  intros l n Hl Hn. destruct (decide (a = l)) as [<-|Hne].
  - apply (IH _ H a (g a1)); [by rewrite lookup_insert_eq|].
    apply HP. congruence.
  - apply (IH _ H l n); [by rewrite lookup_insert_ne|done].
Qed.

(** The same loop when [g] writes again what it wrote before: every node
    of the list ends as [g] of what it was. *)
Lemma forEach_rewrite_idem (g : node -> node) ns h h' :
  (forall n, g (g n) = g n) ->
  forEach (fun l h => n ← get h l; Ok (<[l := g n]> h)) ns h = Ok h' ->
  forall l n, l ∈ ns -> h !! l = Some n -> h' !! l = Some (g n).
Proof.
  intros Hidem. revert h. induction ns as [|a ns IH]; intros h; simpl.
  { by intros _ l n ?%elem_of_nil. }
  intros H. inv_bind H. inv_bind E. injection E as <-. apply get_Ok in E0.
  intros l n Hl Hn. destruct (decide (l ∈ ns)) as [Hin|Hnot].
  - destruct (decide (a = l)) as [<-|Hne].
    + rewrite (IH _ H a (g a1) Hin); [|by rewrite lookup_insert_eq].
      rewrite Hidem. congruence.
    + apply (IH _ H l n Hin). by rewrite lookup_insert_ne.
  - apply elem_of_cons in Hl as [->|Hl]; [|done].
    destruct (forEach_rewrite g (fun _ => True) ns _ _ (fun _ => I) H) as (_ & _ & Hout).
    rewrite Hout by done. rewrite lookup_insert_eq. congruence.
Qed.

Lemma forEach_rewrite_returns (g : node -> node) ns (h : gmap nat node) :
  (forall l, l ∈ ns -> is_Some (h !! l)) ->
  exists h', forEach (fun l h => n ← get h l; Ok (<[l := g n]> h)) ns h = Ok h'.
Proof.
  revert h. induction ns as [|a ns IH]; intros h Hin; simpl; [eauto|].
  destruct (Hin a ltac:(left)) as [na Ha]. rewrite (get_Some _ _ _ Ha).
  cbn [mbind res_bind]. apply IH. intros l Hl.
  destruct (decide (a = l)) as [<-|Hne]; [by rewrite lookup_insert_eq|].
  rewrite lookup_insert_ne by done. apply Hin. by right.
Qed.

(** ** The initial depth *)

(** The flag [setInitialTreeDepth] computes for a node. *)
Lemma setInitialTreeDepth_eq nodeSet d h :
  setInitialTreeDepth nodeSet d h
  = forEach (fun l h => n ← get h l; Ok (<[l := truncate d n]> h)) nodeSet h.
Proof. reflexivity. Qed.

(** X7.  [setInitialTreeDepth(nodeSet, initialDepth)] on nodes that are
    in the store returns; every node of the list ends with [_collapsed]
    true exactly when it has a depth and the depth is at least
    [initialDepth], whatever its flag was (a collapsed node above the cutoff
    is expanded), with all its other fields as they were; no node outside
    the list is touched. *)
Theorem setInitialTreeDepth_spec (nodeSet : list nat) (d : Qc) (h : gmap nat node) :
  (forall l, l ∈ nodeSet -> is_Some (h !! l)) ->
  exists h', setInitialTreeDepth nodeSet d h = Ok h' /\
    (forall l n, l ∈ nodeSet -> h !! l = Some n ->
       h' !! l = Some (set_collapsed
                         (match depth n with
                          | Some k => bool_decide (d <= Qc_of_nat k)%Qc
                          | None => false
                          end) n)) /\
    (forall l, l ∉ nodeSet -> h' !! l = h !! l).
Proof.
  intros Hin. rewrite setInitialTreeDepth_eq.
  destruct (forEach_rewrite_returns (truncate d) nodeSet h Hin) as [h' Hh'].
  exists h'. split; [done|]. split.
  - intros l n Hl Hn.
    by rewrite (forEach_rewrite_idem (truncate d) nodeSet h h' (fun _ => eq_refl) Hh' l n).
  - by destruct (forEach_rewrite (truncate d) (fun _ => True) nodeSet h h' (fun _ => I) Hh')
      as (_ & _ & Hout).
Qed.

Lemma setInitialTreeDepth_spec_witness :
  exists h', setInitialTreeDepth [0; 1] 1%Qc (objects (state sample_tree)) = Ok h' /\
             h' !! 2 = objects (state sample_tree) !! 2.
Proof.
  destruct (setInitialTreeDepth_spec [0; 1] 1%Qc (objects (state sample_tree)))
    as (h' & Hret & _ & Hout).
  - intros l [->|[->|[]%elem_of_nil]%elem_of_cons]%elem_of_cons; vm_compute; eauto.
  - exists h'. split; [exact Hret|]. apply Hout.
    intros [[=]|[[=]|[]%elem_of_nil]%elem_of_cons]%elem_of_cons.
Defined.

(** ** The depth axis *)

(** X8.  After a layout pass that returns, every node of the returned
    list has [y = depth * depthFactor] when [depthFactor] is set and not
    zero, and [y = depth * s] otherwise, where [s] is [nodeSize.x] in
    horizontal and [nodeSize.y] in vertical orientation (a [depthFactor] of
    zero counts as not set). *)
Theorem generateTree_depth_axis (t : Tree) (r : LayoutResult) (t' : Tree) :
  generateTree t = Ok (r, t') ->
  (layoutSize (props t)).2
  = match orientation (props t) with
    | horizontal => xy_x (nodeSize (props t))
    | vertical => xy_y (nodeSize (props t))
    end /\
  forall l, l ∈ nodes r ->
    exists n, objects (state t') !! l = Some n /\
      y n = (fun d => Qc_of_nat d * depthStep (props t))%Qc <$> depth n.
Proof.
  intros (rootNode & h1 & h2 & _ & Hn & _ & Hd & Hf & _)%generateTree_inv.
  split; [unfold layoutSize; by destruct (orientation (props t))|].
  set (P := fun s n => y n = (fun d => Qc_of_nat d * s)%Qc <$> depth n).
  assert (forall l, l ∈ nodes r ->
            exists n, h1 !! l = Some n /\ P (layoutSize (props t)).2 n) as H1.
  { unfold D3.nodes in Hn. inv_bind Hn. destruct a as [s h0]. inv_bind Hn. inv_bind Hn.
    injection Hn as <- <-.
    by destruct (forEach_rewrite
                   (fun n => set_y ((fun d => Qc_of_nat d * (layoutSize (props t)).2)%Qc
                                      <$> depth n)
                                   (set_x ((fun v => v * (layoutSize (props t)).1)%Qc <$> x n) n))
                   (P (layoutSize (props t)).2) _ _ _ (fun _ => eq_refl) E1)
      as (Hall & _). }
  assert (forall l, l ∈ nodes r ->
            exists n, h2 !! l = Some n /\ P (layoutSize (props t)).2 n) as H2.
  { intros l Hl. destruct (H1 l Hl) as (n & Hl1 & HP).
    destruct (initialDepth (props t)) as [d|]; [|injection Hd as <-; eauto].
    destruct (initialRender (internalState t)); [|injection Hd as <-; eauto].
    by eapply (forEach_rewrite_keeps (truncate d) (P (layoutSize (props t)).2)). }
  intros l Hl. unfold depthStep.
  destruct (depthFactor (props t)) as [f|]; [|injection Hf as <-; by apply H2].
  destruct (decide (f = 0%Qc)); [injection Hf as <-; by apply H2|].
  by destruct (forEach_rewrite
                 (fun n => set_y ((fun d => Qc_of_nat d * f)%Qc <$> depth n) n)
                 (P f) _ _ _ (fun _ => eq_refl) Hf) as (Hall & _);
    apply Hall.
Qed.

Lemma generateTree_depth_axis_witness :
  exists r t',
    generateTree sample_tree = Ok (r, t') /\
    forall l, l ∈ nodes r ->
      exists n, objects (state t') !! l = Some n /\
        y n = (fun d => Qc_of_nat d * depthStep (props sample_tree))%Qc <$> depth n.
Proof.
  destruct (generateTree sample_tree) as [[r t']|e] eqn:E; [|by vm_compute in E].
  exists r, t'. split; [reflexivity|].
  by destruct (generateTree_depth_axis sample_tree r t' E) as [_ H].
Defined.

(** ** Every state in the life of a component *)

Lemma map_seq_elem {A B} (f : A -> B) (g : nat -> B) (ls : list A) c k a :
  map f ls = map g (seq c k) -> a ∈ ls -> exists j, c <= j < c + k /\ f a = g j.
Proof.
  intros Heq Ha.
  assert (f a ∈ map g (seq c k)) as Hin.
  { rewrite <- Heq. apply list_elem_of_fmap. eauto. }
  apply list_elem_of_fmap in Hin as (j & -> & Hj). apply elem_of_seq in Hj. eauto.
Qed.

Lemma assign_component_inv uuid_v4 data c ls w t :
  Inj (=) (=) uuid_v4 ->
  assignInternalProperties uuid_v4 data (World ∅ c) = (ls, w) ->
  state t = {| state_data := ls; objects := objs w |} -> uuids t = drawn w ->
  component_inv uuid_v4 t /\
  (forall l, reachable (objects (state t)) (state_data (state t)) l ->
     exists n k, objects (state t) !! l = Some n /\ _collapsed n = false /\
                 c <= k /\ id n = uuid_v4 k).
Proof.
  intros Hinj Hassign Hstate Huuids.
  destruct (assignInternalProperties_correct _ _ _ _ _ Hassign) as (ts & <- & Ha & Hfr).
  pose proof Hfr as (Hnd & _ & _ & Hdrawn & Hids). simpl in Hdrawn.
  unfold component_inv. rewrite Hstate, Huuids. cbn [state_data objects].
  pose proof (Forall2_assigned_shaped _ _ _ Ha) as Hs.
  assert (forall l, l ∈ flocs ts ->
            exists n k, objs w !! l = Some n /\ _collapsed n = false /\
                        c <= k < drawn w /\ id n = uuid_v4 k) as Hall.
  { intros l Hl. destruct (map_seq_elem _ _ _ _ _ l Hids Hl) as (k & Hk & Hid).
    simpl in Hk. apply elem_of_flat_map in Hl as (s & Hsin & Hl).
    destruct (proj1 (list_elem_of_lookup _ _) Hsin) as [i Hi].
    destruct (Forall2_lookup_l _ _ _ _ _ Ha Hi) as (raw & _ & Hraw).
    destruct (assigned_node_facts _ _ _ l Hraw Hl) as (n & Hn & Hflag & _).
    exists n, k. unfold id_of in Hid. rewrite Hn in Hid. simpl in Hid.
    injection Hid as Hid. split_and!; [done|done|lia|lia|done]. }
  split.
  - exists ts. split_and!; [done|done|done|by eapply assign_frame_unique_ids|].
    intros l Hl. destruct (Hall l Hl) as (n & k & Hn & _ & Hk & Hid).
    exists k. split; [lia|]. unfold id_of. rewrite Hn. simpl. by f_equal.
  - intros l Hl%(reachable_flocs _ ts l Hs).
    destruct (Hall l Hl) as (n & k & Hn & Hflag & Hk & Hid).
    exists n, k. split_and!; [done|done|lia|done].
Qed.

Lemma component_inv_constructor uuid_v4 p :
  Inj (=) (=) uuid_v4 -> component_inv uuid_v4 (constructor uuid_v4 p).
Proof.
  intros Hinj. unfold constructor.
  destruct (assignInternalProperties uuid_v4 (data p) (World ∅ 0)) as [ls w] eqn:E.
  by eapply assign_component_inv.
Qed.

Lemma component_inv_same uuid_v4 t t' :
  state_data (state t') = state_data (state t) ->
  same_skeleton (objects (state t)) (objects (state t')) ->
  uuids t' = uuids t ->
  component_inv uuid_v4 t -> component_inv uuid_v4 t'.
Proof.
  intros Hd Hsk Hu (ts & Hroots & Hs & Hnd & Huniq & Hdrawn).
  exists ts. rewrite Hd, Hu. split_and!; [done| |done| |].
  - eapply Forall_impl; [exact Hs|]. intros s. apply shaped_ext.
    intros l _. by apply same_skeleton_kids.
  - by eapply unique_ids_skeleton.
  - intros l Hl. destruct (Hdrawn l Hl) as (k & Hk & Hid). exists k. split; [done|].
    unfold id_of in *. by rewrite (same_skeleton_id _ _ l Hsk).
Qed.

Lemma hover_result_state t t' nodeId evt :
  handleOnMouseOverCb nodeId evt t = Ok t' \/ handleOnMouseOutCb nodeId evt t = Ok t' ->
  state t' = state t /\ uuids t' = uuids t /\ internalState t' = internalState t
  /\ props t' = props t.
Proof.
  unfold handleOnMouseOverCb, handleOnMouseOutCb, clone.
  intros [H|H].
  - destruct (onMouseOver (props t)); [|by injection H as <-].
    inv_bind H. by injection H as <-.
  - destruct (onMouseOut (props t)); [|by injection H as <-].
    inv_bind H. by injection H as <-.
Qed.

Lemma render_inv t r g t' :
  render t = Ok (r, g, t') -> generateTree t = Ok (r, t').
Proof.
  unfold render. intros H. inv_bind H. destruct a as [r0 t0]. by injection H as <- <- <-.
Qed.

Lemma generateTree_uuids t r t' :
  generateTree t = Ok (r, t') -> uuids t' = uuids t /\ calls t' = calls t.
Proof.
  intros (rootNode & h1 & h2 & _ & _ & _ & _ & _ & Ht')%generateTree_inv.
  by rewrite Ht'.
Qed.

Lemma handleNodeToggle_uuids t nodeId evt t' :
  handleNodeToggle nodeId evt t = Ok t' ->
  uuids t' = uuids t /\ d3 (internalState t') = d3 (internalState t).
Proof.
  unfold handleNodeToggle, clone. intros H. inv_bind H.
  destruct (collapsible (props t)).
  - destruct (head a) as [l|]; [|done]. inv_bind H. inv_bind H. injection H as <-.
    unfold handleOnClickCb, setState, log. cbn. by destruct (onClick (props t)).
  - injection H as <-. unfold handleOnClickCb, log. by destruct (onClick (props t)).
Qed.

Lemma component_inv_step uuid_v4 t t' :
  Inj (=) (=) uuid_v4 ->
  step uuid_v4 t t' -> component_inv uuid_v4 t -> component_inv uuid_v4 t'.
Proof.
  intros Hinj Hstep Hinv. destruct Hstep as
    [t|t r g t' Hr|t|t|nextProps fresh_data t|nodeId evt t t' Hc
     |nodeId evt t t' Hh|nodeId evt t t' Hh].
  - done.
  - apply render_inv in Hr.
    destruct (generateTree_skeleton _ _ _ Hr) as (Hd & Hsk & _).
    eapply component_inv_same; [done|done| |done].
    by apply generateTree_uuids in Hr as [? _].
  - done.
  - unfold componentDidUpdate. by destruct (onUpdate (props t)).
  - unfold componentWillReceiveProps. destruct fresh_data; [|done].
    destruct (assignInternalProperties uuid_v4 (data nextProps) _) as [ls w] eqn:E.
    by eapply assign_component_inv.
  - destruct (handleNodeToggle_skeleton _ _ _ _ Hc) as (Hd & Hsk & _).
    eapply component_inv_same; [done|done| |done].
    by apply handleNodeToggle_uuids in Hc as [? _].
  - destruct (hover_result_state t t' nodeId evt (or_introl Hh)) as (Hst & Hu & _).
    eapply component_inv_same; [by rewrite Hst| |done|done]. rewrite Hst.
    apply same_skeleton_refl.
  - destruct (hover_result_state t t' nodeId evt (or_intror Hh)) as (Hst & Hu & _).
    eapply component_inv_same; [by rewrite Hst| |done|done]. rewrite Hst.
    apply same_skeleton_refl.
Qed.

Lemma component_inv_rtc uuid_v4 t t' :
  Inj (=) (=) uuid_v4 ->
  rtc (step uuid_v4) t t' -> component_inv uuid_v4 t -> component_inv uuid_v4 t'.
Proof. intros Hinj. induction 1; eauto using component_inv_step. Qed.

(** X9.  With a generator that never repeats, in every state a component
    reaches from its construction through lifecycle methods, layout passes,
    clicks and hovers, the nodes reached from [state.data] form finite
    trees that share no node, no two of them carry the same identifier, and
    [findNodesById(id, data, [])] returns the empty list or exactly one
    node. *)
Theorem component_inv_always (uuid_v4 : nat -> string) (p : Props) (t : Tree) :
  Inj (=) (=) uuid_v4 ->
  rtc (step uuid_v4) (constructor uuid_v4 p) t ->
  tree_inv (objects (state t)) (state_data (state t)) /\
  (forall l1 l2 n1 n2,
     reachable (objects (state t)) (state_data (state t)) l1 ->
     reachable (objects (state t)) (state_data (state t)) l2 ->
     objects (state t) !! l1 = Some n1 -> objects (state t) !! l2 = Some n2 ->
     id n1 = id n2 -> l1 = l2) /\
  (forall nodeId, exists hits,
     findNodesById (objects (state t)) nodeId (state_data (state t)) [] = Ok hits /\
     (hits = [] \/ exists l, hits = [l])).
Proof.
  intros Hinj Hsteps.
  destruct (component_inv_rtc _ _ _ Hinj Hsteps (component_inv_constructor _ p Hinj))
    as (ts & Hroots & Hs & Hnd & Huniq & _).
  assert (tree_inv (objects (state t)) (state_data (state t))) as Hinv.
  { exists ts. by split_and!. }
  split; [done|]. split.
  - intros l1 l2 n1 n2 H1 H2. rewrite Hroots in H1, H2.
    apply (reachable_flocs _ ts _ Hs) in H1, H2. by apply Huniq.
  - intros nodeId. rewrite Hroots. unfold findNodesById.
    rewrite findNodesById_fuel_spec by (done || by apply fuel_enough).
    eexists. split; [reflexivity|]. unfold keep.
    destruct (ssearch (objects (state t)) nodeId (Sh 0 ts)) as [|x xs] eqn:E; [by left|].
    right. exists x. rewrite <- E.
    assert (x ∈ ssearch (objects (state t)) nodeId (Sh 0 ts)) as [Hx Hidx]%ssearch_elem
      by (rewrite E; left).
    destruct (objects (state t) !! x) as [nx|] eqn:Hnx; [|done]. simpl in Hidx.
    eapply ssearch_unique; eauto. congruence.
Qed.

Lemma component_inv_always_witness :
  exists t,
    rtc (step sample_uuid) (constructor sample_uuid (defaultProps sample_data)) t /\
    initialRender (internalState t) = false /\
    tree_inv (objects (state t)) (state_data (state t)).
Proof.
  exists (componentDidMount (componentWillMount
                               (constructor sample_uuid (defaultProps sample_data)))).
  assert (rtc (step sample_uuid) (constructor sample_uuid (defaultProps sample_data))
              (componentDidMount (componentWillMount
                 (constructor sample_uuid (defaultProps sample_data))))) as Hsteps.
  { eapply rtc_l; [apply step_componentWillMount|].
    eapply rtc_l; [apply step_componentDidMount|apply rtc_refl]. }
  split; [exact Hsteps|]. split; [reflexivity|].
  exact (proj1 (component_inv_always sample_uuid (defaultProps sample_data) _
                  sample_uuid_inj Hsteps)).
Defined.

(** X10.  With a generator that never repeats, when a component in any
    state it can reach receives props with another data array, no node of
    the new tree carries an identifier a node of the old tree carried, every
    node of the new tree is expanded, and the props and the transform are
    the new ones. *)
Theorem componentWillReceiveProps_fresh_identifiers (uuid_v4 : nat -> string)
    (p nextProps : Props) (t : Tree) :
  Inj (=) (=) uuid_v4 ->
  rtc (step uuid_v4) (constructor uuid_v4 p) t ->
  let t' := componentWillReceiveProps uuid_v4 nextProps true t in
  (forall l n l' n',
     reachable (objects (state t)) (state_data (state t)) l ->
     objects (state t) !! l = Some n ->
     reachable (objects (state t')) (state_data (state t')) l' ->
     objects (state t') !! l' = Some n' -> id n <> id n') /\
  (forall l', reachable (objects (state t')) (state_data (state t')) l' ->
     exists n', objects (state t') !! l' = Some n' /\ _collapsed n' = false) /\
  props t' = nextProps /\ d3 (internalState t') = calculateD3Geometry nextProps.
Proof.
  intros Hinj Hsteps.
  destruct (component_inv_rtc _ _ _ Hinj Hsteps (component_inv_constructor _ p Hinj))
    as (ts & Hroots & Hs & _ & _ & Hdrawn).
  unfold componentWillReceiveProps.
  destruct (assignInternalProperties uuid_v4 (data nextProps) (World ∅ (uuids t)))
    as [ls w] eqn:E.
  cbn [state props internalState set_props set_internalState d3 state_data objects].
  destruct (assign_component_inv uuid_v4 (data nextProps) (uuids t) ls w
              {| props := props t; state := {| state_data := ls; objects := objs w |};
                 internalState := internalState t; uuids := drawn w; calls := calls t |}
              Hinj E eq_refl eq_refl) as [_ Hnew].
  cbn [state state_data objects] in Hnew. split_and!; [| |done|done].
  - intros l n l' n' Hl Hn Hl' Hn' Heq.
    rewrite Hroots in Hl. apply (reachable_flocs _ ts l Hs) in Hl.
    destruct (Hdrawn l Hl) as (k & Hk & Hid). unfold id_of in Hid. rewrite Hn in Hid.
    injection Hid as Hid.
    destruct (Hnew l' Hl') as (n0 & k' & Hn0 & _ & Hk' & Hid').
    assert (n0 = n') as -> by congruence.
    assert (k = k') by (apply Hinj; congruence). lia.
  - intros l' Hl'. destruct (Hnew l' Hl') as (n0 & k' & Hn0 & Hflag & _). eauto.
Qed.

Lemma componentWillReceiveProps_fresh_identifiers_witness :
  props (componentWillReceiveProps sample_uuid (defaultProps chain_data) true sample_tree)
  = defaultProps chain_data.
Proof.
  exact (proj1 (proj2 (proj2 (componentWillReceiveProps_fresh_identifiers
                                sample_uuid (defaultProps sample_data)
                                (defaultProps chain_data) sample_tree
                                sample_uuid_inj (rtc_refl _ _))))).
Defined.

(** ** The first render happens once *)

Lemma step_initialRender uuid_v4 t t' :
  step uuid_v4 t t' ->
  initialRender (internalState t) = false -> initialRender (internalState t') = false.
Proof.
  intros Hstep Hir. destruct Hstep as
    [t|t r g t' Hr|t|t|nextProps fresh_data t|nodeId evt t t' Hc
     |nodeId evt t t' Hh|nodeId evt t t' Hh].
  - done.
  - apply render_inv, generateTree_skeleton in Hr as (_ & _ & _ & Hi). by rewrite Hi.
  - done.
  - unfold componentDidUpdate. by destruct (onUpdate (props t)).
  - unfold componentWillReceiveProps. destruct fresh_data; [|done].
    by destruct (assignInternalProperties uuid_v4 (data nextProps) _).
  - by rewrite (handleNodeToggle_initialRender _ _ _ _ Hc).
  - destruct (hover_result_state t t' nodeId evt (or_introl Hh)) as (_ & _ & Hi & _).
    by rewrite Hi.
  - destruct (hover_result_state t t' nodeId evt (or_intror Hh)) as (_ & _ & Hi & _).
    by rewrite Hi.
Qed.

(** X11.  Once [componentDidMount] has run, no lifecycle method, layout
    pass, click or hover sets [initialRender] again, not even new props
    with new data: in every later state a layout pass returns the lists and
    leaves the state it would with [initialDepth] not set. *)
Theorem initialDepth_applies_once (uuid_v4 : nat -> string) (t0 t : Tree) :
  rtc (step uuid_v4) (componentDidMount t0) t ->
  initialRender (internalState t) = false /\
  layout_view (generateTree t)
  = layout_view (generateTree (set_props (set_initialDepth None (props t)) t)).
Proof.
  intros Hsteps.
  assert (initialRender (internalState t) = false) as Hir.
  { remember (componentDidMount t0) as t1 eqn:Ht1.
    assert (initialRender (internalState t1) = false) as Hir by by subst t1.
    clear Ht1. induction Hsteps as [|t1 t2 t3 Hstep _ IH]; [done|].
    by eapply IH, step_initialRender. }
  split; [done|]. by apply generateTree_after_mount.
Qed.

Lemma initialDepth_applies_once_witness :
  initialRender
    (internalState
       (componentWillReceiveProps sample_uuid
          (set_initialDepth (Some 1%Qc) (defaultProps chain_data)) true
          (componentDidMount sample_tree))) = false.
Proof.
  exact (proj1 (initialDepth_applies_once sample_uuid sample_tree _
                  (rtc_once _ _ (step_componentWillReceiveProps sample_uuid
                     (set_initialDepth (Some 1%Qc) (defaultProps chain_data)) true
                     (componentDidMount sample_tree))))).
Defined.

(** ** The transform that is rendered *)




(** ** A click and the update after it *)

(** X13.  With [collapsible] on, a click that returns followed by the
    update it causes: the clicked node is the first node the lookup
    returned; when [onUpdate] is supplied it is called once, after the
    layout pass, with that node, the scale and the translate, and
    [targetNode] is cleared; when it is not supplied nothing is called and
    [targetNode] keeps the node. *)
Theorem click_then_update (t : Tree) (nodeId : string) (evt : string)
    (t1 : Tree) (r : LayoutResult) (g : geometry) (t2 : Tree) :
  collapsible (props t) = true ->
  handleNodeToggle nodeId evt t = Ok t1 ->
  update t1 = Ok (r, g, t2) ->
  exists l rest,
    findNodesById (objects (state t)) nodeId (state_data (state t)) [] = Ok (l :: rest) /\
    targetNode (internalState t1) = Some l /\
    if onUpdate (props t)
    then targetNode (internalState t2) = None /\
         calls t2 = calls t1 ++ [call_onUpdate (Some l) (objects (state t2))
                                   (d3_scale g) (d3_translate g)]
    else targetNode (internalState t2) = Some l /\ calls t2 = calls t1.
Proof.
  intros Hc Hclick Hupd.
  pose proof (handleNodeToggle_skeleton _ _ _ _ Hclick) as (_ & _ & Hp1).
  unfold handleNodeToggle, clone in Hclick. inv_bind Hclick. rewrite Hc in Hclick.
  destruct a as [|l rest]; [done|]. cbn [head] in Hclick.
  inv_bind Hclick. inv_bind Hclick. injection Hclick as Ht1.
  assert (targetNode (internalState t1) = Some l) as Htarget by by rewrite <- Ht1.
  exists l, rest. split; [done|]. split; [done|].
  clear E0 E1 Ht1. unfold update, render in Hupd. inv_bind Hupd.
  match type of Hupd with context [match ?u with _ => _ end] =>
    destruct u as [[r0 g0] t3] end.
  match goal with H : generateTree t1 ≫= _ = _ |- _ => rename H into Hgen end.
  inv_bind Hgen.
  match type of Hgen with context [match ?u with _ => _ end] =>
    destruct u as [r1 t4] end.
  injection Hgen as <- <- <-. injection Hupd as <- <- <-.
  match goal with H : generateTree t1 = _ |- _ => rename H into Hgen end.
  pose proof (generateTree_skeleton _ _ _ Hgen) as (_ & _ & Hp & Hi).
  destruct (generateTree_uuids _ _ _ Hgen) as [_ Hcalls].
  unfold componentDidUpdate. rewrite Hp, Hp1.
  destruct (onUpdate (props t)).
  - cbn. rewrite Hi, Htarget, Hcalls. by split.
  - rewrite Hi, Hcalls. by split.
Qed.

Lemma click_then_update_witness :
  exists t1 r g t2,
    handleNodeToggle "0" "click" sample_tree = Ok t1 /\
    update t1 = Ok (r, g, t2) /\
    targetNode (internalState t1) = Some 0.
Proof.
  destruct (handleNodeToggle "0" "click" sample_tree) as [t1|e] eqn:E1;
    [|by vm_compute in E1].
  destruct (update t1) as [[[r g] t2]|e] eqn:E2.
  - exists t1, r, g, t2. split; [reflexivity|]. split; [exact E2|].
    destruct (click_then_update sample_tree "0" "click" t1 r g t2 eq_refl E1 E2)
      as (l & rest & Hfind & Htarget & _).
    vm_compute in Hfind. injection Hfind as <- <-. exact Htarget.
  - exfalso. vm_compute in E1. injection E1 as <-. by vm_compute in E2.
Defined.

(** ** What a layout pass returns *)

Lemma layout_blind_childrenFn : layout_blind childrenFn.
Proof. by split_and!. Qed.

Lemma shown_same_on h h' p c :
  same_on childrenFn h h' -> shown h p c -> shown h' p c.
Proof.
  intros Hsame (n & Hn & Hc). specialize (Hsame p). rewrite Hn in Hsame.
  destruct (h' !! p) as [n'|] eqn:Hn'; [|done]. simpl in Hsame.
  exists n'. split; [done|]. congruence.
Qed.

Lemma same_on_sym {A} (f : node -> A) h h' : same_on f h h' -> same_on f h' h.
Proof. intros H l. by rewrite H. Qed.

Lemma visible_same_on h h' r d :
  same_on childrenFn h h' -> visible h r d <-> visible h' r d.
Proof.
  intros Hsame. split; (induction 1 as [|x y z Hxy _ IH]; [apply rtc_refl|]);
    (eapply rtc_l; [|exact IH]).
  - by eapply shown_same_on.
  - eapply shown_same_on; [|exact Hxy]. by apply same_on_sym.
Qed.

Lemma mapM_visit_visible (f : nat -> gmap nat node -> res (shape * gmap nat node)) cs :
  (forall l h s h', f l h = Ok (s, h') ->
     same_on childrenFn h h' /\ sroot s = l /\ forall d, d ∈ slocs s <-> visible h l d) ->
  forall h ks h', mapM_S f cs h = Ok (ks, h') ->
    map sroot ks = cs /\
    forall d, d ∈ flocs ks <-> exists c, c ∈ cs /\ visible h c d.
Proof.
  intros Hf. induction cs as [|c cs IH]; intros h ks h'; simpl.
  { intros [= <- <-]. split; [done|]. intros d. split.
    - by intros ?%elem_of_nil.
    - by intros (c & ?%elem_of_nil & _). }
  intros H. inv_bind H. destruct a as [s h1]. inv_bind H. destruct a as [ks' h2].
  injection H as <- <-.
  destruct (Hf _ _ _ _ E) as (Hsame & Hroot & Hs).
  destruct (IH _ _ _ E0) as (Hroots & Hks).
  split; [simpl; by rewrite Hroot, Hroots|].
  intros d. unfold flocs. simpl. rewrite elem_of_app. fold (flocs ks'). rewrite Hs, Hks.
  split.
  - intros [Hd|(c' & Hc' & Hd)].
    + exists c. split; [left|done].
    + exists c'. split; [by right|]. by apply (visible_same_on h h1).
  - intros (c' & [->|Hc']%elem_of_cons & Hd); [by left|].
    right. exists c'. split; [done|]. by apply (visible_same_on h h1).
Qed.

Lemma visit_visible fuel l h s h' :
  D3.visit fuel childrenFn l h = Ok (s, h') ->
  same_on childrenFn h h' /\ sroot s = l /\ forall d, d ∈ slocs s <-> visible h l d.
Proof.
  revert l h s h'. induction fuel as [|fuel IH]; intros l h s h' H; [done|].
  split; [eapply visit_same_on, H; apply layout_blind_childrenFn|].
  simpl in H. inv_bind H. apply get_Ok in E.
  destruct (nonempty (childrenFn a)) eqn:Hne.
  - inv_bind H. inv_bind H. inv_bind H. destruct a2 as [ks h3].
    injection H as <- <-. split; [done|].
    assert (same_on childrenFn h (<[l:=set_children (childrenFn a) a1]> a0)) as Hsame.
    { apply (same_on_trans _ h a0).
      - eapply forEach_same_on; [|exact E0].
        intros c h1 h2 Hc. inv_bind Hc. injection Hc as <-.
        eapply same_on_insert; [exact (get_Ok _ _ _ E3)|done].
      - eapply same_on_insert; [exact (get_Ok _ _ _ E1)|done]. }
    destruct (mapM_visit_visible _ _ IH _ _ _ E2) as (Hroots & Hks).
    intros d. simpl. rewrite elem_of_cons. fold (flocs ks). rewrite Hks. split.
    + intros [->|(c & Hc & Hd)]; [apply rtc_refl|].
      eapply rtc_l; [by exists a|]. by apply (visible_same_on h _ c d Hsame).
    + intros [<-|(c & (n & Hn & Hc) & Hd)]%rtc_inv; [by left|].
      right. exists c. split; [congruence|]. by apply (visible_same_on h _ c d Hsame).
  - injection H as <- <-. split; [done|]. intros d. simpl. rewrite elem_of_cons. split.
    + intros [->|?%elem_of_nil]; [apply rtc_refl|done].
    + intros [<-|(c & (n & Hn & Hc) & Hd)]%rtc_inv; [by left|].
      assert (n = a) as -> by congruence.
      rewrite (nonempty_false_entries _ Hne) in Hc. by apply elem_of_nil in Hc.
Qed.

Lemma nodes_visible size separation root h ns h' :
  D3.nodes size separation childrenFn root h = Ok (ns, h') ->
  head ns = Some root /\ forall d, d ∈ ns <-> visible h root d.
Proof.
  unfold D3.nodes. intros H. inv_bind H. destruct a as [s h1]. inv_bind H. inv_bind H.
  injection H as <- <-. unfold D3.hierarchy in E. inv_bind E.
  destruct (visit_visible _ _ _ _ _ E) as (_ & Hroot & Hs).
  split; [destruct s; simpl in *; by subst|].
  intros d. rewrite Hs. symmetry. apply visible_same_on.
  eapply same_on_insert; [exact (get_Ok _ _ _ E2)|done].
Qed.

(** X14.  A layout pass that returns lists exactly the visible nodes: the
    root [state.data[0]] first, and a node if and only if it is reached from
    the root through [_children] of nodes that are not collapsed.  Nothing
    below a collapsed node is listed, whatever its own flag. *)
Theorem generateTree_nodes_visible (t : Tree) (r : LayoutResult) (t' : Tree) :
  generateTree t = Ok (r, t') ->
  exists root,
    head (state_data (state t)) = Some root /\ head (nodes r) = Some root /\
    forall d, d ∈ nodes r <-> visible (objects (state t)) root d.
Proof.
  intros (rootNode & h1 & h2 & Hhead & Hn & _)%generateTree_inv.
  exists rootNode. split; [done|]. by apply nodes_visible in Hn.
Qed.

Lemma generateTree_nodes_visible_witness :
  exists r t',
    generateTree sample_tree = Ok (r, t') /\ head (nodes r) = Some 0.
Proof.
  destruct (generateTree sample_tree) as [[r t']|e] eqn:E; [|by vm_compute in E].
  exists r, t'. split; [reflexivity|].
  destruct (generateTree_nodes_visible sample_tree r t' E) as (root & Hroot & Hhd & _).
  vm_compute in Hroot. by injection Hroot as <-.
Defined.

(** ** The links of a layout pass *)

Lemma shown_children_same h h' d :
  same_on childrenFn h h' -> shown_children <$> h' !! d = shown_children <$> h !! d.
Proof.
  intros Hsame. specialize (Hsame d).
  destruct (h' !! d) as [n'|], (h !! d) as [n|];
    cbn [fmap option_fmap option_map] in *; try done.
  injection Hsame as Hsame. unfold shown_children. by rewrite Hsame.
Qed.

Lemma entries_shown_children n : entries (shown_children n) = entries (childrenFn n).
Proof.
  unfold shown_children. destruct (nonempty (childrenFn n)) eqn:Hne; [done|].
  by rewrite (nonempty_false_entries _ Hne).
Qed.

Lemma children_kept_or_set_refl h : children_kept_or_set h h.
Proof. split; [apply same_on_refl|]. by left. Qed.

Lemma children_kept_or_set_trans h1 h2 h3 :
  children_kept_or_set h1 h2 -> children_kept_or_set h2 h3 -> children_kept_or_set h1 h3.
Proof.
  intros [Hs12 H12] [Hs23 H23]. split; [by eapply same_on_trans|].
  intros d. destruct (H23 d) as [Hk|Hset].
  - destruct (H12 d) as [Hk'|Hset']; [left; congruence|right].
    unfold children_set in *. congruence.
  - right. unfold children_set in *. rewrite Hset. by apply shown_children_same.
Qed.

Lemma children_kept_insert (h : gmap nat node) l n n' :
  h !! l = Some n -> childrenFn n' = childrenFn n -> children n' = children n ->
  children_kept_or_set h (<[l := n']> h).
Proof.
  intros Hl Hf Hc. split; [by eapply same_on_insert|].
  intros d. left. destruct (decide (l = d)) as [<-|Hne].
  - rewrite lookup_insert_eq, Hl. simpl. by rewrite Hc.
  - by rewrite lookup_insert_ne.
Qed.

Lemma children_set_insert (h : gmap nat node) l n n' :
  h !! l = Some n -> childrenFn n' = childrenFn n -> children n' = shown_children n ->
  children_kept_or_set h (<[l := n']> h) /\ children_set h (<[l := n']> h) l.
Proof.
  intros Hl Hf Hc.
  assert (children_set h (<[l := n']> h) l) as Hset.
  { unfold children_set. rewrite lookup_insert_eq, Hl. simpl. by rewrite Hc. }
  split; [|done]. split; [by eapply same_on_insert|].
  intros d. destruct (decide (l = d)) as [<-|Hne]; [by right|].
  left. by rewrite lookup_insert_ne.
Qed.

Lemma children_set_after h h1 h2 d :
  same_on childrenFn h h1 ->
  children_set h h1 d -> children_kept_or_set h1 h2 -> children_set h h2 d.
Proof.
  intros Hsame Hset [_ H12]. unfold children_set in *.
  destruct (H12 d) as [Hk|Hset']; [congruence|].
  unfold children_set in Hset'. rewrite Hset'. by apply shown_children_same.
Qed.

Lemma children_set_before h h1 h2 d :
  children_kept_or_set h h1 -> children_set h1 h2 d -> children_set h h2 d.
Proof.
  intros [Hsame _] Hset. unfold children_set in *. rewrite Hset.
  by apply shown_children_same.
Qed.

Lemma mapM_visit_children (f : nat -> gmap nat node -> res (shape * gmap nat node)) cs :
  (forall l h s h', f l h = Ok (s, h') ->
     children_kept_or_set h h' /\ forall d, d ∈ slocs s -> children_set h h' d) ->
  forall h ks h', mapM_S f cs h = Ok (ks, h') ->
    children_kept_or_set h h' /\ forall d, d ∈ flocs ks -> children_set h h' d.
Proof.
  intros Hf. induction cs as [|c cs IH]; intros h ks h'; simpl.
  { intros [= <- <-]. split; [apply children_kept_or_set_refl|].
    by intros d ?%elem_of_nil. }
  intros H. inv_bind H. destruct a as [s h1]. inv_bind H. destruct a as [ks' h2].
  injection H as <- <-.
  destruct (Hf _ _ _ _ E) as (Hk1 & Hs).
  destruct (IH _ _ _ E0) as (Hk2 & Hks).
  split; [by eapply children_kept_or_set_trans|].
  intros d. unfold flocs. simpl. rewrite elem_of_app. fold (flocs ks').
  intros [Hd|Hd].
  - eapply children_set_after; [apply Hk1|by apply Hs|done].
  - eapply children_set_before; [done|by apply Hks].
Qed.

Lemma visit_children fuel l h s h' :
  D3.visit fuel childrenFn l h = Ok (s, h') ->
  children_kept_or_set h h' /\ forall d, d ∈ slocs s -> children_set h h' d.
Proof.
  revert l h s h'. induction fuel as [|fuel IH]; intros l h s h' H; [done|].
  simpl in H. inv_bind H. apply get_Ok in E.
  destruct (nonempty (childrenFn a)) eqn:Hne.
  - inv_bind H. inv_bind H. inv_bind H. destruct a2 as [ks h3].
    injection H as <- <-. apply get_Ok in E1.
    assert (children_kept_or_set h a0) as Hk0.
    { apply (forEach_preserves children_kept_or_set) in E0; [done|..].
      - intros ?. apply children_kept_or_set_refl.
      - intros ???. apply children_kept_or_set_trans.
      - intros c h1 h2 Hc. inv_bind Hc. injection Hc as <-.
        by eapply children_kept_insert; [exact (get_Ok _ _ _ E3)|..]. }
    assert (childrenFn a1 = childrenFn a) as Hacc.
    { destruct Hk0 as [Hsame _]. specialize (Hsame l). rewrite E, E1 in Hsame.
      by injection Hsame. }
    destruct (children_set_insert a0 l a1 (set_children (childrenFn a) a1) E1 eq_refl)
      as [Hk1 Hset1].
    { unfold shown_children. rewrite Hacc, Hne. done. }
    destruct (mapM_visit_children _ _ IH _ _ _ E2) as (Hk2 & Hks).
    assert (children_kept_or_set h (<[l:=set_children (childrenFn a) a1]> a0)) as Hk01
      by by eapply children_kept_or_set_trans.
    split; [by eapply children_kept_or_set_trans|].
    intros d. simpl. rewrite elem_of_cons. fold (flocs ks). intros [->|Hd].
    + eapply children_set_after; [apply Hk01| |exact Hk2].
      exact (children_set_before h a0 _ l Hk0 Hset1).
    + eapply children_set_before; [exact Hk01|by apply Hks].
  - injection H as <- <-.
    destruct (children_set_insert h l a (set_children None a) E eq_refl) as [Hk Hset].
    { unfold shown_children. by rewrite Hne. }
    split; [done|]. intros d. simpl. rewrite elem_of_cons.
    intros [->|?%elem_of_nil]; done.
Qed.

Lemma position_blind_children : position_blind children.
Proof. by split. Qed.

Lemma nodes_children size separation root h ns h' :
  D3.nodes size separation childrenFn root h = Ok (ns, h') ->
  forall d, d ∈ ns -> children_set h h' d.
Proof.
  unfold D3.nodes. intros H. inv_bind H. destruct a as [s h1]. inv_bind H. inv_bind H.
  injection H as <- <-. unfold D3.hierarchy in E. inv_bind E.
  destruct (visit_children _ _ _ _ _ E) as (Hk & Hs).
  intros d Hd.
  assert (children_set h h1 d) as Hset.
  { eapply children_set_before; [|by apply Hs].
    by eapply children_kept_insert; [exact (get_Ok _ _ _ E2)|..]. }
  unfold children_set in *. rewrite <- Hset.
  trans (children <$> a !! d).
  - eapply sizeNode_same_on, E1. apply position_blind_children.
  - eapply walk_same_on, E0. apply position_blind_children.
Qed.

Lemma links_spec ns h ls :
  D3.links ns h = Ok ls ->
  forall p c, (p, c) ∈ ls <->
    p ∈ ns /\ exists n, h !! p = Some n /\ c ∈ entries (children n).
Proof.
  unfold D3.links. intros H.
  enough (forall acc, forEach (fun p ls => n ← get h p;
                                 Ok (ls ++ map (fun c => (p, c)) (entries (children n))))
                              ns acc = Ok ls ->
          forall p c, (p, c) ∈ ls <->
            (p, c) ∈ acc \/
            (p ∈ ns /\ exists n, h !! p = Some n /\ c ∈ entries (children n))) as Hgen.
  { intros p c. rewrite (Hgen [] H p c). split; [|by right].
    by intros [?%elem_of_nil|?]. }
  clear H. induction ns as [|q ns IH]; intros acc; simpl.
  { intros [= <-] p c. split; [by left|]. by intros [?|[?%elem_of_nil _]]. }
  intros H p c. inv_bind H. inv_bind E. injection E as <-. apply get_Ok in E0.
  rewrite (IH _ H p c), elem_of_app, list_elem_of_fmap, elem_of_cons. split.
  - intros [[?|(c' & [= -> ->] & Hc)]|[Hp Hn]]; [by left| |right; split; [by right|done]].
    right. split; [by left|eauto].
  - intros [?|[[->|Hp] (n & Hn & Hc)]].
    + left. by left.
    + left. right. exists c. split; [done|congruence].
    + right. split; [done|eauto].
Qed.

(** X15.  A layout pass that returns lists exactly the links between
    visible nodes: [(p, c)] is a link if and only if [p] is visible, is not
    collapsed and has [c] among its [_children].  Both ends of every link
    are among the listed nodes. *)
Theorem generateTree_links_visible (t : Tree) (r : LayoutResult) (t' : Tree) :
  generateTree t = Ok (r, t') ->
  exists root,
    head (state_data (state t)) = Some root /\
    (forall p c, (p, c) ∈ links r <->
       visible (objects (state t)) root p /\ shown (objects (state t)) p c) /\
    (forall p c, (p, c) ∈ links r -> p ∈ nodes r /\ c ∈ nodes r).
Proof.
  intros (rootNode & h1 & h2 & Hhead & Hn & Hl & _)%generateTree_inv.
  exists rootNode. split; [done|].
  destruct (nodes_visible _ _ _ _ _ _ Hn) as [_ Hvis].
  pose proof (nodes_children _ _ _ _ _ _ Hn) as Hset.
  assert (forall p c, (p, c) ∈ links r <->
            visible (objects (state t)) rootNode p /\ shown (objects (state t)) p c)
    as Hlinks.
  { intros p c. rewrite (links_spec _ _ _ Hl p c), Hvis.
    split; intros [Hp Hc]; (split; [done|]); specialize (Hset p (proj2 (Hvis p) Hp));
      unfold children_set in Hset.
    - destruct Hc as (n1 & Hn1 & Hc). rewrite Hn1 in Hset.
      destruct (objects (state t) !! p) as [n|] eqn:Hp0; [|done].
      injection Hset as Hset. exists n. split; [done|].
      by rewrite <- entries_shown_children, <- Hset.
    - destruct Hc as (n & Hn0 & Hc). rewrite Hn0 in Hset.
      destruct (h1 !! p) as [n1|] eqn:Hp1; [|done].
      injection Hset as Hset. exists n1. split; [done|].
      by rewrite Hset, entries_shown_children. }
  split; [done|]. intros p c [Hp Hc]%Hlinks. rewrite !Hvis. split; [done|].
  eapply rtc_r; [exact Hp|exact Hc].
Qed.

Lemma generateTree_links_visible_witness :
  exists r t',
    generateTree sample_tree = Ok (r, t') /\
    forall p c, (p, c) ∈ links r -> p ∈ nodes r /\ c ∈ nodes r.
Proof.
  destruct (generateTree sample_tree) as [[r t']|e] eqn:E; [|by vm_compute in E].
  exists r, t'. split; [reflexivity|].
  by destruct (generateTree_links_visible sample_tree r t' E) as (root & _ & _ & H).
Defined.

(** ** The flags the first pass leaves *)

(** X16.  The first layout pass ([initialRender] still true) with
    [initialDepth] set, when it returns, leaves every listed node with
    [_collapsed] true exactly when its depth is at least [initialDepth]:
    listed nodes above the cutoff end expanded, those at or below it end
    collapsed, although the pass has listed them. *)
Theorem generateTree_first_pass_flags (t : Tree) (d : Qc) (r : LayoutResult)
    (t' : Tree) :
  initialRender (internalState t) = true ->
  initialDepth (props t) = Some d ->
  generateTree t = Ok (r, t') ->
  forall l, l ∈ nodes r ->
    exists n, objects (state t') !! l = Some n /\
      _collapsed n = match depth n with
                     | Some k => bool_decide (d <= Qc_of_nat k)%Qc
                     | None => false
                     end.
Proof.
  intros Hir Hd (rootNode & h1 & h2 & _ & _ & _ & Hflags & Hf & _)%generateTree_inv.
  rewrite Hd, Hir in Hflags.
  set (P := fun n => _collapsed n = match depth n with
                                    | Some k => bool_decide (d <= Qc_of_nat k)%Qc
                                    | None => false
                                    end).
  destruct (forEach_rewrite (truncate d) P (nodes r) h1 h2 (fun _ => eq_refl) Hflags)
    as (Hall & _).
  intros l Hl. destruct (Hall l Hl) as (n & Hn & HP).
  destruct (depthFactor (props t)) as [f|]; [|injection Hf as <-; eauto].
  destruct (decide (f = 0%Qc)); [injection Hf as <-; eauto|].
  by eapply (forEach_rewrite_keeps
               (fun n => set_y ((fun k => Qc_of_nat k * f)%Qc <$> depth n) n) P).
Qed.

Lemma generateTree_first_pass_flags_witness :
  exists r t',
    generateTree (constructor sample_uuid
                    (set_initialDepth (Some 1%Qc) (defaultProps chain_data)))
    = Ok (r, t') /\
    forall l, l ∈ nodes r ->
      exists n, objects (state t') !! l = Some n /\
        _collapsed n = match depth n with
                       | Some k => bool_decide (1 <= Qc_of_nat k)%Qc
                       | None => false
                       end.
Proof.
  destruct (generateTree (constructor sample_uuid
                            (set_initialDepth (Some 1%Qc) (defaultProps chain_data))))
    as [[r t']|e] eqn:E; [|by vm_compute in E].
  exists r, t'. split; [reflexivity|].
  exact (generateTree_first_pass_flags
           (constructor sample_uuid (set_initialDepth (Some 1%Qc) (defaultProps chain_data)))
           1%Qc r t' eq_refl eq_refl E).
Defined.

(** ** Every node of a tree has one parent *)

Lemma flocs_fedges ts : flocs ts ≡ₚ map sroot ts ++ map snd (fedges ts).
Proof.
  unfold flocs, fedges. induction ts as [|t ts IHts]; [done|].
  assert (slocs t ≡ₚ sroot t :: map snd (edges t)) as Ht.
  { clear. induction t as [l ks IH] using shape_ind'. simpl. f_equiv.
    rewrite map_app, map_map. simpl.
    induction IH as [|k ks Hk _ IHks]; simpl; [done|].
    rewrite Hk, IHks, map_app. simpl. f_equiv.
    rewrite !(assoc (++)). f_equiv. apply (comm (++)). }
  simpl. rewrite Ht, IHts, map_app. simpl. f_equiv.
  rewrite !(assoc (++)). f_equiv. apply (comm (++)).
Qed.

Lemma edges_subshape s p d :
  (p, d) ∈ edges s <->
  exists s', s' ∈ subshapes s /\ sroot s' = p /\ d ∈ map sroot (kids s').
Proof.
  induction s as [l ks IH] using shape_ind'. simpl. rewrite elem_of_app. split.
  - intros [Hin|Hin].
    + apply list_elem_of_fmap in Hin as (k & [= -> ->] & Hk).
      exists (Sh l ks). split; [left|]. split; [done|]. simpl.
      apply list_elem_of_fmap. eauto.
    + apply elem_of_flat_map in Hin as (k & Hk & Hin).
      rewrite Forall_forall in IH. apply (IH _ Hk) in Hin as (s' & Hs' & Hroot & Hd).
      exists s'. split; [|done]. right. apply elem_of_flat_map. eauto.
  - intros (s' & [->|Hs']%elem_of_cons & Hroot & Hd).
    + left. simpl in *. subst. apply list_elem_of_fmap in Hd as (k & -> & Hk).
      apply list_elem_of_fmap. eauto.
    + right. apply elem_of_flat_map in Hs' as (k & Hk & Hs').
      apply elem_of_flat_map. exists k. split; [done|].
      rewrite Forall_forall in IH. apply (IH _ Hk). eauto.
Qed.

Lemma fedges_child h ts p d :
  Forall (shaped h) ts ->
  (p, d) ∈ fedges ts <-> p ∈ flocs ts /\ child h p d.
Proof.
  intros Hs. rewrite Forall_forall in Hs. unfold fedges, flocs.
  rewrite !elem_of_flat_map. split.
  - intros (t & Ht & (s' & Hs' & <- & Hd)%edges_subshape).
    destruct (subshapes_spec h t s' Hs' (Hs _ Ht)) as (Hsh & Hin & _).
    split; [exists t; split; [done|apply Hin, sroot_in_slocs]|].
    destruct s' as [l ks]. apply shaped_inv in Hsh as (n & Hl & Hk & _).
    exists n. split; [done|]. by rewrite Hk.
  - intros [(t & Ht & Hp) (n & Hn & Hd)]. exists t. split; [done|].
    rewrite slocs_subshapes in Hp. apply list_elem_of_fmap in Hp as (s' & -> & Hs').
    apply edges_subshape. exists s'. split; [done|]. split; [done|].
    destruct (subshapes_spec h t s' Hs' (Hs _ Ht)) as (Hsh & _).
    destruct s' as [l ks]. apply shaped_inv in Hsh as (n' & Hl & Hk & _).
    simpl in *. rewrite <- Hk. congruence.
Qed.

Lemma forest_root_no_parent h ts p d :
  Forall (shaped h) ts -> NoDup (flocs ts) ->
  p ∈ flocs ts -> child h p d -> d ∉ map sroot ts.
Proof.
  intros Hs Hnd Hp Hc Hd. rewrite flocs_fedges in Hnd.
  apply NoDup_app in Hnd as (_ & Hdisj & _). apply (Hdisj d Hd).
  apply list_elem_of_fmap. exists (p, d). split; [done|]. by apply (fedges_child h).
Qed.

Lemma forest_unique_parent h ts p q d :
  Forall (shaped h) ts -> NoDup (flocs ts) ->
  p ∈ flocs ts -> q ∈ flocs ts -> child h p d -> child h q d -> p = q.
Proof.
  intros Hs Hnd Hp Hq Hcp Hcq. rewrite flocs_fedges in Hnd.
  apply NoDup_app in Hnd as (_ & _ & Hnd).
  assert ((p, d) = (q, d)) as [= ->]; [|done].
  apply (NoDup_map_inj snd (fedges ts)); [done| | |done]; by apply (fedges_child h).
Qed.

(** ** A click and the layout after it *)

Lemma shown_child h p c : shown h p c -> child h p c.
Proof.
  intros (n & Hn & Hc). exists n. split; [done|].
  unfold childrenFn in Hc. destruct (_collapsed n); [by apply elem_of_nil in Hc|done].
Qed.

Lemma visible_descendant h r d : visible h r d -> descendant h r d.
Proof.
  induction 1 as [|x y z Hxy _ IH]; [apply rtc_refl|].
  eapply rtc_l; [by apply shown_child|done].
Qed.

(** What the children accessor yields after [expandNode]. *)
Lemma shown_expand (h : gmap nat node) l n p c :
  h !! l = Some n ->
  shown (<[l := set_collapsed false n]> h) p c <->
  shown h p c \/ (p = l /\ c ∈ entries (_children n)).
Proof.
  intros Hl. unfold shown. destruct (decide (l = p)) as [<-|Hne].
  - rewrite lookup_insert_eq. split.
    + intros (n' & [= <-] & Hc). right. by split.
    + intros [(n' & Hn' & Hc)|[_ Hc]]; (eexists; split; [done|]); [|done].
      assert (n' = n) as -> by congruence. unfold childrenFn in Hc.
      destruct (_collapsed n); [by apply elem_of_nil in Hc|done].
  - rewrite lookup_insert_ne by done. split; [by left|].
    by intros [?|[-> _]].
Qed.

Lemma visible_expand (h : gmap nat node) l n r d :
  h !! l = Some n -> _collapsed n = true ->
  visible (<[l := set_collapsed false n]> h) r d <->
  visible h r d \/
  (visible h r l /\ exists c, c ∈ entries (_children n) /\ visible h c d).
Proof.
  intros Hl Hflag. split.
  - induction 1 as [x|x y z Hxy _ IH]; [left; apply rtc_refl|].
    apply (shown_expand h l n x y Hl) in Hxy as [Hxy|[-> Hy]].
    + destruct IH as [IH|(IH & c & Hc & Hd)].
      * left. by eapply rtc_l.
      * right. split; [by eapply rtc_l|eauto].
    + right. split; [apply rtc_refl|].
      destruct IH as [IH|(_ & c & Hc & Hd)]; eauto.
  - assert (forall x y, visible h x y -> visible (<[l := set_collapsed false n]> h) x y)
      as Hmono.
    { intros x y. induction 1 as [|x y z Hxy _ IH]; [apply rtc_refl|].
      eapply rtc_l; [|exact IH]. apply (shown_expand h l n x y Hl). by left. }
    intros [Hd|(Hrl & c & Hc & Hd)]; [by apply Hmono|].
    etrans; [by apply Hmono|]. eapply rtc_l; [|by apply Hmono].
    apply (shown_expand h l n l c Hl). right. by split.
Qed.

(** What the children accessor yields after [collapseNode]. *)
Lemma shown_collapse h ls p c :
  shown (collapse_all ls h) p c <-> shown h p c /\ p ∉ ls.
Proof.
  unfold shown. rewrite collapse_all_lookup. destruct (decide (p ∈ ls)) as [Hin|Hnot].
  - split; [|by intros [_ ?]]. intros (n & Hn & Hc).
    destruct (h !! p) as [n0|]; [|done]. injection Hn as <-.
    by apply elem_of_nil in Hc.
  - split; [by intros ?|by intros [? _]].
Qed.

Lemma visible_collapse h ts s r d :
  Forall (shaped h) ts -> NoDup (flocs ts) ->
  r ∈ map sroot ts -> sroot s ∈ flocs ts -> shaped h s -> NoDup (slocs s) ->
  visible (collapse_all (slocs s) h) r d <->
  visible h r d /\ ~ (descendant h (sroot s) d /\ d <> sroot s).
Proof.
  intros Hs Hnd Hr Hl Hsh Hnds.
  assert (forall x, descendant h (sroot s) x -> x ∈ flocs ts) as Hin.
  { intros x Hx. apply (reachable_flocs h ts x Hs).
    apply (reachable_flocs h ts _ Hs) in Hl as (r0 & Hr0 & Hd0).
    exists r0. split; [done|]. by etrans. }
  assert (forall x, visible h r x -> x ∈ flocs ts) as Hvin.
  { intros x Hx%visible_descendant. apply (reachable_flocs h ts x Hs). by exists r. }
  split.
  - revert d. apply (rtc_ind_r (fun d => visible h r d /\
                                  ~ (descendant h (sroot s) d /\ d <> sroot s))).
    + split; [apply rtc_refl|]. intros [Hd Hne].
      apply rtc_inv_r in Hd as [?|(q & Hq & Hc)]; [done|].
      by apply (forest_root_no_parent h ts q r Hs Hnd (Hin q Hq) Hc).
    + intros p z _ [Hp Hz]%shown_collapse [IH1 IH2]. split.
      { eapply rtc_r; [exact IH1|exact Hp]. }
      intros [Hd Hne]. apply rtc_inv_r in Hd as [?|(q & Hq & Hc)]; [done|].
      assert (p = q) as ->.
      { apply (forest_unique_parent h ts p q z Hs Hnd); [by apply Hvin|by apply Hin| |done].
        by apply shown_child. }
      apply Hz. by apply (shaped_slocs_descendant h s q Hsh).
  - intros [Hvis Hnot]. revert d Hvis Hnot.
    apply (rtc_ind_r (fun d => ~ (descendant h (sroot s) d /\ d <> sroot s) ->
                               visible (collapse_all (slocs s) h) r d)).
    + intros _. apply rtc_refl.
    + intros p z Hrp Hpz IH Hnot.
      assert (p ∉ slocs s) as Hp.
      { intros Hp. apply Hnot.
        assert (descendant h (sroot s) z) as Hz.
        { eapply rtc_r; [by apply (shaped_slocs_descendant h s p Hsh)|].
          by apply shown_child. }
        split; [done|]. intros ->.
        apply (forest_root_no_parent h [s] p (sroot s)).
        - by constructor.
        - unfold flocs. simpl. by rewrite app_nil_r.
        - unfold flocs. simpl. by rewrite app_nil_r.
        - by apply shown_child.
        - simpl. left. }
      eapply rtc_r; [apply IH|by apply shown_collapse].
      intros [Hd _]. apply Hp. by apply (shaped_slocs_descendant h s p Hsh).
Qed.

(** X17.  With [collapsible] on, a click on a node [l] of the tree and the
    layout pass after it.  When [l] was collapsed the pass lists what was
    visible before and, when [l] was visible, what is visible from the
    children of [l].  When [l] was expanded the pass lists what was visible
    before except the nodes below [l]; [l] itself stays. *)
Theorem click_then_layout (t : Tree) (nodeId : string) (evt : string)
    (l : nat) (rest : list nat) (n : node) (t1 : Tree) (r : LayoutResult) (t2 : Tree) :
  tree_inv (objects (state t)) (state_data (state t)) ->
  collapsible (props t) = true ->
  findNodesById (objects (state t)) nodeId (state_data (state t)) [] = Ok (l :: rest) ->
  objects (state t) !! l = Some n ->
  handleNodeToggle nodeId evt t = Ok t1 ->
  generateTree t1 = Ok (r, t2) ->
  exists root,
    head (state_data (state t)) = Some root /\
    forall d, d ∈ nodes r <->
      if _collapsed n
      then visible (objects (state t)) root d \/
           (visible (objects (state t)) root l /\
            exists c, c ∈ entries (_children n) /\ visible (objects (state t)) c d)
      else visible (objects (state t)) root d /\
           ~ (descendant (objects (state t)) l d /\ d <> l).
Proof.
  intros Hinv Hc Hfind Hn Hclick Hgen.
  destruct (findNodesById_spec _ _ nodeId Hinv) as (ts & Hroots & Hs & Hnd & Hfind').
  assert (l ∈ flocs ts) as Hl.
  { assert (l :: rest = ssearch (objects (state t)) nodeId (Sh 0 ts)) as Hhits
      by congruence.
    assert (l ∈ ssearch (objects (state t)) nodeId (Sh 0 ts)) as [Hl _]%ssearch_elem
      by (rewrite <- Hhits; left).
    done. }
  assert (reachable (objects (state t)) (state_data (state t)) l) as Hr
    by (rewrite Hroots; by apply reachable_flocs).
  destruct (tree_inv_subtree _ _ _ Hinv Hr) as (s & Hroot & Hsh & Hnds).
  set (h := objects (state t)) in *.
  set (h1 := if _collapsed n then <[l := set_collapsed false n]> h
             else collapse_all (slocs s) h).
  assert ((if _collapsed n then expandNode l h else collapseNode l h) = Ok h1) as Hstep.
  { unfold h1. destruct (_collapsed n); [by apply expandNode_spec|].
    subst l. unfold collapseNode. apply collapseNode_fuel_spec; [done|].
    pose proof (height_fuel _ _ Hsh Hnds). lia. }
  destruct (handleNodeToggle_step t nodeId evt l rest n h1 Hc Hfind Hn Hstep)
    as (t1' & Hclick' & Hst1 & _).
  assert (t1' = t1) as -> by congruence.
  apply generateTree_inv in Hgen as (root & h2 & h3 & Hhead & Hnodes & _).
  rewrite Hst1 in Hhead, Hnodes. cbn [state_data objects] in Hhead, Hnodes.
  exists root. split; [done|].
  destruct (nodes_visible _ _ _ _ _ _ Hnodes) as [_ Hvis].
  intros d. rewrite Hvis. unfold h1. destruct (_collapsed n) eqn:Hflag.
  - by apply visible_expand.
  - subst l. apply (visible_collapse h ts s root d); try done.
    rewrite <- Hroots. destruct (state_data (state t)) as [|x xs]; [done|].
    injection Hhead as ->. left.
Qed.

Lemma click_then_layout_witness :
  exists t1 r t2,
    handleNodeToggle "0" "click" sample_tree = Ok t1 /\
    generateTree t1 = Ok (r, t2) /\
    forall d, d ∈ nodes r <->
      visible (objects (state sample_tree)) 0 d /\
      ~ (descendant (objects (state sample_tree)) 0 d /\ d <> 0).
Proof.
  destruct (handleNodeToggle "0" "click" sample_tree) as [t1|e] eqn:E1;
    [|by vm_compute in E1].
  destruct (generateTree t1) as [[r t2]|e] eqn:E2.
  - exists t1, r, t2. split; [reflexivity|]. split; [exact E2|].
    destruct (click_then_layout sample_tree "0" "click" 0 []
                {| id := "0"; name := "root"; attributes := []; _collapsed := false;
                   children := Some [1; 2]; _children := Some [1; 2];
                   parent := None; depth := None; x := None; y := None |}
                t1 r t2 (constructor_tree_inv sample_uuid (defaultProps sample_data))
                eq_refl) as (root & Hroot & Hnodes);
      [by vm_compute|by vm_compute|exact E1|exact E2|].
    vm_compute in Hroot. injection Hroot as <-. exact Hnodes.
  - exfalso. vm_compute in E1. injection E1 as <-. by vm_compute in E2.
Defined.
